(** * Client-side translation and locale switching (i18n.js, language-fallback.js)

    A shallow embedding of the [window.i18n] object of the repository
    (the key resolver [t], [translatePage], [applyLanguage],
    [changeLanguage], [createLanguageSwitcher], [init]) and of
    [applyFallbackTranslation], over a small model of the browser
    objects they touch: the document tree, [localStorage] and the
    events dispatched on [window].

    The functions are written in a state and exception monad, statement by
    statement as in the source.  The properties come after the
    definitions; the theorems that settle the claims C1 to C10 of the
    specification carry the claim in their comment.

    Strings are [String.string] holding the UTF-8 bytes of the JavaScript
    string.  The code compares strings for equality, tests them for being
    empty and splits them on the ASCII full stop, and all three agree on
    UTF-8 and on UTF-16. *)

From Stdlib Require Import Ascii String.
From stdpp Require Import base option list strings gmap.

#[local] Set Warnings "-register-all".

Open Scope string_scope.
Open Scope list_scope.

(** ** JavaScript values reachable from the translation tables *)

Inductive value : Type :=
| VUndef
| VNull
| VStr (s : string)
| VNum (n : N)
| VObj (fields : list (string * value))
| VNative (name : string).

(** [VObj] is an object literal with its own properties in insertion
    order; [VNative] stands for a built-in function such as
    [Object.prototype.toString]. *)

Fixpoint assoc {A : Type} (k : string) (l : list (string * A)) : option A :=
  match l with
  | [] => None
  | (k', v) :: l' => if String.eqb k k' then Some v else assoc k l'
  end.

Inductive exn : Type :=
| TypeError
| QuotaExceededError.

(** What a property read finds beyond the own properties of an object
    literal is decided by the ECMAScript built-ins of the page
    (the members of [Object.prototype], the [length] and the indices of
    a primitive string, ...).  A built-in member can be an accessor, and
    an accessor can throw: reading [caller] of a built-in function such as
    [Object] runs an accessor of [Function.prototype] that throws a
    [TypeError].  The development is parametric in the built-ins. *)
Class Host : Type := { inherited : value → string → exn + value }.

(** A host whose built-ins add nothing: every property is an own
    property.  It runs the examples that name no built-in. *)
Definition bare_host : Host := {| inherited := λ _ _, inr VUndef |}.

(** A host with three built-ins of every page: an object literal inherits
    [constructor], which is the function [Object]; the [name] of a
    built-in function is its name; and reading its [caller] throws. *)
Definition accessor_host : Host :=
  {| inherited := λ v k,
       match v with
       | VObj _ => if String.eqb k "constructor" then inr (VNative "Object") else inr VUndef
       | VNative f =>
           if String.eqb k "caller" then inl TypeError
           else if String.eqb k "name" then inr (VStr f) else inr VUndef
       | _ => inr VUndef
       end |}.

(** JavaScript's ToBoolean on the values above. *)
Definition truthy (v : value) : bool :=
  match v with
  | VUndef => false
  | VNull => false
  | VStr s => negb (String.eqb s "")
  | VNum n => negb (N.eqb n 0)
  | VObj _ => true
  | VNative _ => true
  end.

(** [typeof v === 'string'] *)
Definition is_string (v : value) : option string :=
  match v with VStr s => Some s | _ => None end.

(** [v[k]] on a value other than [undefined] and [null]: an own property
    of an object literal is a data property and is returned as it is,
    anything else is up to the built-ins. *)
Definition prop `{Host} (v : value) (k : string) : exn + value :=
  match v with
  | VObj fs => match assoc k fs with Some x => inr x | None => inherited v k end
  | _ => inherited v k
  end.

(** [v[k]]: reading a property of [undefined] or [null] throws. *)
Definition get_prop `{Host} (v : value) (k : string) : exn + value :=
  match v with
  | VUndef | VNull => inl TypeError
  | _ => prop v k
  end.

(** ** [String.prototype.split] on a one-character separator *)

Fixpoint split_on (sep : ascii) (s : string) : list string :=
  match s with
  | EmptyString => [EmptyString]
  | String c s' =>
      if Ascii.eqb c sep then EmptyString :: split_on sep s'
      else match split_on sep s' with
           | [] => [String c EmptyString]
           | w :: ws => String c w :: ws
           end
  end.

Definition split_dot (s : string) : list string := split_on "." s.

(** ** The translation dictionaries of i18n.js *)

Definition nav_table (overview browse matches dates desired_times history
                      profile restaurants settings logout : string) : value :=
  VObj [("nav", VObj [("overview", VStr overview); ("browse", VStr browse);
                      ("matches", VStr matches); ("dates", VStr dates);
                      ("desired_times", VStr desired_times);
                      ("history", VStr history); ("profile", VStr profile);
                      ("restaurants", VStr restaurants);
                      ("settings", VStr settings); ("logout", VStr logout)])].

Definition translations : value :=
  VObj [("en", nav_table "Overview" "Browse Tables" "My Matches" "Upcoming Dates"
                 "Desired Times" "Date History" "Profile" "Restaurants"
                 "Settings" "Logout");
        ("he", nav_table "סקירה כללית" "דפדוף שולחנות" "ההתאמות שלי" "פגישות קרובות"
                 "זמנים רצויים" "היסטוריית פגישות" "פרופיל" "מסעדות"
                 "הגדרות" "יציאה");
        ("ar", nav_table "نظرة عامة" "تصفح الطاولات" "مبارياتي" "المواعيد القادمة"
                 "الأوقات المرغوبة" "سجل المواعيد" "الملف الشخصي" "المطاعم"
                 "الإعدادات" "تسجيل خروج");
        ("ru", nav_table "Обзор" "Просмотр столиков" "Мои совпадения"
                 "Предстоящие свидания" "Желаемое время" "История свиданий"
                 "Профиль" "Рестораны" "Настройки" "Выход")].

Definition supported : list string := ["en"; "he"; "ar"; "ru"].

(** ** The key resolver [t] *)

Section Resolver.
Context `{Host}.

(** The loop of [t]: [None] is the early [return key].  A property is
    read only behind the [translation &&] guard.  The source reads
    [translation[k]] in the test and once more in the assignment; a read
    depends on the node and the name only, so the second read gives what
    the first gave, and the loop is written with one. *)
Fixpoint t_walk (translation : value) (keys : list string) : exn + option value :=
  match keys with
  | [] => inr (Some translation)
  | k :: keys' =>
      if truthy translation then
        match get_prop translation k with
        | inl e => inl e
        | inr v => if truthy v then t_walk v keys' else inr None
        end
      else inr None
  end.

(** [t] with [this.translations] and [this.currentLang] made explicit. *)
Definition t_in (tables : value) (currentLang key : string) : exn + value :=
  match get_prop tables currentLang with
  | inl e => inl e
  | inr translation =>
      match t_walk translation (split_dot key) with
      | inl e => inl e
      | inr (Some v) => inr v
      | inr None => inr (VStr key)
      end
  end.

Definition t (currentLang key : string) : exn + value :=
  t_in translations currentLang key.

(** The loop of [translatePage]: a segment that is not found is skipped,
    the walk goes on from the same node. *)
Fixpoint page_walk (translation : value) (keys : list string) : exn + value :=
  match keys with
  | [] => inr translation
  | k :: keys' =>
      if truthy translation then
        match get_prop translation k with
        | inl e => inl e
        | inr v => if truthy v then page_walk v keys' else page_walk translation keys'
        end
      else page_walk translation keys'
  end.

Definition page_lookup (tables : value) (currentLang attr : string) : exn + value :=
  match get_prop tables currentLang with
  | inl e => inl e
  | inr translation => page_walk translation (split_dot attr)
  end.

End Resolver.

(** ** The document *)

Record element : Type := Element {
  tag : string;
  classList : list string;
  data_translate : option string;     (* the [data-translate] attribute *)
  style : gmap string string;         (* inline style declarations *)
  onclick : option string             (* [() => this.changeLanguage(code)] *)
}.

Inductive node : Type :=
| Text (data : string)
| Elem (e : element) (children : list node).

(** A node of the document is named by the child indices that lead to it
    from the root element.  The code inserts no element before an existing
    one, so a path names the same element for as long as it is attached. *)
Definition path : Type := list nat.

Fixpoint node_at (p : path) (n : node) : option node :=
  match p with
  | [] => Some n
  | i :: q =>
      match n with
      | Text _ => None
      | Elem _ cs => match cs !! i with Some c => node_at q c | None => None end
      end
  end.

Definition elem_at (p : path) (n : node) : option (element * list node) :=
  match node_at p n with
  | Some (Elem e cs) => Some (e, cs)
  | _ => None
  end.

Fixpoint alter_at (f : node → node) (p : path) (n : node) : node :=
  match p with
  | [] => f n
  | i :: q =>
      match n with
      | Text s => Text s
      | Elem e cs => Elem e (alter (alter_at f q) i cs)
      end
  end.

Definition on_elem (f : element → element) (n : node) : node :=
  match n with
  | Text s => Text s
  | Elem e cs => Elem (f e) cs
  end.

Definition on_children (f : list node → list node) (n : node) : node :=
  match n with
  | Text s => Text s
  | Elem e cs => Elem e (f cs)
  end.

(** The [textContent] getter: the text of all descendants, in tree order. *)
Fixpoint textContent (n : node) : string :=
  match n with
  | Text s => s
  | Elem _ cs =>
      (fix go (cs : list node) : string :=
         match cs with
         | [] => ""
         | c :: cs' => textContent c +:+ go cs'
         end) cs
  end.

(** The [textContent] setter replaces all children by one text node, or by
    nothing when the string is empty. *)
Definition text_children (s : string) : list node :=
  if String.eqb s "" then [] else [Text s].

(** [querySelectorAll]: the paths of the matching elements of the subtree,
    in document order. *)
Fixpoint select (sel : element → bool) (n : node) : list path :=
  match n with
  | Text _ => []
  | Elem e cs =>
      (if sel e then [[]] else []) ++
      (fix go (i : nat) (cs : list node) : list path :=
         match cs with
         | [] => []
         | c :: cs' => (cons i <$> select sel c) ++ go (S i) cs'
         end) 0 cs
  end.

Definition has_class (c : string) (e : element) : bool :=
  bool_decide (c ∈ classList e).

Definition has_data_translate (e : element) : bool :=
  match data_translate e with Some _ => true | None => false end.

Definition any_element (e : element) : bool := true.

Definition is_body (n : node) : bool :=
  match n with
  | Elem e _ => String.eqb (tag e) "body"
  | Text _ => false
  end.

Fixpoint find_index {A : Type} (f : A → bool) (l : list A) : option nat :=
  match l with
  | [] => None
  | x :: l' => if f x then Some 0 else S <$> find_index f l'
  end.

(** [document.body]: the first [body] child of the root element. *)
Definition body_path (d : node) : option path :=
  match d with
  | Elem _ cs => (λ i, [i]) <$> find_index is_body cs
  | Text _ => None
  end.

Definition add_class (c : string) (e : element) : element :=
  Element (tag e) (if bool_decide (c ∈ classList e) then classList e else classList e ++ [c])
          (data_translate e) (style e) (onclick e).

Definition remove_class (c : string) (e : element) : element :=
  Element (tag e) (filter (λ c', c' ≠ c) (classList e))
          (data_translate e) (style e) (onclick e).

Definition set_style (k v : string) (e : element) : element :=
  Element (tag e) (classList e) (data_translate e) (<[k:=v]> (style e)) (onclick e).

(** The two inner loops above, by name. *)
Fixpoint textContent_list (cs : list node) : string :=
  match cs with
  | [] => ""
  | c :: cs' => textContent c +:+ textContent_list cs'
  end.

Fixpoint select_list (sel : element → bool) (i : nat) (cs : list node) : list path :=
  match cs with
  | [] => []
  | c :: cs' => (cons i <$> select sel c) ++ select_list sel (S i) cs'
  end.

Definition record_at (p : path) (n : node) : option element :=
  fst <$> elem_at p n.

(** *** Loops that assign to [textContent]

    Both translators run [forEach] over a static node list and assign a new
    text to some of the elements.  [new_text e cs] is the text the body of
    the loop assigns to an element with record [e] and children [cs], if it
    assigns one. *)
Section Rewrite.
Variable new_text : element → list node → option string.

(** One iteration, for the element the list holds under path [p]; nothing
    happens to the document when that element is detached by now. *)
Definition rewrite_step (d : node) (p : path) : node :=
  match elem_at p d with
  | Some (e, cs) =>
      match new_text e cs with
      | Some s => alter_at (on_children (λ _, text_children s)) p d
      | None => d
      end
  | None => d
  end.

(** The document the whole loop leaves, by recursion on the tree: below an
    element that received a text nothing is left. *)
Fixpoint rewrite_tree (n : node) : node :=
  match n with
  | Text s => Text s
  | Elem e cs =>
      match new_text e cs with
      | Some s => Elem e (text_children s)
      | None => Elem e (rewrite_tree <$> cs)
      end
  end.

End Rewrite.

(** ** Page state and effects *)

(** What the code does to the objects outside of it, in the order it
    does it: assignments to [this.currentLang], writes to [localStorage],
    mutations of nodes attached to the document, dispatched events. *)
Inductive effect : Type :=
| SetCurrentLang (lang : string)
| StorageSetItem (key val : string)
| ClassAdd (p : path) (c : string)
| ClassRemove (p : path) (c : string)
| StyleSet (p : path) (property val : string)
| TextContentSet (p : path) (text : string)
| AppendChild (p : path) (child : node)
| DispatchEvent (type : string) (detail : list (string * string)).

Record state : Type := State {
  currentLang : string;                 (* [window.i18n.currentLang] *)
  localStorage : gmap string string;
  storage_full : bool;                  (* [setItem] throws when set *)
  document : node;                      (* the root element *)
  trace : list effect
}.

Definition with_currentLang (l : string) (st : state) : state :=
  State l (localStorage st) (storage_full st) (document st) (trace st).
Definition with_localStorage (m : gmap string string) (st : state) : state :=
  State (currentLang st) m (storage_full st) (document st) (trace st).
Definition with_document (d : node) (st : state) : state :=
  State (currentLang st) (localStorage st) (storage_full st) d (trace st).
Definition emit (e : effect) (st : state) : state :=
  State (currentLang st) (localStorage st) (storage_full st) (document st) (trace st ++ [e]).

(** A computation either returns or throws, and leaves a state behind in
    both cases. *)
Definition M (A : Type) : Type := state → (exn + A) * state.

#[export] Instance M_ret : MRet M := λ A (x : A) st, (inr x, st).
#[export] Instance M_bind : MBind M := λ A B (f : A → M B) (m : M A) st,
  match m st with
  | (inl e, st') => (inl e, st')
  | (inr x, st') => f x st'
  end.

Definition throw {A : Type} (e : exn) : M A := λ st, (inl e, st).
Definition get_state : M state := λ st, (inr st, st).
Definition modify (f : state → state) : M unit := λ st, (inr tt, f st).
Definition lift {A : Type} (r : exn + A) : M A :=
  match r with inl e => throw e | inr x => mret x end.

Definition result {A : Type} (m : M A) (st : state) : exn + A := (m st).1.
Definition exec {A : Type} (m : M A) (st : state) : state := (m st).2.

Fixpoint forEach {A : Type} (l : list A) (f : A → M unit) : M unit :=
  match l with
  | [] => mret tt
  | x :: l' => f x ;; forEach l' f
  end.

(** *** Browser primitives *)

Definition querySelectorAll (sel : element → bool) : M (list path) :=
  st ← get_state; mret (select sel (document st)).

Definition querySelector (sel : element → bool) : M (option path) :=
  st ← get_state; mret (head (select sel (document st))).

(** The node list holds the elements themselves.  A loop that reads an
    attribute of each element reads it also from an element that an
    earlier iteration has detached from the document; for such a loop the
    list keeps, with each path, the record of the element found under it.
    (No loop of the code changes a record it reads later.) *)
Definition elements_at (d : node) (ps : list path) : list (path * element) :=
  omap (λ p, pair p <$> record_at p d) ps.

Definition querySelectorAll_elements (sel : element → bool) : M (list (path * element)) :=
  st ← get_state; mret (elements_at (document st) (select sel (document st))).

(** Evaluating [document.body.x]: a [TypeError] when there is no body. *)
Definition body : M path :=
  st ← get_state;
  match body_path (document st) with
  | Some p => mret p
  | None => throw TypeError
  end.

(** A mutation of the element that the code holds under path [p].  When the
    element has been detached meanwhile (an ancestor lost its children),
    the mutation lands outside of the document and leaves it as it is. *)
Definition mutate (p : path) (f : node → node) (e : effect) : M unit :=
  st ← get_state;
  match elem_at p (document st) with
  | Some _ => modify (λ st, emit e (with_document (alter_at f p (document st)) st))
  | None => mret tt
  end.

Definition classList_add (p : path) (c : string) : M unit :=
  mutate p (on_elem (add_class c)) (ClassAdd p c).
Definition classList_remove (p : path) (c : string) : M unit :=
  mutate p (on_elem (remove_class c)) (ClassRemove p c).
Definition style_set (p : path) (k v : string) : M unit :=
  mutate p (on_elem (set_style k v)) (StyleSet p k v).
Definition textContent_set (p : path) (s : string) : M unit :=
  mutate p (on_children (λ _, text_children s)) (TextContentSet p s).
Definition appendChild (p : path) (child : node) : M unit :=
  mutate p (on_children (λ cs, cs ++ [child])) (AppendChild p child).

Definition setItem (k v : string) : M unit :=
  st ← get_state;
  if storage_full st then throw QuotaExceededError
  else modify (λ st, emit (StorageSetItem k v)
                       (with_localStorage (<[k:=v]> (localStorage st)) st)).

Definition dispatchEvent (type : string) (detail : list (string * string)) : M unit :=
  modify (emit (DispatchEvent type detail)).

(** ** window.i18n *)

(** The initializer of the [currentLang] property:
    [localStorage.getItem('userLanguage') || 'en']. *)
Definition initial_currentLang (storage : gmap string string) : string :=
  match storage !! "userLanguage" with
  | Some s => if String.eqb s "" then "en" else s
  | None => "en"
  end.

(** The page when the script has been evaluated and before [init] runs. *)
Definition load (storage : gmap string string) (full : bool) (d : node) : state :=
  State (initial_currentLang storage) storage full d [].

Definition languages : list (string * string) :=
  [("en", "EN"); ("he", "HE"); ("ar", "AR"); ("ru", "RU")].

Definition switcher_style : gmap string string :=
  list_to_map [("position", "fixed"); ("top", "2rem"); ("right", "2rem");
               ("z-index", "1000"); ("background", "white");
               ("border-radius", "12px");
               ("box-shadow", "0 4px 12px rgba(0,0,0,0.1)");
               ("padding", "0.5rem"); ("display", "flex"); ("gap", "0.5rem")].

Definition button_style (active : bool) : gmap string string :=
  list_to_map [("padding", "0.5rem 1rem"); ("border", "none");
               ("background", if active then "#FF6B6B" else "transparent");
               ("color", if active then "white" else "#2D3436");
               ("cursor", "pointer"); ("border-radius", "8px");
               ("font-weight", "500"); ("transition", "all 0.3s")].

(** One iteration of [languages.forEach]: the button as it is when it is
    appended to the switcher. The hover handlers are left out. *)
Definition lang_button (current : string) (lang : string * string) : node :=
  let active := String.eqb lang.1 current in
  Elem (Element "button" (if active then ["lang-btn"; "active"] else ["lang-btn"])
          None (button_style active) (Some lang.1))
       (text_children lang.2).

Definition new_switcher (current : string) : node :=
  Elem (Element "div" ["language-switcher"] None switcher_style None)
       (lang_button current <$> languages).

Definition createLanguageSwitcher : M unit :=
  existing ← querySelector (has_class "language-switcher");
  match existing with
  | Some _ => mret tt
  | None =>
      st ← get_state;
      b ← body;
      appendChild b (new_switcher (currentLang st))
  end.

Definition applyLanguage : M unit :=
  st ← get_state;
  if String.eqb (currentLang st) "he" || String.eqb (currentLang st) "ar" then
    b ← body;
    classList_add b "rtl";;
    b ← body;
    style_set b "direction" "rtl";;
    switcher ← querySelector (has_class "language-switcher");
    match switcher with
    | Some p => style_set p "right" "auto";; style_set p "left" "2rem"
    | None => mret tt
    end
  else
    b ← body;
    classList_remove b "rtl";;
    b ← body;
    style_set b "direction" "ltr";;
    switcher ← querySelector (has_class "language-switcher");
    match switcher with
    | Some p => style_set p "left" "auto";; style_set p "right" "2rem"
    | None => mret tt
    end.

Definition isActive (lang text : string) : bool :=
  (String.eqb lang "en" && String.eqb text "EN") ||
  (String.eqb lang "he" && String.eqb text "HE") ||
  (String.eqb lang "ar" && String.eqb text "AR") ||
  (String.eqb lang "ru" && String.eqb text "RU").

Definition restyle_button (lang : string) (p : path) : M unit :=
  st ← get_state;
  match node_at p (document st) with
  | None => mret tt
  | Some btn =>
      if isActive lang (textContent btn) then
        classList_add p "active";;
        style_set p "background" "#FF6B6B";;
        style_set p "color" "white"
      else
        classList_remove p "active";;
        style_set p "background" "transparent";;
        style_set p "color" "#2D3436"
  end.

Section I18n.
Context `{Host}.

(** The body of the [forEach] of [translatePage], for an element of the
    node list: [x.1] is the path under which it was found and [x.2] its
    record.  The attribute is read from the element and its key is
    walked whether or not the element is still attached; the assignment
    to [textContent] reaches the document only when it is. *)
Definition translate_element (x : path * element) : M unit :=
  match data_translate x.2 with
  | None => throw TypeError
  | Some attr =>
      st ← get_state;
      translation ← lift (page_lookup translations (currentLang st) attr);
      match is_string translation with
      | Some s => textContent_set x.1 s
      | None => mret tt
      end
  end.

Definition translatePage : M unit :=
  elements ← querySelectorAll_elements has_data_translate;
  forEach elements translate_element.

Definition init : M unit :=
  createLanguageSwitcher;; applyLanguage;; translatePage.

Definition changeLanguage (lang : string) : M unit :=
  modify (λ st, emit (SetCurrentLang lang) (with_currentLang lang st));;
  setItem "userLanguage" lang;;
  buttons ← querySelectorAll (has_class "lang-btn");
  forEach buttons (restyle_button lang);;
  applyLanguage;;
  translatePage;;
  dispatchEvent "languageChanged" [("language", lang)].

(** A click on the element under [p]: its handler, if it has one, is
    [() => this.changeLanguage(lang.code)]. *)
Definition click (p : path) : M unit :=
  st ← get_state;
  match elem_at p (document st) with
  | Some (e, _) =>
      match onclick e with
      | Some code => changeLanguage code
      | None => mret tt
      end
  | None => mret tt
  end.

(** What [changeLanguage] does after the write to the storage. *)
Definition rerender (lang : string) : M unit :=
  buttons ← querySelectorAll (has_class "lang-btn");
  forEach buttons (restyle_button lang);;
  applyLanguage;;
  translatePage;;
  dispatchEvent "languageChanged" [("language", lang)].

End I18n.

(** ** language-fallback.js *)

Definition fallbackTranslations : list (string * list (string * string)) :=
  [("he", [("Table for Two", "שולחן לשניים");
           ("Real Dates. Real People. Real Connections.",
            "דייטים אמיתיים. אנשים אמיתיים. קשרים אמיתיים.");
           ("Login", "התחברות");
           ("Sign Up", "הרשמה");
           ("Browse Tables", "עיון בשולחנות");
           ("My Matches", "ההתאמות שלי");
           ("Upcoming Dates", "דייטים קרובים");
           ("Restaurant", "מסעדה");
           ("Date", "תאריך");
           ("Time", "זמן")]);
   ("ar", [("Table for Two", "طاولة لاثنين");
           ("Real Dates. Real People. Real Connections.",
            "مواعيد حقيقية. أشخاص حقيقيون. روابط حقيقية.");
           ("Login", "تسجيل الدخول");
           ("Sign Up", "اشتراك");
           ("Browse Tables", "تصفح الطاولات");
           ("My Matches", "مطابقاتي");
           ("Upcoming Dates", "المواعيد القادمة");
           ("Restaurant", "مطعم");
           ("Date", "التاريخ");
           ("Time", "الوقت")]);
   ("ru", [("Table for Two", "Столик на двоих");
           ("Real Dates. Real People. Real Connections.",
            "Настоящие свидания. Настоящие люди. Настоящие связи.");
           ("Login", "Вход");
           ("Sign Up", "Регистрация");
           ("Browse Tables", "Обзор столиков");
           ("My Matches", "Мои совпадения");
           ("Upcoming Dates", "Предстоящие свидания");
           ("Restaurant", "Ресторан");
           ("Date", "Дата");
           ("Time", "Время")])].

(** The body of the inner [forEach]. *)
Definition fallback_element (english translated : string) (p : path) : M unit :=
  st ← get_state;
  match node_at p (document st) with
  | Some (Elem e cs) =>
      if String.eqb (textContent (Elem e cs)) english
      then textContent_set p translated
      else mret tt
  | _ => mret tt
  end.

(** [fallbackTranslations[language]] is a table for the three own keys.  For
    any other name it is [undefined], and the function returns at once, or
    it is a member inherited from [Object.prototype], which has no
    enumerable key to loop over: the document stays as it is either way. *)
Definition applyFallbackTranslation (language : string) : M unit :=
  match assoc language fallbackTranslations with
  | None => mret tt
  | Some translations =>
      forEach translations (λ entry,
        elements ← querySelectorAll any_element;
        forEach elements (fallback_element entry.1 entry.2))
  end.

(** * Notions used in the statements *)

(** ** The key resolver *)


Inductive walk_ends `{Host} : value → list string → value → Prop :=
| ends_here v : walk_ends v [] v
| ends_below v k ks w u :
    truthy v = true → get_prop v k = inr w → truthy w = true →
    walk_ends w ks u → walk_ends v (k :: ks) u.


(** A walk that the tables decide by themselves: every segment names an
    own entry of the node reached, so that no built-in is read. *)
Inductive own_walk : value → list string → value → Prop :=
| own_here v : own_walk v [] v
| own_below fields k ks w u :
    assoc k fields = Some w → truthy w = true →
    own_walk w ks u → own_walk (VObj fields) (k :: ks) u.

(** [subvalue u v]: [u] is [v] or lies inside it, as an own property of an
    own property ... *)
Inductive subvalue : value → value → Prop :=
| subvalue_refl v : subvalue v v
| subvalue_field u fields k v :
    assoc k fields = Some v → subvalue u v → subvalue u (VObj fields).

(** ** The locale *)

(** A computation that leaves the locale and the storage alone, whether it
    returns or throws. *)
Definition dom_only {A : Type} (m : M A) : Prop :=
  ∀ st, currentLang (m st).2 = currentLang st ∧
        localStorage (m st).2 = localStorage st ∧
        storage_full (m st).2 = storage_full st.

Definition is_rtl (lang : string) : bool :=
  String.eqb lang "he" || String.eqb lang "ar".

(** ** [translatePage] *)

Section TranslateTree.
Context `{Host}.

(** The text [translatePage] writes into an element, if it writes one. *)
Definition translation_of (lang : string) (e : element) : option string :=
  match data_translate e with
  | Some attr =>
      match page_lookup translations lang attr with
      | inr v => is_string v
      | inl _ => None
      end
  | None => None
  end.

(** The exception that the walk of the key of an element throws, if it
    throws one. *)
Definition walk_error (lang : string) (e : element) : option exn :=
  match data_translate e with
  | Some attr =>
      match page_lookup translations lang attr with
      | inr _ => None
      | inl ex => Some ex
      end
  | None => None
  end.

(** No key of the document makes a read throw. *)
Definition walks_return (lang : string) (d : node) : Prop :=
  ∀ p e, record_at p d = Some e → walk_error lang e = None.

(** One iteration of [translatePage] on the document alone, and the
    document the loop leaves when no walk throws. *)
Definition translate_step (lang : string) : node → path → node :=
  rewrite_step (λ e _, translation_of lang e).

Definition translate_tree (lang : string) : node → node :=
  rewrite_tree (λ e _, translation_of lang e).

(** The loop on the document alone, with its outcome: it stops at the
    first element of the list whose walk throws. *)
Fixpoint translate_items (lang : string) (d : node) (items : list (path * element))
    : (exn + unit) * node :=
  match items with
  | [] => (inr tt, d)
  | x :: items' =>
      match walk_error lang x.2 with
      | Some ex => (inl ex, d)
      | None => translate_items lang (translate_step lang d x.1) items'
      end
  end.

Definition translate_doc (lang : string) (d : node) : (exn + unit) * node :=
  translate_items lang d (elements_at d (select has_data_translate d)).

(** A write of [translatePage]: the text is the translation of the element
    that document [d0] has under the path. *)
Definition written (d0 : node) (lang : string) (ef : effect) : Prop :=
  match ef with
  | TextContentSet p s =>
      ∃ e cs, elem_at p d0 = Some (e, cs) ∧ translation_of lang e = Some s
  | _ => False
  end.

End TranslateTree.

Definition is_text_set (e : effect) : Prop :=
  match e with TextContentSet _ _ => True | _ => False end.

(** [r] and [q] lie on one branch: one is an ancestor of the other. *)
Definition on_branch (r q : path) : Prop := r `prefix_of` q ∨ q `prefix_of` r.

Definition text_at (p : path) (d : node) : option string :=
  textContent <$> node_at p d.

(** ** [applyLanguage] *)

(** [document.querySelector('.language-switcher')] *)
Definition switcher_of (d : node) : option path :=
  head (select (has_class "language-switcher") d).

Definition switcher_count (d : node) : nat :=
  length (select (has_class "language-switcher") d).

(** What [applyLanguage] does to the record of the body and to the record
    of the switcher, and the mutations it makes. *)
Definition direct (lang : string) (e : element) : element :=
  if is_rtl lang then set_style "direction" "rtl" (add_class "rtl" e)
  else set_style "direction" "ltr" (remove_class "rtl" e).

Definition reposition (lang : string) (e : element) : element :=
  if is_rtl lang then set_style "left" "2rem" (set_style "right" "auto" e)
  else set_style "right" "2rem" (set_style "left" "auto" e).

Definition apply_doc (lang : string) (b : path) (d : node) : node :=
  let d' := alter_at (on_elem (direct lang)) b d in
  match switcher_of d with
  | Some p => alter_at (on_elem (reposition lang)) p d'
  | None => d'
  end.

Definition apply_trace (lang : string) (b : path) (switcher : option path) : list effect :=
  if is_rtl lang then
    [ClassAdd b "rtl"; StyleSet b "direction" "rtl"] ++
    match switcher with
    | Some p => [StyleSet p "right" "auto"; StyleSet p "left" "2rem"]
    | None => []
    end
  else
    [ClassRemove b "rtl"; StyleSet b "direction" "ltr"] ++
    match switcher with
    | Some p => [StyleSet p "left" "auto"; StyleSet p "right" "2rem"]
    | None => []
    end.

(** ** The controls of the switcher *)

(** What the document knows of a control: its label, the code its click
    handler passes to [changeLanguage], and whether it is marked active
    (class and background). *)
Definition control_of (n : node) : string * option string * bool * bool :=
  match n with
  | Elem e _ =>
      (textContent n, onclick e, bool_decide ("active" ∈ classList e),
       bool_decide (style e !! "background" = Some "#FF6B6B"))
  | Text s => (s, None, false, false)
  end.

Definition children_of (n : node) : list node :=
  match n with Elem _ cs => cs | Text _ => [] end.

(** What the [forEach] of [changeLanguage] does to the record of a button,
    by whether its label is the one of the new language. *)
Definition restyle (active : bool) (e : element) : element :=
  if active
  then set_style "color" "white" (set_style "background" "#FF6B6B" (add_class "active" e))
  else set_style "color" "#2D3436"
         (set_style "background" "transparent" (remove_class "active" e)).

Definition restyle_step (lang : string) (d : node) (p : path) : node :=
  match node_at p d with
  | Some n => alter_at (on_elem (restyle (isActive lang (textContent n)))) p d
  | None => d
  end.

Definition restyle_doc (lang : string) (d : node) : node :=
  foldl (restyle_step lang) d (select (has_class "lang-btn") d).

Definition styled (active : bool) (e : element) : Prop :=
  ("active" ∈ classList e ↔ active = true) ∧
  style e !! "background" = Some (if active then "#FF6B6B" else "transparent") ∧
  style e !! "color" = Some (if active then "white" else "#2D3436").

Definition is_restyle (ef : effect) : Prop :=
  match ef with
  | ClassAdd _ c | ClassRemove _ c => c = "active"
  | StyleSet _ k _ => k = "background" ∨ k = "color"
  | _ => False
  end.

(** ** The fallback *)

(** What one pass of the fallback assigns to an element. *)
Definition fallback_text (english translated : string) (e : element) (cs : list node)
    : option string :=
  if String.eqb (textContent (Elem e cs)) english then Some translated else None.

Definition fallback_pass (d : node) (entry : string * string) : node :=
  rewrite_tree (fallback_text entry.1 entry.2) d.

Definition fallback_tree (table : list (string * string)) (d : node) : node :=
  foldl fallback_pass d table.

(** The document [applyFallbackTranslation language] leaves. *)
Definition fallback_doc (language : string) (d : node) : node :=
  document (exec (applyFallbackTranslation language) (State "en" ∅ false d [])).

(** A byte above 127: part of a character outside of ASCII. *)
Definition high (c : ascii) : bool :=
  match c with Ascii _ _ _ _ _ _ _ b7 => b7 end.

Fixpoint has_high (s : string) : bool :=
  match s with
  | EmptyString => false
  | String c s' => high c || has_high s'
  end.

(** English phrases in ASCII, translations outside of it. *)
Definition well_keyed (table : list (string * string)) : Prop :=
  Forall (λ entry, has_high entry.1 = false ∧ has_high entry.2 = true) table.

(** No element of the document shows one of the phrases [ks]. *)
Definition clean (ks : list string) (d : node) : Prop :=
  ∀ p e cs, elem_at p d = Some (e, cs) → textContent (Elem e cs) ∉ ks.

(** Some element of the document shows one of the phrases [ks]. *)
Definition shows (ks : list string) (d : node) : Prop :=
  ∃ p e cs, elem_at p d = Some (e, cs) ∧ textContent (Elem e cs) ∈ ks.

(** ** Pages to run the code on *)

Definition plain (tg : string) (cs : list node) : node :=
  Elem (Element tg [] None ∅ None) cs.

Definition keyed (tg key : string) (cs : list node) : node :=
  Elem (Element tg [] (Some key) ∅ None) cs.

(** A navigation bar with two keyed links and one plain paragraph. *)
Definition sample_page : node :=
  plain "html"
    [plain "head" [];
     plain "body"
       [plain "nav" [keyed "a" "nav.profile" [Text "Profile"];
                     keyed "a" "nav.logout" [Text "Logout"]];
        plain "p" [Text "Login"]]].

Definition sample_state (lang : string) (full : bool) : state :=
  State lang ∅ full sample_page [].

(** A keyed block around a keyed label, and a keyed link with an icon. *)
Definition nested_page : node :=
  plain "html"
    [plain "head" [];
     plain "body"
       [keyed "div" "nav" [keyed "span" "nav.logout" [Text "Logout"]];
        keyed "a" "nav.profile" [plain "i" []; Text "Profile"]]].

(** A keyed block around a link whose key names the accessor [caller] of
    the function [Object], followed by a keyed paragraph. *)
Definition accessor_page : node :=
  plain "html"
    [plain "head" [];
     plain "body"
       [keyed "div" "nav.logout" [keyed "a" "nav.constructor.caller" [Text "Who"]];
        keyed "p" "nav.profile" [Text "Profile"]]].

(** A page whose heading shows [text]. *)
Definition page_with (text : string) : node :=
  plain "html"
    [plain "head" [plain "title" [Text "Home"]];
     plain "body" [plain "h1" [Text text]; plain "p" [Text "Welcome"]]].


(** * More of the page code *)

(** ** The hover handlers of the controls (i18n.js)

    [createLanguageSwitcher] gives every button two more handlers,
    [onmouseover] and [onmouseout]; [this] is the button, named here by
    its path. *)
Definition onmouseover (p : path) : M unit :=
  st ← get_state;
  match elem_at p (document st) with
  | Some (e, _) =>
      if has_class "active" e then mret tt
      else style_set p "background" "#F8F9FA"
  | None => mret tt
  end.

Definition onmouseout (p : path) : M unit :=
  st ← get_state;
  match elem_at p (document st) with
  | Some (e, _) =>
      if has_class "active" e then mret tt
      else style_set p "background" "transparent"
  | None => mret tt
  end.

(** The loop of [changeLanguage] over the controls, by itself. *)
Definition restyle_buttons (lang : string) : M unit :=
  buttons ← querySelectorAll (has_class "lang-btn");
  forEach buttons (restyle_button lang).

(** ** conveythis-config.js *)

(** [x.setAttribute('data-translate', v)] on the record of [x]. *)
Definition set_data_translate (v : string) (e : element) : element :=
  Element (tag e) (classList e) (Some v) (style e) (onclick e).

(** [document.querySelectorAll(sel).forEach(x =>
       x.setAttribute('data-translate', 'yes'))], on the document. *)
Definition mark_all (sel : element → bool) (d : node) : node :=
  foldl (λ d p, alter_at (on_elem (set_data_translate "yes")) p d) d (select sel d).

(** The document [handleRestaurantTranslation] leaves: the cards, then the
    names, then the details are marked. *)
Definition handleRestaurantTranslation (d : node) : node :=
  mark_all (has_class "restaurant-details")
    (mark_all (has_class "restaurant-name")
       (mark_all (has_class "restaurant-card") d)).

Definition is_restaurant_content (e : element) : bool :=
  has_class "restaurant-card" e || has_class "restaurant-name" e ||
  has_class "restaurant-details" e.

(** ** Notions used in the statements *)

(** Two tables of the same shape: the same keys in the same order, with a
    non-empty string in the one where the other has one. *)
Inductive same_shape : value → value → Prop :=
| shape_str s1 s2 : s1 ≠ "" → s2 ≠ "" → same_shape (VStr s1) (VStr s2)
| shape_obj fs1 fs2 :
    Forall2 (λ f1 f2, f1.1 = f2.1 ∧ same_shape f1.2 f2.2) fs1 fs2 →
    same_shape (VObj fs1) (VObj fs2).

(** Every element that [translatePage] writes for locale [b] it also
    writes for locale [a]. *)
Definition covers `{Host} (a b : string) : Prop :=
  ∀ e, is_Some (translation_of b e) → is_Some (translation_of a e).

(** The document after [init] found no switcher and made one. *)
Definition with_switcher (lang : string) (b : path) (d : node) : node :=
  match switcher_of d with
  | Some _ => d
  | None => alter_at (on_children (λ cs, cs ++ [new_switcher lang])) b d
  end.

(** A write of the fallback for the table [table]: the element under the
    path showed, in document [d0], exactly the English phrase whose
    translation is written. *)
Definition fallback_written (d0 : node) (table : list (string * string)) (ef : effect) : Prop :=
  match ef with
  | TextContentSet p s =>
      ∃ english, (english, s) ∈ table ∧ text_at p d0 = Some english ∧ is_Some (elem_at p d0)
  | _ => False
  end.

(** A page with a restaurant card that carries a key of the tables. *)
Definition restaurant_page : node :=
  plain "html"
    [plain "head" [];
     plain "body"
       [Elem (Element "div" ["restaurant-card"] (Some "nav.restaurants") ∅ None)
             [Text "Restaurants"];
        Elem (Element "h3" ["restaurant-name"] None ∅ None) [Text "Chez Nous"];
        keyed "a" "nav.logout" [Text "Logout"]]].

(** Document [d] holds no element that [d0] does not hold under the same
    path with the same record, and the text of an element of [d] is the
    text it had in [d0] unless a character outside of ASCII is in it. *)
Definition text_kept (d0 d : node) : Prop :=
  ∀ p e cs, elem_at p d = Some (e, cs) →
    ∃ cs0, elem_at p d0 = Some (e, cs0) ∧
           (textContent_list cs = textContent_list cs0 ∨
            has_high (textContent_list cs) = true).

(** What [handleRestaurantTranslation] makes of a record. *)
Definition mark (e : element) : element :=
  if is_restaurant_content e then set_data_translate "yes" e else e.

(** * api-service.js: the class [APIService]

    The methods are [async]: each is followed here from its call to the
    settling of its promise, an [await] being the point where the awaited
    result arrives.  What another call does to the service between two
    awaits of this one is not modelled.  [console.error] is left out. *)

From stdpp Require pretty.

(** ** The values that travel through the service *)

(** Numbers are whole numbers here: the code only tests a number for
    being truthy.  [JFormData] is a [FormData] object with its entries. *)
Inductive jsv : Type :=
| JUndefined
| JNull
| JBool (b : bool)
| JNumber (n : Z)
| JString (s : string)
| JArray (items : list jsv)
| JObject (fields : gmap string jsv)
| JFormData (entries : list (string * jsv)).

(** An object literal such as the [options] of [request]. *)
Abbreviation object := (gmap string jsv) (only parsing).

(** ToBoolean *)
Definition to_boolean (v : jsv) : bool :=
  match v with
  | JUndefined | JNull => false
  | JBool b => b
  | JNumber n => negb (Z.eqb n 0)
  | JString s => negb (String.eqb s "")
  | JArray _ | JObject _ | JFormData _ => true
  end.

(** [typeof v === 'object'] *)
Definition typeof_object (v : jsv) : bool :=
  match v with
  | JNull | JArray _ | JObject _ | JFormData _ => true
  | _ => false
  end.

(** [v !== 'GET'] is [negb (is_GET v)]. *)
Definition is_GET (v : jsv) : bool :=
  match v with
  | JString s => String.eqb s "GET"
  | _ => false
  end.

(** [o.k] on an object literal, for a name that [Object.prototype] does
    not define. *)
Definition js_get (o : object) (k : string) : jsv := default JUndefined (o !! k).

Inductive api_error : Type :=
| FetchRejected                 (* the promise of [fetch] rejected *)
| JsonRejected                  (* [response.json()] rejected: the body is not JSON *)
| NullishRead                   (* TypeError: a property of [undefined] or [null] was read *)
| StringifyThrew                (* [JSON.stringify] threw *)
| UriMalformed                  (* [encodeURIComponent] threw *)
| ParamsRejected                (* [new URLSearchParams(filters)] threw *)
| ErrorWith (message : jsv).    (* [new Error(message)] *)

(** [v.k] on a value that came out of [response.json()], for the two names
    the class reads, [csrf_token] and [message]: no built-in prototype
    defines them. *)
Definition member (k : string) (v : jsv) : api_error + jsv :=
  match v with
  | JUndefined | JNull => inl NullishRead
  | JObject fields => inr (default JUndefined (fields !! k))
  | _ => inr JUndefined
  end.

(** What the class looks at in a [Response]; [json] is [None] when
    [response.json()] rejects. *)
Record response : Type := Response {
  ok : bool;
  status : N;
  json : option jsv
}.

Record fetch_call : Type := FetchCall {
  url : string;
  options_of : object
}.

(** The functions of the platform.  [server] answers a call, given the
    calls made before it; [None] is a rejected [fetch], a throwing
    [JSON.stringify], [encodeURIComponent] or [new URLSearchParams]
    (which refuses, for one, an array whose items are not pairs).
    [URLSearchParams v] is the text of the parameters made from [v], as
    the template literal has it. *)
Class Browser : Type := {
  server : list fetch_call → fetch_call → option response;
  JSON_stringify : jsv → option string;
  ToString : jsv → string;
  URLSearchParams : jsv → option string;
  encodeURIComponent : jsv → option string
}.

(** The instance of the class, and the calls of [fetch] made so far. *)
Record service : Type := Service {
  baseURL : string;
  csrfToken : jsv;
  calls : list fetch_call
}.

(** [new APIService()] *)
Definition new_service : service := Service "/api" JNull [].

Definition Async (A : Type) : Type := service → (api_error + A) * service.

#[export] Instance Async_ret : MRet Async := λ A (x : A) s, (inr x, s).
#[export] Instance Async_bind : MBind Async := λ A B (f : A → Async B) (m : Async A) s,
  match m s with
  | (inl e, s') => (inl e, s')
  | (inr x, s') => f x s'
  end.

Definition reject {A : Type} (e : api_error) : Async A := λ s, (inl e, s).
Definition get_service : Async service := λ s, (inr s, s).
Definition set_csrfToken (v : jsv) : Async unit :=
  λ s, (inr tt, Service (baseURL s) v (calls s)).
Definition settled {A : Type} (r : api_error + A) : Async A :=
  match r with inl e => reject e | inr x => mret x end.

Definition outcome {A : Type} (m : Async A) (s : service) : api_error + A := (m s).1.
Definition after {A : Type} (m : Async A) (s : service) : service := (m s).2.

Section APIService.
Context `{Browser}.

(** [await fetch(u, opts)] *)
Definition fetch (u : string) (opts : object) : Async response :=
  λ s, let c := FetchCall u opts in
       let s' := Service (baseURL s) (csrfToken s) (calls s ++ [c]) in
       match server (calls s) c with
       | Some r => (inr r, s')
       | None => (inl FetchRejected, s')
       end.

(** [await response.json()] *)
Definition response_json (r : response) : Async jsv :=
  match json r with
  | Some v => mret v
  | None => reject JsonRejected
  end.

Definition getCSRFToken : Async jsv :=
  s ← get_service;
  (if to_boolean (csrfToken s) then mret tt
   else
     response ← fetch (baseURL s +:+ "/csrf-token")
                   {[ "credentials" := JString "same-origin" ]};
     data ← response_json response;
     token ← settled (member "csrf_token" data);
     set_csrfToken token);;
  s ← get_service;
  mret (csrfToken s).

Definition request (endpoint : string) (options : object) : Async jsv :=
  s ← get_service;
  let url := baseURL s +:+ endpoint in
  headers ←
    (if to_boolean (js_get options "method") && negb (is_GET (js_get options "method"))
     then token ← getCSRFToken;
          mret ({[ "Content-Type" := JString "application/json";
                   "X-CSRF-Token" := token ]} : object)
     else mret ({[ "Content-Type" := JString "application/json" ]} : object));
  let defaultOptions : object :=
    {[ "credentials" := JString "include"; "headers" := JObject headers ]} in
  let finalOptions : object := options ∪ defaultOptions in
  finalOptions ←
    (if to_boolean (js_get finalOptions "body") && typeof_object (js_get finalOptions "body")
     then match JSON_stringify (js_get finalOptions "body") with
          | Some text => mret (<["body" := JString text]> finalOptions)
          | None => reject StringifyThrew
          end
     else mret finalOptions);
  response ← fetch url finalOptions;
  if ok response then response_json response
  else
    let error :=
      default (JObject {[ "message" := JString "Request failed" ]}) (json response) in
    message ← settled (member "message" error);
    reject (ErrorWith (if to_boolean message then message
                       else JString ("HTTP " +:+ pretty.pretty (status response)))).

(** *** The endpoints *)



Definition logout : Async jsv :=
  request "/auth/logout" {[ "method" := JString "POST" ]}.



(** The object literal is evaluated before [request] is called: the token
    is awaited first. *)
Definition uploadAvatar (file : jsv) : Async jsv :=
  let formData := JFormData [("avatar", file)] in
  token ← getCSRFToken;
  request "/profile/avatar"
    {[ "method" := JString "POST";
       "headers" := JObject {[ "X-CSRF-Token" := token ]};
       "body" := formData ]}.



















End APIService.

(** ** Notions used in the statements *)

(** [options.method && options.method !== 'GET'] *)
Definition mutating (options : object) : bool :=
  to_boolean (js_get options "method") && negb (is_GET (js_get options "method")).

(** The call that fetches the token. *)
Definition token_call (s : service) : fetch_call :=
  FetchCall (baseURL s +:+ "/csrf-token") {[ "credentials" := JString "same-origin" ]}.

Definition json_headers : object := {[ "Content-Type" := JString "application/json" ]}.


Definition token_headers (token : jsv) : object :=
  {[ "Content-Type" := JString "application/json"; "X-CSRF-Token" := token ]}.

(** [{ ...defaultOptions, ...options }] for the given headers. *)
Definition final_options (options headers : object) : object :=
  options ∪ {[ "credentials" := JString "include"; "headers" := JObject headers ]}.

(** What [request] makes of the answer to its call. *)
Definition settle (r : response) : api_error + jsv :=
  if ok r then
    match json r with
    | Some v => inr v
    | None => inl JsonRejected
    end
  else
    match member "message"
            (default (JObject {[ "message" := JString "Request failed" ]}) (json r)) with
    | inl e => inl e
    | inr message =>
        inl (ErrorWith (if to_boolean message then message
                        else JString ("HTTP " +:+ pretty.pretty (status r))))
    end.

Section Deliver.
Context `{Browser}.

(** The call of [fetch] in [request] and what follows it. *)
Definition respond (u : string) (opts : object) (s : service) : (api_error + jsv) * service :=
  let c := FetchCall u opts in
  let s' := Service (baseURL s) (csrfToken s) (calls s ++ [c]) in
  match server (calls s) c with
  | Some r => (settle r, s')
  | None => (inl FetchRejected, s')
  end.

(** [request] from the merge of the options on. *)
Definition deliver (u : string) (options headers : object) (s : service)
    : (api_error + jsv) * service :=
  let fo := final_options options headers in
  if to_boolean (js_get fo "body") && typeof_object (js_get fo "body") then
    match JSON_stringify (js_get fo "body") with
    | Some text => respond u (<["body" := JString text]> fo) s
    | None => (inl StringifyThrew, s)
    end
  else respond u fo s.

(** [c] is the call that [request endpoint options] makes for its
    endpoint on the service [s] when [headers] are its default headers:
    the address, and each option of the call. *)
Definition endpoint_call (s : service) (endpoint : string) (options headers : object)
    (c : fetch_call) : Prop :=
  url c = baseURL s +:+ endpoint ∧
  options_of c !! "headers" = Some (default (JObject headers) (options !! "headers")) ∧
  options_of c !! "credentials" =
    Some (default (JString "include") (options !! "credentials")) ∧
  (∀ k, k ≠ "body" → k ≠ "headers" → k ≠ "credentials" →
        options_of c !! k = options !! k) ∧
  match options !! "body" with
  | Some b =>
      if to_boolean b && typeof_object b
      then ∃ text, JSON_stringify b = Some text ∧
                   options_of c !! "body" = Some (JString text)
      else options_of c !! "body" = Some b
  | None => options_of c !! "body" = None
  end.

End Deliver.

(** A platform to run the service on: the server hands out the token
    [tok-1] and answers every other call with [200] and [{ "done": true }];
    the string functions are stand-ins ([URLSearchParams] refuses every
    array). *)
Definition sample_browser : Browser := {|
  server := λ _ c,
    if String.eqb (url c) "/api/csrf-token"
    then Some (Response true 200 (Some (JObject {[ "csrf_token" := JString "tok-1" ]})))
    else Some (Response true 200 (Some (JObject {[ "done" := JBool true ]})));
  JSON_stringify := λ v, match v with JFormData _ => Some "{}" | _ => Some "[json]" end;
  ToString := λ v, match v with JString s => s | _ => "7" end;
  URLSearchParams := λ v, match v with JArray _ => None | _ => Some "" end;
  encodeURIComponent := λ v, match v with JString s => Some s | _ => Some "7" end
|}.

(** A server that refuses everything with [403] and no JSON body. *)
Definition refusing_browser : Browser := {|
  server := λ _ _, Some (Response false 403 None);
  JSON_stringify := λ _, Some "[json]";
  ToString := λ _, "7";
  URLSearchParams := λ v, match v with JArray _ => None | _ => Some "" end;
  encodeURIComponent := λ _, Some "7"
|}.

(** * utils.js: the object [Utils]

    A JavaScript string is the sequence of its UTF-16 code units:
    [length], [substring] and a regular expression without the [u] flag
    all count and match code units. *)

Abbreviation jsstring := (list N) (only parsing).

(** The code units of a string literal of the source that is in ASCII. *)
Definition units (s : string) : list N := N_of_ascii <$> list_ascii_of_string s.

(** ** [truncateText]

    [maxLength] is a whole number; [None] is a missing argument, which
    the default [100] stands in for.  [substring(0, n)] takes the first
    [n] code units, none when [n] is negative. *)
Definition truncateText (text : jsstring) (maxLength : option Z) : jsstring :=
  let maxLength := default 100%Z maxLength in
  if (Z.of_nat (length text) <=? maxLength)%Z then text
  else take (Z.to_nat (maxLength - 3)) text ++ units "...".

(** ** [getRelativeTime]

    [Math.round(x / d)] for whole numbers [x] and [d > 0]: the nearest
    whole number, a half going up.  The division of doubles rounds its
    result, but not onto a half as long as the quotient stays below
    [2^37], more than 260000 years counted in minutes; farther away the
    function is in its first or in its last case whichever way the
    quotient is rounded. *)
Definition Math_round_quotient (x d : Z) : Z := ((2 * x + d) / (2 * d))%Z.

(** [diffMs] is [date - now] in milliseconds, for a valid [date];
    [formatted] is what [this.formatDate(date, 'short')] returns for the
    date. *)
Definition getRelativeTime (formatted : string) (diffMs : Z) : string :=
  let diffMins := Math_round_quotient diffMs 60000 in
  let diffHours := Math_round_quotient diffMins 60 in
  let diffDays := Math_round_quotient diffHours 24 in
  if (diffMins <? 0)%Z then "Past"
  else if (diffMins <? 60)%Z then "In " +:+ pretty.pretty diffMins +:+ " minutes"
  else if (diffHours <? 24)%Z then "In " +:+ pretty.pretty diffHours +:+ " hours"
  else if (diffDays =? 1)%Z then "Tomorrow"
  else if (diffDays <? 7)%Z then "In " +:+ pretty.pretty diffDays +:+ " days"
  else formatted.

(** ** [generateAvatarColor]

    [hash << 5] works on 32 bits: its operand is brought into the range
    of a signed 32-bit integer, and so is its result.  The subtraction and
    the addition around it are those of numbers, and are exact as long as
    the hash stays below [2^53], which it does for names of less than
    [2^21] code units. *)
Definition ToInt32 (z : Z) : Z := ((z + 2147483648) mod 4294967296 - 2147483648)%Z.

Definition shift_left_5 (hash : Z) : Z := ToInt32 (ToInt32 hash * 32).

(** [hash = name.charCodeAt(i) + ((hash << 5) - hash)] *)
Definition hash_step (hash : Z) (c : N) : Z :=
  (Z.of_N c + (shift_left_5 hash - hash))%Z.

Definition name_hash (name : jsstring) : Z := foldl hash_step 0%Z name.

(** [hash % 360] has the sign of [hash]. *)
Definition hue (name : jsstring) : Z := Z.rem (name_hash name) 360.

Definition generateAvatarColor (name : jsstring) : string :=
  "hsl(" +:+ pretty.pretty (hue name) +:+ ", 60%, 50%)".

(** ** Regular expressions

    The expressions of the three validators are made of anchors,
    character classes, a class repeated at least [min] times, an optional
    part, a lookahead and sequences.  [step r i s] lists the ways [r] can
    match at position [i], where [s] is what is left of the input: each
    way is the position and the rest of the input after the match. *)
Inductive regex : Type :=
| Eps
| Bol                                  (* [^] *)
| Eol                                  (* [$] *)
| Class (p : N → bool)                 (* one code unit of a class *)
| Opt (r : regex)                      (* [r?] *)
| Rep (min : nat) (p : N → bool)       (* a class, [min] times or more *)
| Ahead (r : regex)                    (* [(?=r)] *)
| Cat (r1 r2 : regex).

Fixpoint rep (min : nat) (p : N → bool) (i : nat) (s : jsstring) : list (nat * jsstring) :=
  match s with
  | c :: s' => if p c then rep (pred min) p (S i) s' else []
  | [] => []
  end ++
  match min with
  | 0 => [(i, s)]
  | S _ => []
  end.

Fixpoint step (r : regex) (i : nat) (s : jsstring) : list (nat * jsstring) :=
  match r with
  | Eps => [(i, s)]
  | Bol => match i with 0 => [(i, s)] | S _ => [] end
  | Eol => match s with [] => [(i, s)] | _ :: _ => [] end
  | Class p =>
      match s with
      | c :: s' => if p c then [(S i, s')] else []
      | [] => []
      end
  | Opt r => step r i s ++ [(i, s)]
  | Rep min p => rep min p i s
  | Ahead r => match step r i s with [] => [] | _ :: _ => [(i, s)] end
  | Cat r1 r2 => x ← step r1 i s; step r2 x.1 x.2
  end.

(** [r.test(s)]: there is a position at which [r] matches. *)
Definition test (r : regex) (s : jsstring) : bool :=
  existsb (λ i, match step r i (drop i s) with [] => false | _ :: _ => true end)
          (seq 0 (S (length s))).

Definition sequence (l : list regex) : regex := foldr Cat Eps l.

(** *** Character classes *)

Definition chr (a : ascii) (c : N) : bool := N.eqb c (N_of_ascii a).

Definition between (lo hi c : N) : bool := (lo <=? c)%N && (c <=? hi)%N.

(** [\s]: white space and line terminators. *)
Definition is_space (c : N) : bool :=
  between 9 13 c || N.eqb c 32 || N.eqb c 160 || N.eqb c 5760 || between 8192 8202 c ||
  N.eqb c 8232 || N.eqb c 8233 || N.eqb c 8239 || N.eqb c 8287 || N.eqb c 12288 ||
  N.eqb c 65279.

(** [\d] *)
Definition is_digit (c : N) : bool := between 48 57 c.

Definition is_lower (c : N) : bool := between 97 122 c.

Definition is_upper (c : N) : bool := between 65 90 c.

(** What [.] does not match. *)
Definition is_line_terminator (c : N) : bool :=
  N.eqb c 10 || N.eqb c 13 || N.eqb c 8232 || N.eqb c 8233.

Definition any_char (c : N) : bool := negb (is_line_terminator c).

(** ** The validators *)

(** [[^\s@]] *)
Definition email_char (c : N) : bool := negb (is_space c || chr "@" c).

(** [/^[^\s@]+@[^\s@]+\.[^\s@]+$/] *)
Definition email_re : regex :=
  sequence [Bol; Rep 1 email_char; Class (chr "@"); Rep 1 email_char; Class (chr ".");
            Rep 1 email_char; Eol].

Definition validateEmail (email : jsstring) : bool := test email_re email.

(** [[\d\s-()]]: next to the class [\s] the hyphen stands for itself. *)
Definition phone_char (c : N) : bool :=
  is_digit c || is_space c || chr "-" c || chr "(" c || chr ")" c.

(** [/^\+?[\d\s-()]+$/] *)
Definition phone_re : regex :=
  sequence [Bol; Opt (Class (chr "+")); Rep 1 phone_char; Eol].

(** [phone.replace(/\D/g, '')] keeps the digits. *)
Definition validatePhone (phone : jsstring) : bool :=
  test phone_re phone && (10 <=? length (List.filter is_digit phone))%nat.

(** [[a-zA-Z\d@$!%*?&]] *)
Definition password_char (c : N) : bool :=
  is_lower c || is_upper c || is_digit c || chr "@" c || chr "$" c || chr "!" c ||
  chr "%" c || chr "*" c || chr "?" c || chr "&" c.

(** [/^(?=.*[a-z])(?=.*[A-Z])(?=.*\d)[a-zA-Z\d@$!%*?&]{8,}$/] *)
Definition password_re : regex :=
  sequence [Bol;
            Ahead (Cat (Rep 0 any_char) (Class is_lower));
            Ahead (Cat (Rep 0 any_char) (Class is_upper));
            Ahead (Cat (Rep 0 any_char) (Class is_digit));
            Rep 8 password_char; Eol].

Definition validatePassword (password : jsstring) : bool := test password_re password.
(** * Properties *)

(** ** Running computations *)

Lemma run_bind {A B : Type} (m : M A) (f : A → M B) (st : state) :
  (m ≫= f) st =
  match m st with
  | (inl e, st') => (inl e, st')
  | (inr x, st') => f x st'
  end.
Proof. reflexivity. Qed.

Create HintDb dom_only.

Lemma dom_only_ret {A : Type} (x : A) : dom_only (mret x : M A).
Proof. by intros st. Qed.

Lemma dom_only_throw {A : Type} (e : exn) : dom_only (throw e : M A).
Proof. by intros st. Qed.

Lemma dom_only_get_state : dom_only get_state.
Proof. by intros st. Qed.

Lemma dom_only_bind {A B : Type} (m : M A) (f : A → M B) :
  dom_only m → (∀ x, dom_only (f x)) → dom_only (m ≫= f).
Proof.
  intros Hm Hf st. rewrite run_bind.
  destruct (Hm st) as (H1 & H2 & H3).
  destruct (m st) as [[e|x] st']; simpl in *; [done|].
  destruct (Hf x st') as (H1' & H2' & H3'). by rewrite H1', H2', H3'.
Qed.

Lemma dom_only_forEach {A : Type} (l : list A) (f : A → M unit) :
  (∀ x, dom_only (f x)) → dom_only (forEach l f).
Proof.
  intros Hf. induction l as [|x l IH]; simpl.
  - apply dom_only_ret.
  - apply dom_only_bind; auto.
Qed.

Lemma dom_only_lift {A : Type} (r : exn + A) : dom_only (lift r).
Proof. destruct r; by intros st. Qed.

Lemma dom_only_mutate (p : path) (f : node → node) (e : effect) : dom_only (mutate p f e).
Proof. intros st. unfold mutate. rewrite run_bind. simpl. by destruct (elem_at _ _). Qed.

Lemma dom_only_body : dom_only body.
Proof. intros st. unfold body. rewrite run_bind. simpl. by destruct (body_path _). Qed.

Lemma dom_only_querySelectorAll (sel : element → bool) : dom_only (querySelectorAll sel).
Proof. by intros st. Qed.

Lemma dom_only_querySelector (sel : element → bool) : dom_only (querySelector sel).
Proof. by intros st. Qed.

Lemma dom_only_dispatchEvent (ty : string) (d : list (string * string)) :
  dom_only (dispatchEvent ty d).
Proof. by intros st. Qed.

#[export] Hint Resolve dom_only_ret dom_only_throw dom_only_get_state dom_only_lift
  dom_only_mutate dom_only_body dom_only_querySelectorAll dom_only_querySelector
  dom_only_dispatchEvent : dom_only.

Ltac dom_only_tac :=
  repeat first
    [ progress eauto with dom_only
    | apply dom_only_bind; intros
    | apply dom_only_forEach; intros
    | match goal with |- dom_only (match ?x with _ => _ end) => destruct x end
    | match goal with |- dom_only (if ?x then _ else _) => destruct x end ].

Lemma dom_only_createLanguageSwitcher : dom_only createLanguageSwitcher.
Proof. unfold createLanguageSwitcher, appendChild. dom_only_tac. Qed.

Lemma dom_only_applyLanguage : dom_only applyLanguage.
Proof. unfold applyLanguage, classList_add, classList_remove, style_set. dom_only_tac. Qed.

Lemma dom_only_restyle (lang : string) (l : list path) :
  dom_only (forEach l (restyle_button lang)).
Proof.
  unfold restyle_button, classList_add, classList_remove, style_set. dom_only_tac.
Qed.

Section Frames.
Context `{Host}.

Lemma dom_only_translatePage : dom_only translatePage.
Proof. unfold translatePage, translate_element, textContent_set. dom_only_tac. Qed.

Lemma dom_only_init : dom_only init.
Proof.
  unfold init. apply dom_only_bind; intros; [apply dom_only_createLanguageSwitcher|].
  apply dom_only_bind; intros; [apply dom_only_applyLanguage|apply dom_only_translatePage].
Qed.

Lemma dom_only_rerender (lang : string) : dom_only (rerender lang).
Proof.
  unfold rerender.
  apply dom_only_bind; intros; [auto with dom_only|].
  apply dom_only_bind; intros; [apply dom_only_restyle|].
  apply dom_only_bind; intros; [apply dom_only_applyLanguage|].
  apply dom_only_bind; intros; [apply dom_only_translatePage|auto with dom_only].
Qed.

Lemma changeLanguage_run (lang : string) (st : state) :
  changeLanguage lang st =
  let st1 := emit (SetCurrentLang lang) (with_currentLang lang st) in
  if storage_full st then (inl QuotaExceededError, st1)
  else rerender lang
         (emit (StorageSetItem "userLanguage" lang)
            (with_localStorage (<["userLanguage":=lang]> (localStorage st)) st1)).
Proof.
  unfold changeLanguage. rewrite run_bind. simpl.
  rewrite run_bind. unfold setItem at 1. rewrite run_bind. simpl.
  by destruct (storage_full st).
Qed.

End Frames.

(** ** The document tree *)

Lemma node_ind' (P : node → Prop) :
  (∀ s, P (Text s)) →
  (∀ e cs, Forall P cs → P (Elem e cs)) →
  ∀ n, P n.
Proof.
  intros HT HE. fix IH 1. intros [s|e cs]; [apply HT|].
  apply HE. induction cs as [|c cs IHcs]; constructor; [apply IH|apply IHcs].
Qed.

Lemma textContent_Elem (e : element) (cs : list node) :
  textContent (Elem e cs) = textContent_list cs.
Proof. reflexivity. Qed.

Lemma select_Elem (sel : element → bool) (e : element) (cs : list node) :
  select sel (Elem e cs) = (if sel e then [[]] else []) ++ select_list sel 0 cs.
Proof.
  simpl. f_equal. generalize 0.
  induction cs as [|c cs IH]; intros i; simpl; [done|]. by rewrite IH.
Qed.

Lemma select_list_app (sel : element → bool) (i : nat) (cs1 cs2 : list node) :
  select_list sel i (cs1 ++ cs2) =
  select_list sel i cs1 ++ select_list sel (i + length cs1) cs2.
Proof.
  revert i. induction cs1 as [|c cs1 IH]; intros i; simpl.
  - by rewrite Nat.add_0_r.
  - rewrite IH, <- app_assoc. do 3 f_equal. lia.
Qed.

Lemma select_list_cons_inv (sel : element → bool) (i : nat) (cs : list node) (p : path) :
  p ∈ select_list sel i cs →
  ∃ j q c, p = (i + j) :: q ∧ cs !! j = Some c ∧ q ∈ select sel c.
Proof.
  revert i. induction cs as [|c cs IH]; intros i; simpl.
  - by intros ?%elem_of_nil.
  - intros [Hp|Hp]%elem_of_app.
    + apply list_elem_of_fmap in Hp as (q & -> & Hq).
      exists 0, q, c. by rewrite Nat.add_0_r.
    + apply IH in Hp as (j & q & c' & -> & Hj & Hq).
      exists (S j), q, c'. split; [f_equal; lia|done].
Qed.

(** Every selected path leads to an element that matches the selector. *)
Lemma select_elem_at (sel : element → bool) (n : node) (p : path) :
  p ∈ select sel n → ∃ e cs, elem_at p n = Some (e, cs) ∧ sel e = true.
Proof.
  revert p. induction n as [s|e cs IH] using node_ind'; intros p.
  - by intros ?%elem_of_nil.
  - rewrite select_Elem. intros [Hp|Hp]%elem_of_app.
    + destruct (sel e) eqn:He; [|by apply elem_of_nil in Hp].
      apply list_elem_of_singleton in Hp as ->. by exists e, cs.
    + apply select_list_cons_inv in Hp as (j & q & c & -> & Hj & Hq).
      rewrite Forall_forall in IH.
      destruct (IH c (list_elem_of_lookup_2 _ _ _ Hj) q Hq) as (e' & cs' & Hat & He').
      exists e', cs'. split; [|done].
      unfold elem_at in *. simpl. by rewrite Hj.
Qed.

Lemma elem_at_nil (n : node) :
  elem_at [] n = match n with Elem e cs => Some (e, cs) | Text _ => None end.
Proof. by destruct n. Qed.

Lemma elem_at_cons (i : nat) (q : path) (e : element) (cs : list node) :
  elem_at (i :: q) (Elem e cs) =
  match cs !! i with Some c => elem_at q c | None => None end.
Proof. unfold elem_at. simpl. by destruct (cs !! i). Qed.

Lemma alter_at_cons (f : node → node) (i : nat) (q : path) (e : element) (cs : list node) :
  alter_at f (i :: q) (Elem e cs) = Elem e (alter (alter_at f q) i cs).
Proof. reflexivity. Qed.

Lemma select_list_lookup (sel : element → bool) (k i : nat) (cs : list node) (c : node)
    (q : path) :
  cs !! i = Some c → q ∈ select sel c → (k + i) :: q ∈ select_list sel k cs.
Proof.
  revert k i. induction cs as [|c0 cs IH]; intros k [|i]; try done; simpl.
  - intros [= ->] Hq. apply elem_of_app. left. rewrite Nat.add_0_r.
    by apply list_elem_of_fmap_2.
  - intros Hi Hq. apply elem_of_app. right.
    replace (k + S i) with (S k + i) by lia. by apply IH.
Qed.

(** Every element that matches the selector is selected. *)
Lemma elem_at_select (sel : element → bool) (n : node) (p : path) (e : element)
    (cs : list node) :
  elem_at p n = Some (e, cs) → sel e = true → p ∈ select sel n.
Proof.
  revert n. induction p as [|i p IH]; intros n.
  - destruct n as [s|e' cs']; [done|]. rewrite elem_at_nil. intros [= -> ->] He.
    rewrite select_Elem, He. apply elem_of_app. left. by apply list_elem_of_singleton.
  - destruct n as [s|e' cs']; [done|]. rewrite elem_at_cons.
    destruct (cs' !! i) as [c|] eqn:Hi; [|done]. intros Hat He.
    rewrite select_Elem. apply elem_of_app. right.
    apply (select_list_lookup sel 0 i cs' c p Hi). by apply IH.
Qed.

(** ** The key resolver *)

Lemma split_on_nonempty (sep : ascii) (s : string) : split_on sep s ≠ [].
Proof.
  destruct s as [|c s]; simpl; [done|].
  destruct (Ascii.eqb c sep); [done|]. by destruct (split_on sep s).
Qed.

Section ResolverFacts.
Context `{Host}.

Lemma get_prop_truthy (v : value) (k : string) :
  truthy v = true → get_prop v k = prop v k.
Proof. by destruct v. Qed.


Lemma t_walk_ends (v : value) (keys : list string) (u : value) :
  walk_ends v keys u → t_walk v keys = inr (Some u).
Proof.
  induction 1 as [v|v k ks w u Hv Hk Hw _ IH]; simpl; [done|].
  by rewrite Hv, Hk, Hw.
Qed.




Lemma t_unfold (lang key : string) :
  t lang key =
  match get_prop translations lang with
  | inl e => inl e
  | inr table =>
      match t_walk table (split_dot key) with
      | inl e => inl e
      | inr (Some v) => inr v
      | inr None => inr (VStr key)
      end
  end.
Proof. reflexivity. Qed.

(** When the walk ends, [t] returns the node it ended on, whatever it is. *)
Lemma t_returns_end (lang key : string) (table u : value) :
  get_prop translations lang = inr table →
  walk_ends table (split_dot key) u → t lang key = inr u.
Proof. intros Ht Hw. by rewrite t_unfold, Ht, (t_walk_ends _ _ _ Hw). Qed.


End ResolverFacts.



(** ** [translatePage]: the loop over the node list and the tree it leaves *)

Lemma elem_at_Text (s : string) (p : path) : elem_at p (Text s) = None.
Proof. by destruct p. Qed.

Lemma select_list_text_children (sel : element → bool) (k : nat) (s : string) :
  select_list sel k (text_children s) = [].
Proof. unfold text_children. by destruct (String.eqb s ""). Qed.

Lemma elem_at_text_children (e : element) (s : string) (i : nat) (q : path) :
  elem_at (i :: q) (Elem e (text_children s)) = None.
Proof.
  rewrite elem_at_cons. unfold text_children.
  destruct (String.eqb s ""); [done|].
  destruct i as [|i]; simpl; [apply elem_at_Text|done].
Qed.

Section RewriteFacts.
Variable new_text : element → list node → option string.

Lemma rewrite_tree_Elem (e : element) (cs : list node) :
  rewrite_tree new_text (Elem e cs) =
  match new_text e cs with
  | Some s => Elem e (text_children s)
  | None => Elem e (rewrite_tree new_text <$> cs)
  end.
Proof. reflexivity. Qed.

Lemma rewrite_step_nil (e : element) (cs : list node) :
  rewrite_step new_text (Elem e cs) [] =
  match new_text e cs with
  | Some s => Elem e (text_children s)
  | None => Elem e cs
  end.
Proof. unfold rewrite_step. rewrite elem_at_nil. by destruct (new_text e cs). Qed.

Lemma rewrite_step_cons (e : element) (cs : list node) (i : nat) (q : path) :
  rewrite_step new_text (Elem e cs) (i :: q) =
  Elem e (alter (λ c, rewrite_step new_text c q) i cs).
Proof.
  assert (∀ c, cs !! i = Some c → rewrite_step new_text c q = c →
               Elem e cs = Elem e (alter (λ c, rewrite_step new_text c q) i cs)) as Hsame.
  { intros c Hc Hid. f_equal. symmetry. apply list_eq. intros j.
    rewrite list_lookup_alter. case_decide; [subst j|done].
    rewrite Hc. simpl. by rewrite Hid. }
  unfold rewrite_step at 1. rewrite elem_at_cons.
  destruct (cs !! i) as [c|] eqn:Hc.
  - destruct (elem_at q c) as [[e' cs']|] eqn:Hq.
    + destruct (new_text e' cs') as [s|] eqn:Hs.
      * rewrite alter_at_cons. f_equal. apply list_alter_ext; [|done].
        intros c' Hc'. assert (c' = c) as -> by congruence.
        unfold rewrite_step. by rewrite Hq, Hs.
      * apply (Hsame c eq_refl). unfold rewrite_step. by rewrite Hq, Hs.
    + apply (Hsame c eq_refl). unfold rewrite_step. by rewrite Hq.
  - f_equal. symmetry. apply list_eq. intros j.
    rewrite list_lookup_alter. case_decide; [subst j|done]. by rewrite Hc.
Qed.

(** Paths below an element whose children were replaced by a text reach
    nothing any more. *)
Lemma rewrite_steps_detached (e : element) (s : string) (ps : list path) :
  Forall (λ p, p ≠ []) ps →
  foldl (rewrite_step new_text) (Elem e (text_children s)) ps = Elem e (text_children s).
Proof.
  induction 1 as [|p ps Hp _ IH]; simpl; [done|].
  destruct p as [|i q]; [done|].
  unfold rewrite_step at 2. by rewrite elem_at_text_children.
Qed.

Lemma rewrite_steps_child (e : element) (cs : list node) (i : nat) (qs : list path) :
  foldl (rewrite_step new_text) (Elem e cs) (cons i <$> qs) =
  Elem e (alter (λ c, foldl (rewrite_step new_text) c qs) i cs).
Proof.
  revert cs. induction qs as [|q qs IH]; intros cs; simpl.
  - by rewrite list_alter_id.
  - rewrite rewrite_step_cons, IH, list_alter_alter_eq. done.
Qed.

Lemma select_list_nonempty (sel : element → bool) (i : nat) (cs : list node) :
  Forall (λ p, p ≠ []) (select_list sel i cs).
Proof.
  apply Forall_forall. intros p Hp.
  by apply select_list_cons_inv in Hp as (j & q & c & -> & _).
Qed.

Lemma rewrite_steps_children (sel : element → bool) (e : element) (pre cs : list node) :
  Forall (λ c, foldl (rewrite_step new_text) c (select sel c) = rewrite_tree new_text c) cs →
  foldl (rewrite_step new_text) (Elem e (pre ++ cs)) (select_list sel (length pre) cs) =
  Elem e (pre ++ (rewrite_tree new_text <$> cs)).
Proof.
  intros Hcs. revert pre. induction Hcs as [|c cs Hc _ IH]; intros pre; simpl.
  - done.
  - rewrite foldl_app, rewrite_steps_child.
    replace (length pre) with (length pre + 0) at 1 by lia.
    rewrite alter_app_r. simpl. rewrite Hc.
    specialize (IH (pre ++ [rewrite_tree new_text c])).
    rewrite length_app, <- app_assoc in IH. simpl in IH.
    rewrite Nat.add_1_r in IH. rewrite IH. by rewrite <- app_assoc.
Qed.

(** The loop over the static node list leaves the document that the
    recursion on the tree describes, when the list holds every element
    that can receive a text. *)
Lemma rewrite_steps_tree (sel : element → bool) (d : node) :
  (∀ e cs s, new_text e cs = Some s → sel e = true) →
  foldl (rewrite_step new_text) d (select sel d) = rewrite_tree new_text d.
Proof.
  intros Hsel. induction d as [s|e cs IH] using node_ind'; [done|].
  rewrite select_Elem, foldl_app, rewrite_tree_Elem.
  destruct (new_text e cs) as [s|] eqn:Hs.
  - rewrite (Hsel e cs s Hs). simpl. rewrite rewrite_step_nil, Hs.
    apply rewrite_steps_detached, select_list_nonempty.
  - destruct (sel e); simpl; rewrite ?rewrite_step_nil, ?Hs;
      by apply (rewrite_steps_children _ e []).
Qed.

(** An element found in the document the loop leaves was there before
    with the same record, and is what the rewriting makes of it. *)
Lemma elem_at_rewrite_tree (q : path) (d : node) (e' : element) (cs' : list node) :
  elem_at q (rewrite_tree new_text d) = Some (e', cs') →
  ∃ cs, elem_at q d = Some (e', cs) ∧ rewrite_tree new_text (Elem e' cs) = Elem e' cs'.
Proof.
  revert d. induction q as [|i q IH]; intros d.
  - destruct d as [s|e cs]; [done|]. rewrite elem_at_nil.
    destruct (rewrite_tree new_text (Elem e cs)) as [?|e1 cs1] eqn:Hr; [done|].
    intros [= <- <-]. exists cs. rewrite rewrite_tree_Elem in Hr.
    assert (e1 = e) as -> by (destruct (new_text e cs); congruence).
    split; [done|]. by rewrite <- Hr.
  - destruct d as [s|e cs]; [done|]. rewrite rewrite_tree_Elem.
    destruct (new_text e cs) as [s|] eqn:Hs.
    + by rewrite elem_at_text_children.
    + rewrite !elem_at_cons, list_lookup_fmap.
      destruct (cs !! i) as [c|]; simpl; [apply IH|done].
Qed.

Lemma rewrite_tree_unchanged (d : node) :
  (∀ r e cs, elem_at r d = Some (e, cs) → new_text e cs = None) →
  rewrite_tree new_text d = d.
Proof.
  induction d as [s|e cs IH] using node_ind'; [done|]. intros Hno.
  rewrite rewrite_tree_Elem, (Hno [] e cs) by done. f_equal.
  rewrite <- (list_fmap_id cs) at 2. apply list_fmap_ext. intros i c Hc. simpl.
  rewrite Forall_forall in IH. apply IH; [by eapply list_elem_of_lookup_2|].
  intros r e' cs' Hat. apply (Hno (i :: r) e' cs'). by rewrite elem_at_cons, Hc.
Qed.

(** When the new text does not depend on the children, a second run of the
    loop changes nothing. *)
Lemma rewrite_tree_idempotent (d : node) :
  (∀ e cs cs', new_text e cs = new_text e cs') →
  rewrite_tree new_text (rewrite_tree new_text d) = rewrite_tree new_text d.
Proof.
  intros Hind. induction d as [s|e cs IH] using node_ind'; [done|].
  rewrite rewrite_tree_Elem.
  destruct (new_text e cs) as [s|] eqn:Hs; rewrite rewrite_tree_Elem.
  - by rewrite (Hind e _ cs), Hs.
  - rewrite (Hind e _ cs), Hs. f_equal. rewrite <- list_fmap_compose.
    apply list_fmap_ext. intros i c Hc. simpl.
    rewrite Forall_forall in IH. by apply IH, list_elem_of_lookup_2 with i.
Qed.

End RewriteFacts.

Section TranslateFacts.
Context `{Host}.

Lemma translate_steps_tree (lang : string) (d : node) :
  foldl (translate_step lang) d (select has_data_translate d) = translate_tree lang d.
Proof.
  apply rewrite_steps_tree. intros e _ s Hs.
  unfold translation_of in Hs. unfold has_data_translate.
  by destruct (data_translate e).
Qed.

Lemma translate_tree_idempotent (lang : string) (d : node) :
  translate_tree lang (translate_tree lang d) = translate_tree lang d.
Proof. by apply rewrite_tree_idempotent. Qed.

(** An element found after [translatePage] was there before with the same
    record, and holds its translation if it has one. *)
Lemma elem_at_translate_tree (lang : string) (q : path) (d : node)
    (e' : element) (cs' : list node) :
  elem_at q (translate_tree lang d) = Some (e', cs') →
  (∃ cs, elem_at q d = Some (e', cs)) ∧
  (∀ s, translation_of lang e' = Some s → cs' = text_children s).
Proof.
  intros (cs & Hat & Hr)%elem_at_rewrite_tree. split; [by eauto|].
  intros s Hs. rewrite rewrite_tree_Elem, Hs in Hr. congruence.
Qed.

End TranslateFacts.

(** Replacing the children of an element by text creates no element: an
    element found afterwards was there before, with the same record. *)
Lemma elem_at_text_set_inv (s : string) (p q : path) (d : node) (e' : element) (cs' : list node) :
  elem_at q (alter_at (on_children (λ _, text_children s)) p d) = Some (e', cs') →
  ∃ cs, elem_at q d = Some (e', cs).
Proof.
  revert q d. induction p as [|j p IH]; intros q d.
  - destruct d as [t|e cs]; simpl; [by rewrite elem_at_Text|].
    destruct q as [|i q]; [|by rewrite elem_at_text_children].
    rewrite !elem_at_nil. intros [= <- _]. eauto.
  - destruct d as [t|e cs]; [simpl; by rewrite elem_at_Text|].
    rewrite alter_at_cons. destruct q as [|i q].
    + rewrite !elem_at_nil. intros [= <- _]. eauto.
    + rewrite !elem_at_cons, list_lookup_alter.
      case_decide as Hij; [|by eauto]. subst i.
      destruct (cs !! j) as [c|]; simpl; [apply IH|done].
Qed.

(** *** The loop when it is cut short

    The facts below hold for the steps over any list of paths, hence for
    the part of the node list that the loop gets through before a walk
    throws. *)

Lemma select_list_alter_length (sel : element → bool) (g : node → node) (k i : nat)
    (cs : list node) :
  (∀ c, length (select sel (g c)) ≤ length (select sel c))%nat →
  (length (select_list sel k (alter g i cs)) ≤ length (select_list sel k cs))%nat.
Proof.
  intros Hg. revert k i. induction cs as [|c cs IH]; intros k [|i]; simpl; try done.
  - rewrite !length_app, !length_fmap. apply Nat.add_le_mono_r, Hg.
  - rewrite !length_app. apply Nat.add_le_mono_l, IH.
Qed.

Lemma select_text_set_length (sel : element → bool) (s : string) (p : path) (d : node) :
  (length (select sel (alter_at (on_children (λ _, text_children s)) p d)) ≤
   length (select sel d))%nat.
Proof.
  revert d. induction p as [|i p IH]; intros d.
  - destruct d as [t|e cs]; [done|]. simpl alter_at. simpl on_children.
    rewrite !select_Elem, select_list_text_children, !length_app. simpl.
    rewrite Nat.add_0_r. apply Nat.le_add_r.
  - destruct d as [t|e cs]; [done|]. rewrite alter_at_cons, !select_Elem, !length_app.
    apply Nat.add_le_mono_l. by apply select_list_alter_length.
Qed.

Lemma node_at_alter_at_off_branch (f : node → node) (p q : path) (d : node) :
  ¬ on_branch p q → node_at q (alter_at f p d) = node_at q d.
Proof.
  revert q d. induction p as [|i p IH]; intros q d Hoff.
  - exfalso. apply Hoff. left. apply prefix_nil.
  - destruct q as [|j q]; [exfalso; apply Hoff; right; apply prefix_nil|].
    destruct d as [t|e cs]; [done|]. rewrite alter_at_cons. simpl.
    rewrite list_lookup_alter. case_decide as Hij; [subst j|done].
    destruct (cs !! i) as [c|]; [|done]. simpl. apply IH.
    intros [Hp|Hp]; apply Hoff; [left|right]; by apply prefix_cons.
Qed.

Section RewriteSteps.
Variable new_text : element → list node → option string.

Lemma elem_at_rewrite_step (p q : path) (d : node) (e' : element) (cs' : list node) :
  elem_at q (rewrite_step new_text d p) = Some (e', cs') →
  ∃ cs, elem_at q d = Some (e', cs).
Proof.
  unfold rewrite_step. destruct (elem_at p d) as [[e cs]|]; [|by eauto].
  destruct (new_text e cs); [apply elem_at_text_set_inv|by eauto].
Qed.

(** The steps create no element and change no record. *)
Lemma elem_at_rewrite_steps (ps : list path) (q : path) (d : node)
    (e' : element) (cs' : list node) :
  elem_at q (foldl (rewrite_step new_text) d ps) = Some (e', cs') →
  ∃ cs, elem_at q d = Some (e', cs).
Proof.
  revert d. induction ps as [|p ps IH]; intros d; simpl; [by eauto|].
  intros [cs Hat]%IH. by apply elem_at_rewrite_step in Hat.
Qed.

Lemma select_rewrite_steps_length (sel : element → bool) (ps : list path) (d : node) :
  (length (select sel (foldl (rewrite_step new_text) d ps)) ≤ length (select sel d))%nat.
Proof.
  revert d. induction ps as [|p ps IH]; intros d; simpl; [done|].
  etrans; [apply IH|]. unfold rewrite_step.
  destruct (elem_at p d) as [[e cs]|]; [|done].
  destruct (new_text e cs); [apply select_text_set_length|done].
Qed.

(** A node with no rewritten element above it, at it or below it is found
    again as it was, however far the loop gets. *)
Lemma node_at_rewrite_steps_unchanged (ps : list path) (q : path) (d n : node) :
  node_at q d = Some n →
  (∀ r e cs, elem_at r d = Some (e, cs) → on_branch r q → ∀ cs', new_text e cs' = None) →
  node_at q (foldl (rewrite_step new_text) d ps) = Some n.
Proof.
  revert d. induction ps as [|p ps IH]; intros d Hn Hno; simpl; [done|].
  apply IH.
  - unfold rewrite_step. destruct (elem_at p d) as [[e cs]|] eqn:Hat; [|done].
    destruct (new_text e cs) as [s|] eqn:Hs; [|done].
    rewrite node_at_alter_at_off_branch; [done|].
    intros Hbr. by rewrite (Hno p e cs Hat Hbr cs) in Hs.
  - intros r e cs [cs0 Hat]%elem_at_rewrite_step. by apply (Hno r e cs0).
Qed.

End RewriteSteps.

Lemma elements_at_spec (d : node) (ps : list path) (x : path * element) :
  x ∈ elements_at d ps ↔ x.1 ∈ ps ∧ record_at x.1 d = Some x.2.
Proof.
  unfold elements_at. rewrite list_elem_of_omap. split.
  - intros (p & Hp & Hx). destruct (record_at p d) as [e|] eqn:He; [|done].
    injection Hx as <-. done.
  - intros [Hp Hx]. exists x.1. split; [done|]. rewrite Hx. by destruct x.
Qed.

Lemma elements_at_fst (d : node) (ps : list path) :
  Forall (λ p, is_Some (record_at p d)) ps → (elements_at d ps).*1 = ps.
Proof.
  induction 1 as [|p ps [e He] _ IH]; [done|].
  unfold elements_at in *. simpl. rewrite He. simpl. f_equal. exact IH.
Qed.

Lemma elements_at_select_fst (sel : element → bool) (d : node) :
  (elements_at d (select sel d)).*1 = select sel d.
Proof.
  apply elements_at_fst, Forall_forall. intros p (e & cs & Hat & _)%select_elem_at.
  unfold record_at. rewrite Hat. eauto.
Qed.

(** ** Mutations of one element record *)

Lemma record_at_cons (i : nat) (q : path) (e : element) (cs : list node) :
  record_at (i :: q) (Elem e cs) =
  match cs !! i with Some c => record_at q c | None => None end.
Proof. unfold record_at. rewrite elem_at_cons. by destruct (cs !! i). Qed.

Lemma record_at_Text (s : string) (p : path) : record_at p (Text s) = None.
Proof. unfold record_at. by rewrite elem_at_Text. Qed.

Lemma record_at_Some (p : path) (d : node) (e : element) :
  record_at p d = Some e ↔ ∃ cs, elem_at p d = Some (e, cs).
Proof.
  unfold record_at. destruct (elem_at p d) as [[e' cs]|]; simpl; split.
  - intros [= ->]. eauto.
  - by intros [cs' [= -> _]].
  - done.
  - by intros [cs' ?].
Qed.

(** Changing the record of the element at [p] changes that record and
    no other. *)
Lemma record_at_on_elem (f : element → element) (p q : path) (d : node) :
  record_at q (alter_at (on_elem f) p d) =
  if decide (q = p) then f <$> record_at q d else record_at q d.
Proof.
  revert p d. induction q as [|i q IH]; intros p d.
  - destruct p as [|j p]; destruct d as [s|e cs]; by simpl.
  - destruct d as [s|e cs].
    { destruct p; simpl; rewrite !record_at_Text; by repeat case_decide. }
    destruct p as [|j p].
    + simpl. rewrite !record_at_cons. by repeat case_decide.
    + rewrite alter_at_cons, !record_at_cons, list_lookup_alter.
      destruct (decide (j = i)) as [->|Hji].
      * destruct (cs !! i) as [c|]; simpl.
        -- rewrite IH. repeat case_decide; congruence.
        -- by repeat case_decide.
      * case_decide; [congruence|done].
Qed.

Lemma alter_at_on_elem_id (f : element → element) (p : path) (d : node) :
  (∀ e, record_at p d = Some e → f e = e) →
  alter_at (on_elem f) p d = d.
Proof.
  revert d. induction p as [|i p IH]; intros d Hf.
  - destruct d as [s|e cs]; simpl; [done|]. f_equal. by apply Hf.
  - destruct d as [s|e cs]; [done|]. rewrite alter_at_cons. f_equal.
    assert (∀ c, cs !! i = Some c → ∀ e', record_at p c = Some e' → f e' = e') as Hc.
    { intros c Hi e' He'. apply Hf. by rewrite record_at_cons, Hi. }
    clear Hf e. revert i Hc.
    induction cs as [|c cs IHcs]; intros [|i] Hc; simpl; [done..| |].
    + f_equal. apply IH. by apply Hc.
    + f_equal. apply IHcs. intros c' Hi. by apply Hc.
Qed.

Lemma textContent_on_elem (f : element → element) (p : path) (d : node) :
  textContent (alter_at (on_elem f) p d) = textContent d.
Proof.
  revert d. induction p as [|i p IH]; intros d.
  - by destruct d.
  - destruct d as [s|e cs]; [done|]. rewrite alter_at_cons, !textContent_Elem.
    revert i. induction cs as [|c cs IHcs]; intros [|i]; try done.
    + change (textContent (alter_at (on_elem f) p c) +:+ textContent_list cs =
              textContent c +:+ textContent_list cs). by rewrite IH.
    + change (textContent c +:+ textContent_list (alter (alter_at (on_elem f) p) i cs) =
              textContent c +:+ textContent_list cs). by rewrite IHcs.
Qed.

(** ... and it leaves every text where it was. *)
Lemma node_text_on_elem (f : element → element) (p q : path) (d : node) :
  textContent <$> node_at q (alter_at (on_elem f) p d) = textContent <$> node_at q d.
Proof.
  revert p d. induction q as [|i q IH]; intros p d.
  - simpl. by rewrite textContent_on_elem.
  - destruct d as [s|e cs]; [by destruct p|].
    destruct p as [|j p]; [done|].
    rewrite alter_at_cons. simpl. rewrite list_lookup_alter.
    case_decide; [subst|done]. destruct (cs !! i); simpl; [apply IH|done].
Qed.

Lemma select_on_elem (sel : element → bool) (f : element → element) (p : path) (d : node) :
  (∀ e, sel (f e) = sel e) →
  select sel (alter_at (on_elem f) p d) = select sel d.
Proof.
  intros Hf. revert d. induction p as [|i p IH]; intros d.
  - destruct d as [s|e cs]; [done|]. simpl on_elem. simpl alter_at.
    by rewrite !select_Elem, Hf.
  - destruct d as [s|e cs]; [done|]. rewrite alter_at_cons, !select_Elem. f_equal.
    generalize 0. revert i. induction cs as [|c cs IHcs]; intros [|i] k; try done.
    + change ((cons k <$> select sel (alter_at (on_elem f) p c)) ++ select_list sel (S k) cs =
              (cons k <$> select sel c) ++ select_list sel (S k) cs). by rewrite IH.
    + change ((cons k <$> select sel c) ++
                select_list sel (S k) (alter (alter_at (on_elem f) p) i cs) =
              (cons k <$> select sel c) ++ select_list sel (S k) cs). by rewrite IHcs.
Qed.

Lemma body_path_Some (d : node) (b : path) :
  body_path d = Some b →
  ∃ e cs, elem_at b d = Some (e, cs) ∧ tag e = "body".
Proof.
  destruct d as [s|e0 cs0]; [done|]. simpl.
  destruct (find_index is_body cs0) as [i|] eqn:Hi; [|done]. intros [= <-].
  rewrite elem_at_cons. revert i Hi.
  induction cs0 as [|c cs IH]; intros i; simpl; [done|].
  destruct (is_body c) eqn:Hc.
  - intros [= <-]. simpl. destruct c as [s|e cs']; [done|].
    exists e, cs'. split; [done|]. by apply String.eqb_eq.
  - destruct (find_index is_body cs) as [j|]; [|done]. intros [= <-]. simpl. eauto.
Qed.

Lemma find_index_alter {A : Type} (t : A → bool) (f : A → A) (i : nat) (l : list A) :
  (∀ x, t (f x) = t x) → find_index t (alter f i l) = find_index t l.
Proof.
  intros Hf. revert i. induction l as [|x l IH]; intros [|i]; try done.
  - simpl. by rewrite Hf.
  - change (alter f (S i) (x :: l)) with (x :: alter f i l). simpl. by rewrite IH.
Qed.

Lemma is_body_alter_at (f : element → element) (p : path) (n : node) :
  (∀ e, tag (f e) = tag e) → is_body (alter_at (on_elem f) p n) = is_body n.
Proof.
  intros Hf. destruct p as [|i p]; destruct n as [s|e cs]; simpl; try done.
  by rewrite Hf.
Qed.

Lemma body_path_on_elem (f : element → element) (p : path) (d : node) :
  (∀ e, tag (f e) = tag e) →
  body_path (alter_at (on_elem f) p d) = body_path d.
Proof.
  intros Hf. destruct d as [s|e cs]; [by destruct p|].
  destruct p as [|i p]; [done|]. rewrite alter_at_cons. simpl.
  rewrite (find_index_alter is_body); [done|].
  intros n. by apply is_body_alter_at.
Qed.

Lemma elem_at_on_elem_is_Some (f : element → element) (p q : path) (d : node) :
  is_Some (elem_at q (alter_at (on_elem f) p d)) ↔ is_Some (elem_at q d).
Proof.
  rewrite <- !(fmap_is_Some fst). fold (record_at q (alter_at (on_elem f) p d)).
  fold (record_at q d). rewrite record_at_on_elem.
  case_decide; [by rewrite fmap_is_Some|done].
Qed.

Lemma mutate_run (p : path) (f : node → node) (ef : effect) (st : state) :
  is_Some (elem_at p (document st)) →
  mutate p f ef st = (inr tt, emit ef (with_document (alter_at f p (document st)) st)).
Proof. intros [x Hx]. unfold mutate. rewrite run_bind. simpl. by rewrite Hx. Qed.

Lemma mutate_detached (p : path) (f : node → node) (ef : effect) (st : state) :
  elem_at p (document st) = None → mutate p f ef st = (inr tt, st).
Proof. intros Hx. unfold mutate. rewrite run_bind. simpl. by rewrite Hx. Qed.

(** ** [translatePage] on the page state *)

Section TranslateRun.
Context `{Host}.

Lemma written_is_text_set (d0 : node) (lang : string) (ef : effect) :
  written d0 lang ef → is_text_set ef.
Proof. by destruct ef. Qed.

Lemma prop_total (v : value) (k : string) :
  (∀ w k', ∃ x, inherited w k' = inr x) → ∃ x, prop v k = inr x.
Proof.
  intros Hsafe. unfold prop. destruct v as [| | | |fs|]; try apply Hsafe.
  destruct (assoc k fs); [eauto|apply Hsafe].
Qed.

Lemma page_walk_total (v : value) (keys : list string) :
  (∀ w k, ∃ x, inherited w k = inr x) → ∃ r, page_walk v keys = inr r.
Proof.
  intros Hsafe. revert v. induction keys as [|k keys IH]; intros v; simpl; [eauto|].
  destruct (truthy v) eqn:Hv; [|done].
  rewrite get_prop_truthy by done.
  destruct (prop_total v k Hsafe) as [x ->]. destruct (truthy x); done.
Qed.

(** With built-ins none of which throws, no walk throws. *)
Lemma safe_host_walks_return (lang : string) (d : node) :
  (∀ w k, ∃ x, inherited w k = inr x) → walks_return lang d.
Proof.
  intros Hsafe p e _. unfold walk_error. destruct (data_translate e) as [attr|]; [|done].
  unfold page_lookup. rewrite get_prop_truthy by done.
  destruct (prop_total translations lang Hsafe) as [table ->].
  by destruct (page_walk_total table (split_dot attr) Hsafe) as [r ->].
Qed.

Lemma walk_error_unkeyed (lang : string) (e : element) :
  data_translate e = None → walk_error lang e = None.
Proof. unfold walk_error. by intros ->. Qed.

Lemma walk_error_same_key (lang : string) (e e' : element) :
  data_translate e' = data_translate e → walk_error lang e' = walk_error lang e.
Proof. unfold walk_error. by intros ->. Qed.

Lemma page_walk_ends (v : value) (keys : list string) (u : value) :
  walk_ends v keys u → page_walk v keys = inr u.
Proof.
  induction 1 as [v|v k ks w u Hv Hk Hw _ IH]; simpl; [done|].
  by rewrite Hv, Hk, Hw.
Qed.

Lemma translation_of_keyed (lang key : string) (e : element) :
  data_translate e = Some key →
  translation_of lang e =
  match page_lookup translations lang key with
  | inr v => is_string v
  | inl _ => None
  end.
Proof. intros He. unfold translation_of. by rewrite He. Qed.

(** On a key whose every segment is found, [translatePage] writes the
    string the walk ends on. *)
Lemma translation_of_walk_ends (lang key s : string) (table : value) (e : element) :
  data_translate e = Some key →
  get_prop translations lang = inr table →
  walk_ends table (split_dot key) (VStr s) →
  translation_of lang e = Some s.
Proof.
  intros He Ht Hw. rewrite (translation_of_keyed _ _ _ He). unfold page_lookup.
  by rewrite Ht, (page_walk_ends _ _ _ Hw).
Qed.

(** In the lemmas below [d0] is the document the node list was taken
    from: an element met under a path of the list is the one that was
    there in [d0]. *)
Lemma translate_element_run (d0 : node) (x : path * element) (st : state) :
  has_data_translate x.2 = true →
  (∃ cs0, elem_at x.1 d0 = Some (x.2, cs0)) →
  (∀ e cs, elem_at x.1 (document st) = Some (e, cs) → e = x.2) →
  match walk_error (currentLang st) x.2 with
  | Some ex => translate_element x st = (inl ex, st)
  | None =>
      ∃ tr, translate_element x st =
              (inr tt, State (currentLang st) (localStorage st) (storage_full st)
                         (translate_step (currentLang st) (document st) x.1)
                         (trace st ++ tr)) ∧
            Forall (written d0 (currentLang st)) tr
  end.
Proof.
  destruct x as [p e]. simpl. intros He [cs0 Hat0] Hsame.
  unfold translate_element, walk_error, has_data_translate in *. simpl.
  destruct (data_translate e) as [attr|] eqn:Hattr; [|done].
  rewrite !run_bind. simpl. rewrite run_bind.
  destruct (page_lookup translations (currentLang st) attr) as [ex|v] eqn:Hv; [done|].
  simpl. unfold translate_step, rewrite_step.
  destruct (elem_at p (document st)) as [[e' cs]|] eqn:Hat.
  - rewrite (Hsame e' cs eq_refl). unfold translation_of. rewrite Hattr, Hv.
    destruct (is_string v) as [s|] eqn:Hs.
    + exists [TextContentSet p s]. split.
      * unfold textContent_set. rewrite mutate_run by (rewrite Hat; eauto). done.
      * apply Forall_singleton. exists e, cs0. split; [done|].
        unfold translation_of. by rewrite Hattr, Hv.
    + exists []. split; [|constructor]. rewrite app_nil_r. by destruct st.
  - exists []. split; [|constructor]. rewrite app_nil_r.
    destruct (is_string v) as [s|].
    + unfold textContent_set. rewrite mutate_detached by done. by destruct st.
    + by destruct st.
Qed.

Lemma forEach_translate_run (d0 : node) (items : list (path * element)) (st : state) :
  (∀ x, x ∈ items →
     has_data_translate x.2 = true ∧ (∃ cs0, elem_at x.1 d0 = Some (x.2, cs0)) ∧
     ∀ e cs, elem_at x.1 (document st) = Some (e, cs) → e = x.2) →
  ∃ tr, forEach items translate_element st =
          ((translate_items (currentLang st) (document st) items).1,
           State (currentLang st) (localStorage st) (storage_full st)
             (translate_items (currentLang st) (document st) items).2 (trace st ++ tr)) ∧
        Forall (written d0 (currentLang st)) tr.
Proof.
  revert st. induction items as [|x items IH]; intros st Hinv; simpl.
  - exists []. split; [|constructor]. rewrite app_nil_r. by destruct st.
  - destruct (Hinv x) as (Hx1 & Hx2 & Hx3); [left|].
    pose proof (translate_element_run d0 x st Hx1 Hx2 Hx3) as Hrun.
    rewrite run_bind.
    destruct (walk_error (currentLang st) x.2) as [ex|].
    + rewrite Hrun. exists []. split; [|constructor]. rewrite app_nil_r. by destruct st.
    + destruct Hrun as (tr1 & -> & Htr1).
      edestruct IH as (tr2 & Hrun2 & Htr2); [|rewrite Hrun2].
      { simpl. intros y Hy. destruct (Hinv y) as (Hy1 & Hy2 & Hy3); [by right|].
        split; [done|]. split; [done|].
        intros e cs [cs1 Hat]%elem_at_rewrite_step. by eapply Hy3. }
      simpl. exists (tr1 ++ tr2). rewrite app_assoc. split; [done|].
      by apply Forall_app.
Qed.

(** What [translatePage] does, whether it returns or throws. *)
Lemma translatePage_outcome (st : state) :
  ∃ tr, translatePage st =
          ((translate_doc (currentLang st) (document st)).1,
           State (currentLang st) (localStorage st) (storage_full st)
             (translate_doc (currentLang st) (document st)).2 (trace st ++ tr)) ∧
        Forall (written (document st) (currentLang st)) tr.
Proof.
  unfold translatePage, querySelectorAll_elements. rewrite !run_bind. simpl.
  apply forEach_translate_run. intros x [Hx Hr]%elements_at_spec.
  apply select_elem_at in Hx as (e & cs & Hat & He).
  assert (x.2 = e) as -> by (unfold record_at in Hr; rewrite Hat in Hr; by injection Hr).
  split; [done|]. split; [by eauto|]. intros e' cs'. rewrite Hat. by intros [= -> _].
Qed.

Lemma translate_items_fold (lang : string) (d : node) (items : list (path * element)) :
  ∃ n, (translate_items lang d items).2 =
       foldl (translate_step lang) d (take n items.*1).
Proof.
  revert d. induction items as [|x items IH]; intros d; simpl; [by exists 0|].
  destruct (walk_error lang x.2); [by exists 0|].
  destruct (IH (translate_step lang d x.1)) as [n Hn]. by exists (S n).
Qed.

Lemma translate_items_result (lang : string) (d : node) (items : list (path * element)) :
  (translate_items lang d items).1 = inr tt ↔
  Forall (λ x, walk_error lang x.2 = None) items.
Proof.
  revert d. induction items as [|x items IH]; intros d; simpl; [by split|].
  rewrite Forall_cons. destruct (walk_error lang x.2) as [ex|].
  - split; [done|by intros [? _]].
  - rewrite IH. by split; [|intros [_ ?]].
Qed.

Lemma translate_items_returns (lang : string) (d : node) (items : list (path * element)) :
  Forall (λ x, walk_error lang x.2 = None) items →
  translate_items lang d items = (inr tt, foldl (translate_step lang) d items.*1).
Proof.
  intros Hall. revert d. induction Hall as [|x items Hx _ IH]; intros d; simpl; [done|].
  by rewrite Hx, IH.
Qed.

(** The loop stops at the first element of the list whose walk throws:
    the elements before it have been gone through, no other. *)
Lemma translate_items_stop (lang : string) (d : node) (items : list (path * element))
    (ex : exn) :
  (translate_items lang d items).1 = inl ex →
  ∃ n x, items !! n = Some x ∧ walk_error lang x.2 = Some ex ∧
         Forall (λ y, walk_error lang y.2 = None) (take n items) ∧
         (translate_items lang d items).2 =
           foldl (translate_step lang) d (take n items.*1).
Proof.
  revert d. induction items as [|x items IH]; intros d; simpl; [done|].
  destruct (walk_error lang x.2) as [ex'|] eqn:Hx.
  - intros [= ->]. exists 0, x. by repeat split.
  - intros (n & y & Hn & Hy & Hbefore & Hdoc)%IH.
    exists (S n), y. split; [done|]. split; [done|]. split; [by constructor|done].
Qed.

(** [translatePage] returns exactly when no key of the document makes a
    read throw. *)
Lemma translate_doc_result (lang : string) (d : node) :
  (translate_doc lang d).1 = inr tt ↔ walks_return lang d.
Proof.
  unfold translate_doc. rewrite translate_items_result, Forall_forall. split.
  - intros Hall p e Hr. destruct (data_translate e) as [attr|] eqn:Hattr;
      [|by apply walk_error_unkeyed].
    apply (Hall (p, e)), elements_at_spec. split; [|done].
    apply record_at_Some in Hr as [cs Hat]. eapply elem_at_select; [done|].
    unfold has_data_translate. by rewrite Hattr.
  - intros Hret x [_ Hr]%elements_at_spec. by eapply Hret.
Qed.

Lemma translate_doc_returns (lang : string) (d : node) :
  walks_return lang d → translate_doc lang d = (inr tt, translate_tree lang d).
Proof.
  intros Hret. unfold translate_doc. rewrite translate_items_returns.
  - by rewrite elements_at_select_fst, translate_steps_tree.
  - apply Forall_forall. intros x [_ Hr]%elements_at_spec. by eapply Hret.
Qed.

Lemma translate_doc_fold (lang : string) (d : node) :
  ∃ ps, (translate_doc lang d).2 = foldl (translate_step lang) d ps.
Proof.
  unfold translate_doc.
  destruct (translate_items_fold lang d (elements_at d (select has_data_translate d)))
    as [n Hn]. eauto.
Qed.

Lemma elem_at_translate_doc (lang : string) (q : path) (d : node)
    (e' : element) (cs' : list node) :
  elem_at q (translate_doc lang d).2 = Some (e', cs') → ∃ cs, elem_at q d = Some (e', cs).
Proof.
  destruct (translate_doc_fold lang d) as [ps ->]. apply elem_at_rewrite_steps.
Qed.

Lemma record_at_translate_doc (lang : string) (q : path) (d : node) (e' : element) :
  record_at q (translate_doc lang d).2 = Some e' → record_at q d = Some e'.
Proof.
  intros [cs' Hat]%record_at_Some. apply elem_at_translate_doc in Hat as [cs Hat].
  apply record_at_Some. eauto.
Qed.

(** When no walk throws, [translatePage] returns and leaves the document
    that the recursion on the tree describes. *)
Lemma translatePage_run (st : state) :
  walks_return (currentLang st) (document st) →
  ∃ tr, translatePage st =
          (inr tt, State (currentLang st) (localStorage st) (storage_full st)
                     (translate_tree (currentLang st) (document st)) (trace st ++ tr)) ∧
        Forall (written (document st) (currentLang st)) tr.
Proof.
  intros Hret. destruct (translatePage_outcome st) as (tr & Hrun & Htr).
  rewrite (translate_doc_returns _ _ Hret) in Hrun. eauto.
Qed.

Lemma translatePage_document (st : state) :
  walks_return (currentLang st) (document st) →
  document (exec translatePage st) = translate_tree (currentLang st) (document st).
Proof.
  intros Hret. unfold exec. destruct (translatePage_run st Hret) as (tr & -> & _). done.
Qed.

Lemma walks_return_translate_tree (lang l : string) (d : node) :
  walks_return lang d → walks_return lang (translate_tree l d).
Proof.
  intros Hret p e [cs' Hat]%record_at_Some.
  apply elem_at_rewrite_tree in Hat as (cs & Hat & _).
  apply (Hret p). apply record_at_Some. eauto.
Qed.

(** C7, as the code has it.  [translatePage] returns exactly when no key
    of the document makes a read throw; on such a document running it a
    second time leaves the document, hence the text of every element,
    exactly as the first run left it.  When it throws, it has stopped at
    the first element of the node list whose walk throws: the elements
    found before that one have been gone through, and no other. *)
Theorem translatePage_idempotent (st : state) :
  let lang := currentLang st in
  let items := elements_at (document st) (select has_data_translate (document st)) in
  (result translatePage st = inr tt ↔ walks_return lang (document st)) ∧
  (walks_return lang (document st) →
   result translatePage (exec translatePage st) = inr tt ∧
   document (exec translatePage (exec translatePage st)) =
     document (exec translatePage st) ∧
   ∀ p, text_at p (document (exec translatePage (exec translatePage st))) =
        text_at p (document (exec translatePage st))) ∧
  (∀ ex, result translatePage st = inl ex →
     ∃ n x, items !! n = Some x ∧ walk_error lang x.2 = Some ex ∧
            Forall (λ y, walk_error lang y.2 = None) (take n items) ∧
            document (exec translatePage st) =
              foldl (translate_step lang) (document st) (take n items.*1)).
Proof.
  intros lang items. split; [|split].
  - unfold result. destruct (translatePage_outcome st) as (tr & -> & _). simpl.
    apply translate_doc_result.
  - intros Hret.
    assert (walks_return (currentLang (exec translatePage st))
              (document (exec translatePage st))) as Hret'.
    { rewrite translatePage_document by done.
      unfold exec. rewrite (proj1 (dom_only_translatePage st)).
      by apply walks_return_translate_tree. }
    assert (document (exec translatePage (exec translatePage st)) =
            document (exec translatePage st)) as Hd.
    { rewrite (translatePage_document (exec translatePage st)) by done.
      rewrite translatePage_document by done.
      unfold exec. rewrite (proj1 (dom_only_translatePage st)).
      apply translate_tree_idempotent. }
    split; [|split].
    + unfold result. by destruct (translatePage_run _ Hret') as (tr & -> & _).
    + exact Hd.
    + intros p. by rewrite Hd.
  - intros ex. unfold result, exec.
    destruct (translatePage_outcome st) as (tr & -> & _). simpl.
    apply translate_items_stop.
Qed.

End TranslateRun.

Lemma bare_walks_return (lang : string) (d : node) : @walks_return bare_host lang d.
Proof. apply (@safe_host_walks_return bare_host). intros w k. by exists VUndef. Qed.

Lemma translatePage_idempotent_witness :
  let st := sample_state "he" false in
  @walks_return bare_host "he" sample_page ∧
  result (@translatePage bare_host) st = inr tt ∧
  document (exec (@translatePage bare_host) (exec (@translatePage bare_host) st)) =
    document (exec (@translatePage bare_host) st) ∧
  text_at [1; 0; 0] (document (exec (@translatePage bare_host) st)) = Some "פרופיל".
Proof.
  intros st.
  pose proof (bare_walks_return "he" sample_page) as Hret.
  destruct (@translatePage_idempotent bare_host st) as (Hres & Hidem & _).
  destruct (Hidem Hret) as (_ & Hdoc & _).
  split; [exact Hret|]. split; [by apply Hres|]. split; [exact Hdoc|reflexivity].
Defined.

(** C7 fails as stated.  On the page below the key of the link reads
    [caller] of the function [Object], which throws.  The first call
    translates the block, which detaches the link; the loop still walks
    the key of the link, throws, and never reaches the paragraph.  The
    second call no longer finds the link, returns, and translates the
    paragraph: two calls do not leave what one call leaves. *)
Lemma translatePage_not_idempotent :
  let st := State "he" ∅ false accessor_page [] in
  let st1 := exec (@translatePage accessor_host) st in
  let st2 := exec (@translatePage accessor_host) st1 in
  result (@translatePage accessor_host) st = inl TypeError ∧
  text_at [1; 0] (document st1) = Some "יציאה" ∧
  text_at [1; 1] (document st1) = Some "Profile" ∧
  result (@translatePage accessor_host) st1 = inr tt ∧
  text_at [1; 1] (document st2) = Some "פרופיל" ∧
  document st2 ≠ document st1.
Proof. by vm_compute. Qed.

(** ** [applyLanguage] *)

Lemma alter_at_ext (f g : node → node) (p : path) (d : node) :
  (∀ n, f n = g n) → alter_at f p d = alter_at g p d.
Proof.
  intros Hfg. revert d. induction p as [|i p IH]; intros d; simpl; [done|].
  destruct d as [s|e cs]; [done|]. f_equal. by apply list_alter_ext.
Qed.

Lemma alter_at_compose (f g : node → node) (p : path) (d : node) :
  alter_at g p (alter_at f p d) = alter_at (g ∘ f) p d.
Proof.
  revert d. induction p as [|i p IH]; intros d; simpl; [done|].
  destruct d as [s|e cs]; [done|]. f_equal.
  rewrite list_alter_alter_eq. apply list_alter_ext; [|done].
  intros c _. apply IH.
Qed.

Lemma on_elem_compose (f g : element → element) (p : path) (d : node) :
  alter_at (on_elem g) p (alter_at (on_elem f) p d) = alter_at (on_elem (g ∘ f)) p d.
Proof.
  rewrite alter_at_compose. apply alter_at_ext. by intros [s|e cs].
Qed.

Lemma body_run (st : state) (b : path) :
  body_path (document st) = Some b → body st = (inr b, st).
Proof. intros Hb. unfold body. rewrite run_bind. simpl. by rewrite Hb. Qed.

Lemma has_class_add_class (c c' : string) (e : element) :
  c ≠ c' → has_class c (add_class c' e) = has_class c e.
Proof.
  intros Hc. unfold has_class, add_class. simpl.
  destruct (bool_decide (c' ∈ classList e)); [done|]. apply bool_decide_ext.
  rewrite elem_of_app, list_elem_of_singleton. intuition congruence.
Qed.

Lemma has_class_remove_class (c c' : string) (e : element) :
  c ≠ c' → has_class c (remove_class c' e) = has_class c e.
Proof.
  intros Hc. unfold has_class, remove_class. simpl. apply bool_decide_ext.
  rewrite list_elem_of_filter. intuition congruence.
Qed.

Lemma has_class_set_style (c k v : string) (e : element) :
  has_class c (set_style k v e) = has_class c e.
Proof. done. Qed.

Lemma has_class_direct (c lang : string) (e : element) :
  c ≠ "rtl" → has_class c (direct lang e) = has_class c e.
Proof.
  intros Hc. unfold direct. destruct (is_rtl lang); rewrite has_class_set_style.
  - by apply has_class_add_class.
  - by apply has_class_remove_class.
Qed.

Lemma has_class_reposition (c lang : string) (e : element) :
  has_class c (reposition lang e) = has_class c e.
Proof. unfold reposition. by destruct (is_rtl lang). Qed.

Lemma tag_direct (lang : string) (e : element) : tag (direct lang e) = tag e.
Proof. unfold direct. by destruct (is_rtl lang). Qed.

Lemma tag_reposition (lang : string) (e : element) : tag (reposition lang e) = tag e.
Proof. unfold reposition. by destruct (is_rtl lang). Qed.

Lemma is_rtl_spec (lang : string) : is_rtl lang = true ↔ lang = "he" ∨ lang = "ar".
Proof.
  unfold is_rtl. rewrite orb_true_iff, !String.eqb_eq. done.
Qed.

Lemma switcher_of_on_elem (f : element → element) (p : path) (d : node) :
  (∀ e, has_class "language-switcher" (f e) = has_class "language-switcher" e) →
  switcher_of (alter_at (on_elem f) p d) = switcher_of d.
Proof. intros Hf. unfold switcher_of. by rewrite select_on_elem. Qed.

Lemma switcher_of_direct (lang : string) (b : path) (d : node) :
  switcher_of (alter_at (on_elem (direct lang)) b d) = switcher_of d.
Proof.
  unfold switcher_of. rewrite select_on_elem; [done|].
  intros e. by apply has_class_direct.
Qed.

Lemma switcher_of_apply_doc (lang : string) (b : path) (d : node) :
  switcher_of (apply_doc lang b d) = switcher_of d.
Proof.
  unfold apply_doc. destruct (switcher_of d) as [p|] eqn:Hp.
  - unfold switcher_of. rewrite select_on_elem by apply has_class_reposition.
    fold (switcher_of (alter_at (on_elem (direct lang)) b d)).
    by rewrite switcher_of_direct.
  - by rewrite switcher_of_direct.
Qed.

Lemma body_path_apply_doc (lang : string) (b : path) (d : node) :
  body_path (apply_doc lang b d) = body_path d.
Proof.
  unfold apply_doc. destruct (switcher_of d) as [p|].
  - rewrite !body_path_on_elem; auto using tag_direct, tag_reposition.
  - rewrite body_path_on_elem; auto using tag_direct.
Qed.

Lemma switcher_of_Some (d : node) (p : path) :
  switcher_of d = Some p →
  ∃ e cs, elem_at p d = Some (e, cs) ∧ has_class "language-switcher" e = true.
Proof.
  unfold switcher_of. intros Hp. apply select_elem_at.
  destruct (select _ d) as [|p' l]; [done|]. injection Hp as ->. left.
Qed.

Lemma apply_doc_record (lang : string) (b q : path) (d : node) :
  record_at q (apply_doc lang b d) =
  (if decide (Some q = switcher_of d) then reposition lang else id) <$>
    ((if decide (q = b) then direct lang else id) <$> record_at q d).
Proof.
  unfold apply_doc. destruct (switcher_of d) as [p|].
  - rewrite !record_at_on_elem.
    repeat case_decide; try congruence; destruct (record_at q d); done.
  - rewrite record_at_on_elem.
    repeat case_decide; try congruence; destruct (record_at q d); done.
Qed.

Lemma applyLanguage_run (st : state) (b : path) :
  body_path (document st) = Some b →
  applyLanguage st =
    (inr tt, State (currentLang st) (localStorage st) (storage_full st)
               (apply_doc (currentLang st) b (document st))
               (trace st ++ apply_trace (currentLang st) b (switcher_of (document st)))).
Proof.
  intros Hb. destruct st as [lang sto full d tr]. simpl in *.
  destruct (body_path_Some d b Hb) as (eb & csb & Hat & _).
  unfold applyLanguage, apply_doc, apply_trace, direct, reposition.
  rewrite run_bind. simpl. fold (is_rtl lang).
  destruct (is_rtl lang).
  - rewrite run_bind, (body_run _ b) by done.
    rewrite run_bind. unfold classList_add. rewrite mutate_run by (simpl; eauto). simpl.
    rewrite run_bind, (body_run _ b) by (simpl; by rewrite body_path_on_elem).
    rewrite run_bind. unfold style_set at 1.
    rewrite mutate_run by (simpl; apply elem_at_on_elem_is_Some; eauto). simpl.
    rewrite run_bind. simpl. rewrite on_elem_compose.
    fold (switcher_of (alter_at (on_elem (set_style "direction" "rtl" ∘ add_class "rtl")) b d)).
    rewrite switcher_of_on_elem
      by (intros e; simpl; rewrite has_class_set_style; by apply has_class_add_class).
    destruct (switcher_of d) as [p|] eqn:Hp; simpl.
    + destruct (switcher_of_Some d p Hp) as (es & css & Hats & _).
      rewrite run_bind. unfold style_set at 1.
      rewrite mutate_run by (simpl; apply elem_at_on_elem_is_Some; eauto). simpl.
      unfold style_set. rewrite mutate_run
        by (simpl; do 2 apply elem_at_on_elem_is_Some; eauto). simpl.
      rewrite (on_elem_compose _ _ p). unfold emit. simpl.
      by rewrite <- !app_assoc.
    + unfold emit. simpl. by rewrite <- !app_assoc.
  - rewrite run_bind, (body_run _ b) by done.
    rewrite run_bind. unfold classList_remove. rewrite mutate_run by (simpl; eauto). simpl.
    rewrite run_bind, (body_run _ b) by (simpl; by rewrite body_path_on_elem).
    rewrite run_bind. unfold style_set at 1.
    rewrite mutate_run by (simpl; apply elem_at_on_elem_is_Some; eauto). simpl.
    rewrite run_bind. simpl. rewrite on_elem_compose.
    fold (switcher_of (alter_at (on_elem (set_style "direction" "ltr" ∘ remove_class "rtl")) b d)).
    rewrite switcher_of_on_elem
      by (intros e; simpl; rewrite has_class_set_style; by apply has_class_remove_class).
    destruct (switcher_of d) as [p|] eqn:Hp; simpl.
    + destruct (switcher_of_Some d p Hp) as (es & css & Hats & _).
      rewrite run_bind. unfold style_set at 1.
      rewrite mutate_run by (simpl; apply elem_at_on_elem_is_Some; eauto). simpl.
      unfold style_set. rewrite mutate_run
        by (simpl; do 2 apply elem_at_on_elem_is_Some; eauto). simpl.
      rewrite (on_elem_compose _ _ p). unfold emit. simpl.
      by rewrite <- !app_assoc.
    + unfold emit. simpl. by rewrite <- !app_assoc.
Qed.

Lemma element_eta (e : element) :
  Element (tag e) (classList e) (data_translate e) (style e) (onclick e) = e.
Proof. by destruct e. Qed.

Lemma add_class_id (c : string) (e : element) : c ∈ classList e → add_class c e = e.
Proof.
  intros Hc. unfold add_class. rewrite bool_decide_eq_true_2 by done. apply element_eta.
Qed.

Lemma filter_ne_id (c : string) (l : list string) :
  c ∉ l → filter (λ c', c' ≠ c) l = l.
Proof.
  induction l as [|x l IH]; [done|]. intros [Hx Hl]%not_elem_of_cons.
  rewrite filter_cons_True by done. by rewrite IH.
Qed.

Lemma remove_class_id (c : string) (e : element) : c ∉ classList e → remove_class c e = e.
Proof.
  intros Hc. unfold remove_class. rewrite filter_ne_id by done. apply element_eta.
Qed.

Lemma set_style_id (k v : string) (e : element) :
  style e !! k = Some v → set_style k v e = e.
Proof. intros Hk. unfold set_style. rewrite insert_id by done. apply element_eta. Qed.

Lemma direct_class (lang : string) (e : element) :
  "rtl" ∈ classList (direct lang e) ↔ is_rtl lang = true.
Proof.
  unfold direct. destruct (is_rtl lang); simpl.
  - split; [done|]. intros _. case_bool_decide; [done|].
    apply elem_of_app. right. apply list_elem_of_singleton. done.
  - split; [|done]. intros [Hne _]%list_elem_of_filter. done.
Qed.

Lemma direct_direction (lang : string) (e : element) :
  style (direct lang e) !! "direction" = Some (if is_rtl lang then "rtl" else "ltr").
Proof. unfold direct. destruct (is_rtl lang); simpl; apply lookup_insert_eq. Qed.

Lemma direct_id (lang : string) (e : element) :
  ("rtl" ∈ classList e ↔ is_rtl lang = true) →
  style e !! "direction" = Some (if is_rtl lang then "rtl" else "ltr") →
  direct lang e = e.
Proof.
  intros Hc Hd. unfold direct. destruct (is_rtl lang).
  - rewrite add_class_id by (by apply Hc). by apply set_style_id.
  - rewrite remove_class_id; [by apply set_style_id|].
    intros Hin. apply Hc in Hin. done.
Qed.

Lemma reposition_left (lang : string) (e : element) :
  style (reposition lang e) !! "left" = Some (if is_rtl lang then "2rem" else "auto").
Proof.
  unfold reposition. destruct (is_rtl lang); simpl.
  - apply lookup_insert_eq.
  - rewrite lookup_insert_ne by done. apply lookup_insert_eq.
Qed.

Lemma reposition_right (lang : string) (e : element) :
  style (reposition lang e) !! "right" = Some (if is_rtl lang then "auto" else "2rem").
Proof.
  unfold reposition. destruct (is_rtl lang); simpl.
  - rewrite lookup_insert_ne by done. apply lookup_insert_eq.
  - apply lookup_insert_eq.
Qed.

Lemma reposition_classList (lang : string) (e : element) :
  classList (reposition lang e) = classList e.
Proof. unfold reposition. by destruct (is_rtl lang). Qed.

Lemma reposition_other (lang k : string) (e : element) :
  k ≠ "left" → k ≠ "right" → style (reposition lang e) !! k = style e !! k.
Proof.
  intros Hl Hr. unfold reposition.
  destruct (is_rtl lang); simpl; by rewrite !lookup_insert_ne.
Qed.

Lemma reposition_id (lang : string) (e : element) :
  style e !! "left" = Some (if is_rtl lang then "2rem" else "auto") →
  style e !! "right" = Some (if is_rtl lang then "auto" else "2rem") →
  reposition lang e = e.
Proof.
  intros Hl Hr. unfold reposition. destruct (is_rtl lang).
  - rewrite (set_style_id "right") by done. by apply set_style_id.
  - rewrite (set_style_id "left") by done. by apply set_style_id.
Qed.

Lemma apply_doc_idempotent (lang : string) (b : path) (d : node) :
  apply_doc lang b (apply_doc lang b d) = apply_doc lang b d.
Proof.
  unfold apply_doc at 1. rewrite switcher_of_apply_doc.
  assert (alter_at (on_elem (direct lang)) b (apply_doc lang b d) = apply_doc lang b d) as ->.
  { apply alter_at_on_elem_id. intros e. rewrite apply_doc_record.
    destruct (decide (b = b)) as [_|]; [|done].
    destruct (record_at b d) as [e0|]; [|done]. simpl.
    case_decide; intros [= <-]; simpl.
    - apply direct_id.
      + rewrite reposition_classList. apply direct_class.
      + rewrite reposition_other by done. apply direct_direction.
    - apply direct_id; [apply direct_class|apply direct_direction]. }
  destruct (switcher_of d) as [p|] eqn:Hp; [|done].
  apply alter_at_on_elem_id. intros e. rewrite apply_doc_record, Hp.
  destruct (decide (Some p = Some p)) as [_|]; [|done].
  destruct (record_at p d) as [e0|]; [|done]. simpl.
  intros [= <-]. apply reposition_id; [apply reposition_left|apply reposition_right].
Qed.

(** C5: with a body in the document, [applyLanguage] returns, and what it
    leaves is decided by the active locale alone.  For [he] and [ar] the
    body carries the class [rtl] and the direction [rtl] and the switcher
    found by [querySelector], if there is one, sits at the left edge; for
    every other locale the body has no class [rtl], its direction is
    [ltr] and the switcher sits at the right edge.  Running it again
    changes nothing in the document. *)
Theorem applyLanguage_directionality (st : state) (b : path) :
  body_path (document st) = Some b →
  let lang := currentLang st in
  let st' := exec applyLanguage st in
  result applyLanguage st = inr tt ∧
  currentLang st' = lang ∧
  (is_rtl lang = true ↔ lang = "he" ∨ lang = "ar") ∧
  (∃ e, record_at b (document st') = Some e ∧
        ("rtl" ∈ classList e ↔ is_rtl lang = true) ∧
        style e !! "direction" = Some (if is_rtl lang then "rtl" else "ltr")) ∧
  (∀ p, switcher_of (document st) = Some p →
        switcher_of (document st') = Some p ∧
        ∃ e, record_at p (document st') = Some e ∧
             style e !! "left" = Some (if is_rtl lang then "2rem" else "auto") ∧
             style e !! "right" = Some (if is_rtl lang then "auto" else "2rem")) ∧
  document (exec applyLanguage st') = document st'.
Proof.
  intros Hb lang st'.
  assert (Hrun := applyLanguage_run st b Hb).
  assert (document st' = apply_doc lang b (document st)) as Hd.
  { unfold st', exec. by rewrite Hrun. }
  assert (currentLang st' = lang) as Hl.
  { unfold st', exec. by rewrite Hrun. }
  split; [unfold result; by rewrite Hrun|].
  split; [done|]. split; [apply is_rtl_spec|].
  destruct (body_path_Some _ _ Hb) as (eb & csb & Hatb & _).
  assert (record_at b (document st) = Some eb) as Hrb by (apply record_at_Some; eauto).
  split; [|split].
  - rewrite Hd, apply_doc_record, Hrb.
    destruct (decide (b = b)) as [_|]; [|done]. simpl.
    case_decide; simpl; eexists; (split; [done|]).
    + rewrite reposition_classList, reposition_other by done.
      split; [apply direct_class|apply direct_direction].
    + split; [apply direct_class|apply direct_direction].
  - intros p Hp. rewrite Hd, switcher_of_apply_doc. split; [done|].
    destruct (switcher_of_Some _ _ Hp) as (es & css & Hats & _).
    assert (record_at p (document st) = Some es) as Hrs by (apply record_at_Some; eauto).
    rewrite apply_doc_record, Hrs, Hp.
    destruct (decide (Some p = Some p)) as [_|]; [|done]. simpl.
    eexists. split; [done|]. split; [apply reposition_left|apply reposition_right].
  - unfold exec at 1.
    rewrite (applyLanguage_run st' b) by (by rewrite Hd, body_path_apply_doc).
    simpl. rewrite Hl, Hd. apply apply_doc_idempotent.
Qed.

(** ** [createLanguageSwitcher] *)

Lemma select_list_nil (sel : element → bool) (k : nat) (l : list node) :
  select_list sel k l = [] ↔ Forall (λ c, select sel c = []) l.
Proof.
  revert k. induction l as [|c l IH]; intros k; simpl.
  - split; [constructor|done].
  - split.
    + intros [Hc Hl]%app_eq_nil. constructor.
      * by apply fmap_nil_inv in Hc.
      * by apply (IH (S k)).
    + intros Hcl. inversion Hcl as [|? ? Hc Hl]; subst.
      rewrite Hc. simpl. by apply IH.
Qed.

Lemma select_list_alter_only (sel : element → bool) (f : node → node)
    (k i : nat) (l : list node) (c : node) :
  Forall (λ c, select sel c = []) l → l !! i = Some c →
  select_list sel k (alter f i l) = cons (k + i) <$> select sel (f c).
Proof.
  intros Hl. revert k i. induction Hl as [|c0 l Hc0 Hl IH]; intros k [|i]; try done.
  - intros [= ->]. change (alter f 0 (c :: l)) with (f c :: l). simpl.
    rewrite (proj2 (select_list_nil sel (S k) l)) by done.
    by rewrite app_nil_r, Nat.add_0_r.
  - intros Hi. change (alter f (S i) (c0 :: l)) with (c0 :: alter f i l). simpl.
    rewrite Hc0. simpl. rewrite (IH (S k) i Hi). do 2 f_equal. lia.
Qed.

(** Appending a child to an element of a document in which the selector
    matches nothing: the matches are those inside the new child. *)
Lemma select_appended (sel : element → bool) (n : node) (p : path) (d : node)
    (e : element) (cs : list node) :
  select sel d = [] → elem_at p d = Some (e, cs) →
  select sel (alter_at (on_children (λ cs, cs ++ [n])) p d) =
  (λ q, p ++ length cs :: q) <$> select sel n.
Proof.
  revert d. induction p as [|i p IH]; intros d Hd Hat.
  - destruct d as [s|e' cs']; [done|]. rewrite elem_at_nil in Hat. injection Hat as -> ->.
    rewrite select_Elem in Hd. apply app_eq_nil in Hd as [He Hcs].
    simpl alter_at. rewrite select_Elem, He, select_list_app, Hcs. simpl.
    by rewrite app_nil_r.
  - destruct d as [s|e' cs']; [done|]. rewrite elem_at_cons in Hat.
    destruct (cs' !! i) as [c|] eqn:Hi; [|done].
    rewrite select_Elem in Hd. apply app_eq_nil in Hd as [He Hcs].
    apply select_list_nil in Hcs.
    rewrite alter_at_cons, select_Elem, He. simpl.
    rewrite (select_list_alter_only sel _ 0 i cs' c) by done.
    rewrite IH; [|by eapply Forall_lookup_1 in Hcs|done].
    rewrite <- list_fmap_compose. done.
Qed.

Lemma node_at_appended (n : node) (p : path) (d : node) (e : element) (cs : list node) :
  elem_at p d = Some (e, cs) →
  node_at (p ++ [length cs]) (alter_at (on_children (λ cs, cs ++ [n])) p d) = Some n.
Proof.
  revert d. induction p as [|i p IH]; intros d Hat.
  - destruct d as [s|e' cs']; [done|]. rewrite elem_at_nil in Hat. injection Hat as -> ->.
    simpl. rewrite lookup_app_r by done. by rewrite Nat.sub_diag.
  - destruct d as [s|e' cs']; [done|]. rewrite elem_at_cons in Hat.
    destruct (cs' !! i) as [c|] eqn:Hi; [|done].
    rewrite alter_at_cons. simpl. rewrite list_lookup_alter_eq, Hi. simpl. by apply IH.
Qed.

Lemma switcher_of_None (d : node) :
  switcher_of d = None ↔ select (has_class "language-switcher") d = [].
Proof. unfold switcher_of. by destruct (select _ d). Qed.

Lemma select_new_switcher (lang : string) :
  select (has_class "language-switcher") (new_switcher lang) = [[]].
Proof.
  unfold new_switcher, languages, lang_button. rewrite select_Elem.
  cbn -[String.eqb]. by repeat destruct (String.eqb _ lang).
Qed.

(** The new switcher holds one control per language of the list, in its
    order, and marks the one whose code is the active locale. *)
Lemma new_switcher_controls (lang : string) :
  control_of <$> children_of (new_switcher lang) =
  (λ l, (l.2, Some l.1, bool_decide (l.1 = lang), bool_decide (l.1 = lang))) <$> languages.
Proof.
  unfold new_switcher, languages, lang_button. cbn -[String.eqb].
  repeat match goal with
  | |- context [String.eqb ?c lang] =>
      destruct (String.eqb_spec c lang);
      [rewrite (bool_decide_eq_true_2 (c = lang)) by done
      |rewrite (bool_decide_eq_false_2 (c = lang)) by done]
  end; reflexivity.
Qed.

Lemma createLanguageSwitcher_existing (st : state) :
  is_Some (switcher_of (document st)) → createLanguageSwitcher st = (inr tt, st).
Proof.
  intros [p Hp]. unfold createLanguageSwitcher. rewrite run_bind. simpl.
  fold (switcher_of (document st)). by rewrite Hp.
Qed.

Lemma createLanguageSwitcher_new (st : state) (b : path) :
  switcher_of (document st) = None → body_path (document st) = Some b →
  createLanguageSwitcher st =
    (inr tt, emit (AppendChild b (new_switcher (currentLang st)))
               (with_document
                  (alter_at (on_children (λ cs, cs ++ [new_switcher (currentLang st)])) b
                     (document st)) st)).
Proof.
  intros Hsw Hb. unfold createLanguageSwitcher. rewrite run_bind. simpl.
  fold (switcher_of (document st)). rewrite Hsw.
  rewrite run_bind. simpl. rewrite run_bind, (body_run _ b) by done.
  unfold appendChild. rewrite mutate_run; [done|].
  destruct (body_path_Some _ _ Hb) as (e & cs & -> & _). eauto.
Qed.

Lemma createLanguageSwitcher_no_body (st : state) :
  switcher_of (document st) = None → body_path (document st) = None →
  createLanguageSwitcher st = (inl TypeError, st).
Proof.
  intros Hsw Hb. unfold createLanguageSwitcher. rewrite run_bind. simpl.
  fold (switcher_of (document st)). rewrite Hsw.
  rewrite run_bind. simpl. rewrite run_bind. unfold body. rewrite run_bind. simpl.
  by rewrite Hb.
Qed.

(** ** The restyling of the controls in [changeLanguage] *)

Lemma restyle_styled (a : bool) (e : element) : styled a (restyle a e).
Proof.
  unfold styled, restyle. destruct a; simpl.
  - split; [|split].
    + split; [done|]. intros _. case_bool_decide; [done|].
      apply elem_of_app. right. by apply list_elem_of_singleton.
    + rewrite lookup_insert_ne by done. apply lookup_insert_eq.
    + apply lookup_insert_eq.
  - split; [|split].
    + split; [|done]. by intros [Hne _]%list_elem_of_filter.
    + rewrite lookup_insert_ne by done. apply lookup_insert_eq.
    + apply lookup_insert_eq.
Qed.

Lemma has_class_restyle (c : string) (a : bool) (e : element) :
  c ≠ "active" → has_class c (restyle a e) = has_class c e.
Proof.
  intros Hc. unfold restyle. destruct a; rewrite !has_class_set_style.
  - by apply has_class_add_class.
  - by apply has_class_remove_class.
Qed.

Lemma tag_restyle (a : bool) (e : element) : tag (restyle a e) = tag e.
Proof. unfold restyle. by destruct a. Qed.

Lemma styled_direct (a : bool) (lang : string) (e : element) :
  styled a e → styled a (direct lang e).
Proof.
  intros (Hc & Hb & Hk). unfold styled.
  assert (has_class "active" (direct lang e) = has_class "active" e) as Hcl
    by (by apply has_class_direct).
  unfold has_class in Hcl.
  rewrite <- (bool_decide_eq_true ("active" ∈ classList (direct lang e))), Hcl,
    bool_decide_eq_true.
  split; [done|]. unfold direct.
  destruct (is_rtl lang); simpl; by rewrite !lookup_insert_ne.
Qed.

Lemma styled_reposition (a : bool) (lang : string) (e : element) :
  styled a e → styled a (reposition lang e).
Proof.
  intros (Hc & Hb & Hk). unfold styled.
  rewrite reposition_classList, !reposition_other by done. done.
Qed.

Lemma isActive_spec (lang text : string) :
  isActive lang text = true ↔ (lang, text) ∈ languages.
Proof.
  unfold isActive, languages.
  rewrite !orb_true_iff, !andb_true_iff, !String.eqb_eq.
  rewrite !elem_of_cons, elem_of_nil. split.
  - intros [[[[-> ->]|[-> ->]]|[-> ->]]|[-> ->]]; auto 6.
  - intros [[= -> ->]|[[= -> ->]|[[= -> ->]|[[= -> ->]|[]]]]]; auto 6.
Qed.

Lemma text_at_restyle_step (lang : string) (p q : path) (d : node) :
  text_at q (restyle_step lang d p) = text_at q d.
Proof.
  unfold restyle_step, text_at. destruct (node_at p d); [|done].
  apply node_text_on_elem.
Qed.

Lemma record_at_restyle_step (lang : string) (p q : path) (d : node) :
  record_at q (restyle_step lang d p) =
  if decide (q = p)
  then restyle (isActive lang (default "" (text_at p d))) <$> record_at q d
  else record_at q d.
Proof.
  unfold restyle_step, text_at. destruct (node_at p d) as [n|] eqn:Hn; simpl.
  - apply record_at_on_elem.
  - case_decide as Hq; [|done]. subst q.
    unfold record_at, elem_at. by rewrite Hn.
Qed.

Lemma record_at_restyle_steps_other (lang : string) (l : list path) (q : path) (d : node) :
  q ∉ l → record_at q (foldl (restyle_step lang) d l) = record_at q d.
Proof.
  revert d. induction l as [|p l IH]; intros d; simpl; [done|].
  intros [Hqp Hql]%not_elem_of_cons.
  rewrite IH by done. rewrite record_at_restyle_step. by case_decide.
Qed.

(** After the loop every button it went over is marked by its label. *)
Lemma record_at_restyle_steps (lang : string) (l : list path) (q : path) (d : node)
    (e' : element) :
  q ∈ l → record_at q (foldl (restyle_step lang) d l) = Some e' →
  styled (isActive lang (default "" (text_at q d))) e'.
Proof.
  revert d. induction l as [|p l IH]; intros d; simpl; [by intros ?%elem_of_nil|].
  intros Hq Hrec. destruct (decide (q ∈ l)) as [Hin|Hnin].
  - rewrite <- (text_at_restyle_step lang p q d). by apply IH.
  - apply elem_of_cons in Hq as [->|Hq]; [|done].
    rewrite record_at_restyle_steps_other in Hrec by done.
    rewrite record_at_restyle_step in Hrec.
    destruct (decide (p = p)) as [_|]; [|done].
    destruct (record_at p d) as [e|]; [|done]. injection Hrec as <-.
    apply restyle_styled.
Qed.

Lemma select_restyle_steps (sel : element → bool) (lang : string) (l : list path) (d : node) :
  (∀ a e, sel (restyle a e) = sel e) →
  select sel (foldl (restyle_step lang) d l) = select sel d.
Proof.
  intros Hsel. revert d. induction l as [|p l IH]; intros d; simpl; [done|].
  rewrite IH. unfold restyle_step. destruct (node_at p d); [|done].
  by apply select_on_elem.
Qed.

Lemma body_path_restyle_steps (lang : string) (l : list path) (d : node) :
  body_path (foldl (restyle_step lang) d l) = body_path d.
Proof.
  revert d. induction l as [|p l IH]; intros d; simpl; [done|].
  rewrite IH. unfold restyle_step. destruct (node_at p d); [|done].
  apply body_path_on_elem, tag_restyle.
Qed.

Lemma restyle_button_run (lang : string) (p : path) (st : state) :
  ∃ tr, restyle_button lang p st =
          (inr tt, State (currentLang st) (localStorage st) (storage_full st)
                     (restyle_step lang (document st) p) (trace st ++ tr)) ∧
        Forall is_restyle tr.
Proof.
  destruct st as [cl sto full d tr0]. unfold restyle_button, restyle_step.
  rewrite run_bind. simpl.
  destruct (node_at p d) as [n|] eqn:Hn; [|exists []; by rewrite app_nil_r].
  destruct n as [s|e cs].
  { (* a text node under the path: the three writes land nowhere *)
    assert (elem_at p d = None) as Hat by (unfold elem_at; by rewrite Hn).
    assert (∀ f, alter_at (on_elem f) p d = d) as Hid.
    { intros f. apply alter_at_on_elem_id. intros e.
      unfold record_at. by rewrite Hat. }
    exists []. rewrite app_nil_r, Hid. split; [|constructor].
    destruct (isActive lang (textContent (Text s)));
      unfold classList_add, classList_remove, style_set.
    all: rewrite run_bind, mutate_detached by done.
    all: rewrite run_bind, mutate_detached by done.
    all: by rewrite mutate_detached. }
  assert (is_Some (elem_at p d)) as Hat by (unfold elem_at; rewrite Hn; eauto).
  destruct (isActive lang (textContent (Elem e cs))).
  - exists [ClassAdd p "active"; StyleSet p "background" "#FF6B6B"; StyleSet p "color" "white"].
    split; [|repeat (apply Forall_cons_2; [simpl; auto|]); apply Forall_nil_2].
    unfold classList_add, style_set.
    rewrite run_bind, mutate_run by done. simpl.
    rewrite run_bind, mutate_run by (simpl; by apply elem_at_on_elem_is_Some). simpl.
    rewrite mutate_run by (simpl; by do 2 apply elem_at_on_elem_is_Some). simpl.
    unfold emit, with_document. simpl. rewrite !on_elem_compose, <- !app_assoc. reflexivity.
  - exists [ClassRemove p "active"; StyleSet p "background" "transparent";
            StyleSet p "color" "#2D3436"].
    split; [|repeat (apply Forall_cons_2; [simpl; auto|]); apply Forall_nil_2].
    unfold classList_remove, style_set.
    rewrite run_bind, mutate_run by done. simpl.
    rewrite run_bind, mutate_run by (simpl; by apply elem_at_on_elem_is_Some). simpl.
    rewrite mutate_run by (simpl; by do 2 apply elem_at_on_elem_is_Some). simpl.
    unfold emit, with_document. simpl. rewrite !on_elem_compose, <- !app_assoc. reflexivity.
Qed.

Lemma forEach_restyle_run (lang : string) (l : list path) (st : state) :
  ∃ tr, forEach l (restyle_button lang) st =
          (inr tt, State (currentLang st) (localStorage st) (storage_full st)
                     (foldl (restyle_step lang) (document st) l) (trace st ++ tr)) ∧
        Forall is_restyle tr.
Proof.
  revert st. induction l as [|p l IH]; intros st; simpl.
  - exists []. rewrite app_nil_r. by destruct st.
  - destruct (restyle_button_run lang p st) as (tr1 & Hrun1 & Htr1).
    rewrite run_bind, Hrun1.
    edestruct IH as (tr2 & Hrun2 & Htr2). rewrite Hrun2. simpl.
    exists (tr1 ++ tr2). rewrite app_assoc. split; [done|]. by apply Forall_app.
Qed.

(** ** The keys of a document

    Restyling, laying out and appending the switcher change no
    [data-translate] attribute and add no keyed element: the walks that
    [translatePage] makes afterwards are those of the keys the document
    had. *)

Lemma keys_on_elem (f : element → element) (p q : path) (d : node) :
  (∀ e, data_translate (f e) = data_translate e) →
  data_translate <$> record_at q (alter_at (on_elem f) p d) =
  data_translate <$> record_at q d.
Proof.
  intros Hf. rewrite record_at_on_elem. case_decide; [|done].
  destruct (record_at q d); simpl; [by rewrite Hf|done].
Qed.

Lemma data_translate_restyle (a : bool) (e : element) :
  data_translate (restyle a e) = data_translate e.
Proof. by destruct a. Qed.

Lemma data_translate_direct (lang : string) (e : element) :
  data_translate (direct lang e) = data_translate e.
Proof. unfold direct. by destruct (is_rtl lang). Qed.

Lemma data_translate_reposition (lang : string) (e : element) :
  data_translate (reposition lang e) = data_translate e.
Proof. unfold reposition. by destruct (is_rtl lang). Qed.

Lemma keys_restyle_doc (lang : string) (q : path) (d : node) :
  data_translate <$> record_at q (restyle_doc lang d) = data_translate <$> record_at q d.
Proof.
  unfold restyle_doc. generalize (select (has_class "lang-btn") d). intros l.
  revert d. induction l as [|p l IH]; intros d; simpl; [done|].
  rewrite IH. unfold restyle_step. destruct (node_at p d); [|done].
  apply keys_on_elem, data_translate_restyle.
Qed.

Lemma keys_apply_doc (lang : string) (b q : path) (d : node) :
  data_translate <$> record_at q (apply_doc lang b d) = data_translate <$> record_at q d.
Proof.
  unfold apply_doc. destruct (switcher_of d).
  - rewrite !keys_on_elem; auto using data_translate_direct, data_translate_reposition.
  - rewrite keys_on_elem; auto using data_translate_direct.
Qed.

(** An element of a document with one more child under [b] is an element
    of the old document or of the new child. *)
Lemma record_at_appended (n : node) (b q : path) (d : node) (e' : element) :
  record_at q (alter_at (on_children (λ cs, cs ++ [n])) b d) = Some e' →
  record_at q d = Some e' ∨ ∃ r, record_at r n = Some e'.
Proof.
  revert q d. induction b as [|j b IH]; intros q d.
  - destruct d as [s|e cs]; [by left|]. simpl alter_at. simpl on_children.
    destruct q as [|i q]; [by left|]. rewrite !record_at_cons.
    destruct (decide (i < length cs)%nat) as [Hi|Hi].
    + rewrite lookup_app_l by done. by left.
    + rewrite lookup_app_r by lia.
      destruct (i - length cs) as [|k]; simpl; [|done]. eauto.
  - destruct d as [s|e cs]; [by left|]. rewrite alter_at_cons.
    destruct q as [|i q]; [by left|]. rewrite !record_at_cons, list_lookup_alter.
    case_decide as Hij; [subst i|by left].
    destruct (cs !! j) as [c|]; simpl; [apply IH|done].
Qed.

Lemma record_at_appended_old (n : node) (b q : path) (d : node) (e' : element) :
  record_at q d = Some e' →
  record_at q (alter_at (on_children (λ cs, cs ++ [n])) b d) = Some e'.
Proof.
  revert q d. induction b as [|j b IH]; intros q d.
  - destruct d as [s|e cs]; [done|]. simpl alter_at. simpl on_children.
    destruct q as [|i q]; [done|]. rewrite !record_at_cons.
    destruct (cs !! i) as [c|] eqn:Hi; [|done].
    by rewrite (lookup_app_l_Some _ _ _ _ Hi).
  - destruct d as [s|e cs]; [done|]. rewrite alter_at_cons.
    destruct q as [|i q]; [done|]. rewrite !record_at_cons, list_lookup_alter.
    case_decide as Hij; [subst i|done].
    destruct (cs !! j) as [c|]; simpl; [apply IH|done].
Qed.

Lemma new_switcher_unkeyed (lang : string) (r : path) (e : element) :
  record_at r (new_switcher lang) = Some e → data_translate e = None.
Proof.
  unfold new_switcher. destruct r as [|i r]; [by intros [= <-]|].
  rewrite record_at_cons, list_lookup_fmap.
  destruct (languages !! i) as [l|]; [|done]. simpl. unfold lang_button.
  destruct r as [|j r]; [by intros [= <-]|].
  unfold record_at. by rewrite elem_at_text_children.
Qed.

Section Keys.
Context `{Host}.

Lemma walks_return_keys (lang : string) (d d' : node) :
  (∀ q, data_translate <$> record_at q d' = data_translate <$> record_at q d) →
  walks_return lang d → walks_return lang d'.
Proof.
  intros Hkeys Hret q e' He'. specialize (Hkeys q). rewrite He' in Hkeys.
  destruct (record_at q d) as [e|] eqn:He; [|done]. injection Hkeys as Hk.
  rewrite (walk_error_same_key lang e e') by done. by eapply Hret.
Qed.

Lemma walks_return_rendered (lang l1 l2 : string) (b : path) (d : node) :
  walks_return lang (apply_doc l1 b (restyle_doc l2 d)) ↔ walks_return lang d.
Proof.
  split; apply walks_return_keys; intros q; by rewrite keys_apply_doc, keys_restyle_doc.
Qed.

Lemma walks_return_apply_doc (lang l : string) (b : path) (d : node) :
  walks_return lang (apply_doc l b d) ↔ walks_return lang d.
Proof. split; apply walks_return_keys; intros q; by rewrite keys_apply_doc. Qed.

Lemma walks_return_with_switcher (lang l : string) (b : path) (d : node) :
  walks_return lang (with_switcher l b d) ↔ walks_return lang d.
Proof.
  unfold with_switcher. destruct (switcher_of d); [done|]. split.
  - intros Hret q e He. apply (Hret q). by apply record_at_appended_old.
  - intros Hret q e [He|[r He]]%record_at_appended; [by eapply Hret|].
    apply walk_error_unkeyed. by eapply new_switcher_unkeyed.
Qed.

End Keys.

(** ** [changeLanguage]: what has happened when it returns *)

Section ChangeLanguage.
Context `{Host}.

Lemma rerender_outcome (lang : string) (st : state) (b : path) :
  body_path (document st) = Some b →
  let out :=
    translate_doc (currentLang st)
      (apply_doc (currentLang st) b (restyle_doc lang (document st))) in
  ∃ t_btn t_txt,
    rerender lang st =
      (out.1, State (currentLang st) (localStorage st) (storage_full st) out.2
                (trace st ++ t_btn ++
                 apply_trace (currentLang st) b (switcher_of (document st)) ++
                 t_txt ++
                 match out.1 with
                 | inr _ => [DispatchEvent "languageChanged" [("language", lang)]]
                 | inl _ => []
                 end)) ∧
    Forall is_restyle t_btn ∧ Forall is_text_set t_txt.
Proof.
  intros Hb out. unfold rerender. rewrite run_bind. simpl.
  destruct (forEach_restyle_run lang (select (has_class "lang-btn") (document st)) st)
    as (t_btn & Hrun1 & Hbtn).
  rewrite run_bind, Hrun1. fold (restyle_doc lang (document st)).
  rewrite run_bind, (applyLanguage_run _ b)
    by (simpl; unfold restyle_doc; by rewrite body_path_restyle_steps).
  simpl.
  assert (switcher_of (restyle_doc lang (document st)) = switcher_of (document st)) as ->.
  { unfold switcher_of, restyle_doc. rewrite select_restyle_steps; [done|].
    intros a e. by apply has_class_restyle. }
  match goal with |- context [_ (State ?a ?b' ?c ?d ?e)] =>
    destruct (translatePage_outcome (State a b' c d e)) as (t_txt & Hrun3 & Htxt) end.
  exists t_btn, t_txt.
  split; [|split; [done|by eapply Forall_impl; [|apply written_is_text_set]]].
  rewrite run_bind, Hrun3. simpl. fold out.
  destruct out.1 as [ex|[]]; simpl.
  - by rewrite app_nil_r, <- !app_assoc.
  - unfold dispatchEvent, modify, emit. simpl. by rewrite <- !app_assoc.
Qed.

(** C6, as the code has it.  When the storage takes the write and the
    document has a body, [changeLanguage lang] sets the active locale,
    stores it, restyles the controls, applies the directionality and
    translates the keyed elements, in this order: every control of the old
    document is marked by whether its label is the one of [lang], and the
    body and the switcher are laid out for [lang].  It returns exactly
    when no key of the document makes a read throw; it then has translated
    the whole document, every element whose key resolves for [lang] shows
    the text the key names, and [languageChanged] with [{ language: lang }]
    is dispatched last.  When a walk throws, the exception leaves
    [changeLanguage] and no event is dispatched. *)
Theorem changeLanguage_sequence (lang : string) (st : state) (b : path) :
  storage_full st = false →
  body_path (document st) = Some b →
  let st' := exec (changeLanguage lang) st in
  (result (changeLanguage lang) st = inr tt ↔ walks_return lang (document st)) ∧
  currentLang st' = lang ∧
  localStorage st' !! "userLanguage" = Some lang ∧
  (∃ t_btn t_txt,
     trace st' =
       trace st ++ [SetCurrentLang lang; StorageSetItem "userLanguage" lang] ++ t_btn ++
       apply_trace lang b (switcher_of (document st)) ++ t_txt ++
       match result (changeLanguage lang) st with
       | inr _ => [DispatchEvent "languageChanged" [("language", lang)]]
       | inl _ => []
       end ∧
     Forall is_restyle t_btn ∧ Forall is_text_set t_txt) ∧
  (∀ q label e', q ∈ select (has_class "lang-btn") (document st) →
     text_at q (document st) = Some label →
     record_at q (document st') = Some e' →
     styled (isActive lang label) e' ∧
     (isActive lang label = true ↔ (lang, label) ∈ languages)) ∧
  (∀ e', record_at b (document st') = Some e' →
     ("rtl" ∈ classList e' ↔ is_rtl lang = true) ∧
     style e' !! "direction" = Some (if is_rtl lang then "rtl" else "ltr")) ∧
  (∀ p e', switcher_of (document st) = Some p →
     record_at p (document st') = Some e' →
     style e' !! "left" = Some (if is_rtl lang then "2rem" else "auto") ∧
     style e' !! "right" = Some (if is_rtl lang then "auto" else "2rem")) ∧
  (walks_return lang (document st) →
     document st' =
       translate_tree lang (apply_doc lang b (restyle_doc lang (document st))) ∧
     (∀ q e' cs' s, elem_at q (document st') = Some (e', cs') →
        translation_of lang e' = Some s → cs' = text_children s) ∧
     (∀ q e' cs' key table s, elem_at q (document st') = Some (e', cs') →
        data_translate e' = Some key →
        get_prop translations lang = inr table →
        walk_ends table (split_dot key) (VStr s) →
        cs' = text_children s)).
Proof.
  intros Hfull Hb st'.
  pose proof (changeLanguage_run lang st) as Hrun. simpl in Hrun. rewrite Hfull in Hrun.
  match type of Hrun with _ = rerender _ ?s =>
    destruct (rerender_outcome lang s b Hb) as (t_btn & t_txt & Hre & Hbtn & Htxt) end.
  rewrite Hre in Hrun. simpl in Hrun. clear Hre.
  set (d1 := apply_doc lang b (restyle_doc lang (document st))) in *.
  assert (result (changeLanguage lang) st = (translate_doc lang d1).1) as Hres
    by (unfold result; by rewrite Hrun).
  assert (document st' = (translate_doc lang d1).2) as Hd
    by (unfold st', exec; by rewrite Hrun).
  assert (result (changeLanguage lang) st = inr tt ↔ walks_return lang (document st))
    as Hiff.
  { rewrite Hres, translate_doc_result. apply walks_return_rendered. }
  split; [exact Hiff|].
  split; [unfold st', exec; by rewrite Hrun|].
  split; [unfold st', exec; rewrite Hrun; apply lookup_insert_eq|].
  split.
  { exists t_btn, t_txt. split; [|done]. unfold st', exec. rewrite Hres, Hrun. simpl.
    by rewrite <- !app_assoc. }
  (* the record of an element that is still in the document *)
  assert (∀ q e', record_at q (document st') = Some e' → record_at q d1 = Some e')
    as Hkeep.
  { intros q e'. rewrite Hd. apply record_at_translate_doc. }
  split; [|split; [|split]].
  - intros q label e' Hq Hlabel He'. split; [|apply isActive_spec].
    apply Hkeep in He'. unfold d1 in He'. rewrite apply_doc_record in He'.
    destruct (record_at q (restyle_doc lang (document st))) as [e1|] eqn:He1; [|done].
    apply (record_at_restyle_steps lang) in He1; [|done].
    rewrite Hlabel in He1. simpl in He1, He'. injection He' as <-.
    repeat case_decide; simpl;
      repeat first [apply styled_reposition | apply styled_direct]; done.
  - intros e' He'. apply Hkeep in He'. unfold d1 in He'. rewrite apply_doc_record in He'.
    destruct (decide (b = b)) as [_|]; [|done].
    destruct (record_at b (restyle_doc lang (document st))) as [e1|]; [|done].
    simpl in He'. case_decide; injection He' as <-; simpl.
    + rewrite reposition_classList, reposition_other by done.
      split; [apply direct_class|apply direct_direction].
    + split; [apply direct_class|apply direct_direction].
  - intros p e' Hp He'. apply Hkeep in He'. unfold d1 in He'. rewrite apply_doc_record in He'.
    assert (switcher_of (restyle_doc lang (document st)) = Some p) as Hp'.
    { rewrite <- Hp. unfold switcher_of, restyle_doc.
      rewrite select_restyle_steps; [done|]. intros a e. by apply has_class_restyle. }
    rewrite Hp' in He'. destruct (decide (Some p = Some p)) as [_|]; [|done].
    destruct ((if decide (p = b) then direct lang else id) <$>
              record_at p (restyle_doc lang (document st))) as [e1|]; [|done].
    injection He' as <-. split; [apply reposition_left|apply reposition_right].
  - intros Hret.
    assert (document st' = translate_tree lang d1) as Hd'.
    { rewrite Hd, translate_doc_returns; [done|]. by apply walks_return_rendered. }
    assert (∀ q e' cs' s, elem_at q (document st') = Some (e', cs') →
              translation_of lang e' = Some s → cs' = text_children s) as Hshown.
    { intros q e' cs' s Hat. rewrite Hd' in Hat.
      apply elem_at_translate_tree in Hat as [_ Hs]. apply Hs. }
    split; [exact Hd'|]. split; [exact Hshown|].
    intros q e' cs' key table s Hat Hkey Htable Hw. apply (Hshown q e' cs' s Hat).
    by eapply translation_of_walk_ends.
Qed.

End ChangeLanguage.

(** ** Locale state: [currentLang], [changeLanguage] *)

Section Locale.
Context `{Host}.

Lemma changeLanguage_currentLang (lang : string) (st : state) :
  currentLang (exec (changeLanguage lang) st) = lang.
Proof.
  unfold exec. rewrite changeLanguage_run. simpl.
  destruct (storage_full st); [done|].
  by rewrite (proj1 (dom_only_rerender lang _)).
Qed.

Lemma changeLanguage_storage (lang : string) (st : state) :
  storage_full st = false →
  localStorage (exec (changeLanguage lang) st) = <["userLanguage":=lang]> (localStorage st).
Proof.
  intros Hfull. unfold exec. rewrite changeLanguage_run. simpl. rewrite Hfull.
  by rewrite (proj1 (proj2 (dom_only_rerender lang _))).
Qed.

(** C1, as the code has it: [changeLanguage] validates nothing.  Whatever
    code it is given, supported or not, becomes the active locale, and is
    the value kept under [userLanguage] whenever the storage accepts the
    write. *)
Theorem changeLanguage_sets_any_code (lang : string) (st : state) :
  currentLang (exec (changeLanguage lang) st) = lang ∧
  (storage_full st = false →
   localStorage (exec (changeLanguage lang) st) !! "userLanguage" = Some lang).
Proof.
  split; [apply changeLanguage_currentLang|].
  intros Hfull. rewrite changeLanguage_storage by done. apply lookup_insert_eq.
Qed.

(** C4, as the code has it: when [setItem] throws, the assignment to
    [currentLang] has already happened, the exception leaves
    [changeLanguage], and nothing that follows the write runs: the
    document is as before and no event is dispatched. *)
Theorem changeLanguage_storage_failure (lang : string) (st : state) :
  storage_full st = true →
  changeLanguage lang st =
    (inl QuotaExceededError, emit (SetCurrentLang lang) (with_currentLang lang st)).
Proof. intros Hfull. rewrite changeLanguage_run. simpl. by rewrite Hfull. Qed.

End Locale.

Lemma changeLanguage_sets_any_code_witness :
  currentLang (exec (@changeLanguage bare_host "ru") (sample_state "en" false)) = "ru" ∧
  localStorage (exec (@changeLanguage bare_host "ru") (sample_state "en" false))
    !! "userLanguage" = Some "ru".
Proof.
  destruct (@changeLanguage_sets_any_code bare_host "ru" (sample_state "en" false))
    as [H1 H2].
  split; [exact H1|]. apply H2. reflexivity.
Defined.

Lemma fr_unsupported : "fr" ∉ supported.
Proof.
  intros Hin. unfold supported in Hin.
  repeat (apply elem_of_cons in Hin as [?|Hin]; [discriminate|]).
  by apply elem_of_nil in Hin.
Qed.

(** C1 fails as stated: an unsupported code is applied and persisted. *)
Lemma changeLanguage_unsupported_applied :
  ("fr" ∉ supported) ∧
  currentLang (exec (@changeLanguage bare_host "fr") (sample_state "en" false)) = "fr" ∧
  localStorage (exec (@changeLanguage bare_host "fr") (sample_state "en" false))
    !! "userLanguage" = Some "fr".
Proof. split; [apply fr_unsupported|]. by vm_compute. Qed.

Lemma changeLanguage_storage_failure_witness :
  @changeLanguage bare_host "ru" (sample_state "en" true) =
    (inl QuotaExceededError,
     emit (SetCurrentLang "ru") (with_currentLang "ru" (sample_state "en" true))).
Proof. apply changeLanguage_storage_failure. reflexivity. Defined.

(** C4 fails as stated: with a storage that refuses the write, the call
    ends in the exception, the document is untouched and nothing was
    dispatched. *)
Lemma changeLanguage_storage_failure_propagates :
  let st := sample_state "en" true in
  result (@changeLanguage bare_host "ru") st = inl QuotaExceededError ∧
  document (exec (@changeLanguage bare_host "ru") st) = document st ∧
  trace (exec (@changeLanguage bare_host "ru") st) = [SetCurrentLang "ru"].
Proof. by vm_compute. Qed.

(** ** Initialisation *)

(** C3, as the code has it: a missing or empty stored preference gives
    [en]; any other stored string is taken as it is, supported or not; and
    [init] leaves the active locale at that value. *)
Theorem initial_currentLang_spec `{Host} (storage : gmap string string) :
  (storage !! "userLanguage" = None → initial_currentLang storage = "en") ∧
  (storage !! "userLanguage" = Some "" → initial_currentLang storage = "en") ∧
  (∀ s, storage !! "userLanguage" = Some s → s ≠ "" → initial_currentLang storage = s) ∧
  (∀ full d, currentLang (load storage full d) = initial_currentLang storage ∧
             currentLang (exec init (load storage full d)) = initial_currentLang storage).
Proof.
  unfold initial_currentLang. repeat split.
  - by intros ->.
  - by intros ->.
  - intros s -> Hs. destruct (String.eqb_spec s ""); congruence.
  - unfold exec. by rewrite (proj1 (dom_only_init _)).
Qed.

Lemma initial_currentLang_spec_witness :
  initial_currentLang ∅ = "en" ∧
  initial_currentLang {["userLanguage" := ""]} = "en" ∧
  initial_currentLang {["userLanguage" := "ar"]} = "ar".
Proof.
  split; [|split].
  - destruct (@initial_currentLang_spec bare_host ∅) as (H1 & _). apply H1. reflexivity.
  - destruct (@initial_currentLang_spec bare_host {["userLanguage" := ""]}) as (_ & H2 & _).
    apply H2. reflexivity.
  - destruct (@initial_currentLang_spec bare_host {["userLanguage" := "ar"]})
      as (_ & _ & H3 & _).
    apply H3; [reflexivity|discriminate].
Defined.

(** C3 fails as stated: an unsupported stored value becomes the active
    locale, and [init] keeps it. *)
Lemma initial_currentLang_unsupported :
  ("fr" ∉ supported) ∧
  initial_currentLang {["userLanguage" := "fr"]} = "fr" ∧
  currentLang (exec (@init bare_host) (load {["userLanguage" := "fr"]} false sample_page)) = "fr".
Proof. split; [apply fr_unsupported|]. by vm_compute. Qed.
(** ** What [translatePage] writes and what it leaves *)

Section WriteFrame.
Context `{Host}.

(** Without built-in members, a walk ends inside the table it started on. *)
Lemma page_walk_subvalue (v u : value) (keys : list string) :
  (∀ w k, inherited w k = inr VUndef) →
  page_walk v keys = inr u → subvalue u v.
Proof.
  intros Hbare. revert v. induction keys as [|k keys IH]; intros v; simpl.
  - intros [= ->]. constructor.
  - destruct (truthy v) eqn:Hv; [|apply IH].
    rewrite get_prop_truthy by done.
    destruct (prop v k) as [ex|w] eqn:Hk; [done|].
    destruct (truthy w) eqn:Hw; [|apply IH].
    intros Hu. apply IH in Hu.
    destruct v as [| |s|n|fs|name]; simpl in Hk; rewrite ?Hbare in Hk;
      try (injection Hk as <-; done).
    destruct (assoc k fs) as [x|] eqn:Hx.
    + injection Hk as <-. by eapply subvalue_field.
    + by injection Hk as <-.
Qed.

(** A walk through own entries is the same walk whatever the built-ins. *)
Lemma own_walk_ends (v : value) (keys : list string) (u : value) :
  own_walk v keys u → walk_ends v keys u.
Proof.
  induction 1 as [v|fields k ks w u Hk Hw _ IH]; [constructor|].
  eapply ends_below; [done| |done..]. simpl. by rewrite Hk.
Qed.

Lemma own_walk_translation_of (lang attr s : string) (e : element) :
  data_translate e = Some attr →
  own_walk translations (lang :: split_dot attr) (VStr s) →
  translation_of lang e = Some s.
Proof.
  intros He Hw. apply own_walk_ends in Hw.
  inversion Hw as [|v k ks w u Hv Hk Htr Hrest]; subst.
  by eapply translation_of_walk_ends.
Qed.

End WriteFrame.

Lemma own_walk_nav_table (a1 a2 a3 a4 a5 a6 a7 a8 a9 a10 s : string) (ks : list string) :
  own_walk (nav_table a1 a2 a3 a4 a5 a6 a7 a8 a9 a10) ks (VStr s) →
  ∃ k, ks = ["nav"; k] ∧ s ∈ [a1; a2; a3; a4; a5; a6; a7; a8; a9; a10].
Proof.
  unfold nav_table. intros Hw.
  inversion Hw as [|fields k ks1 w u Hk _ Hw1]; subst.
  simpl in Hk. destruct (String.eqb_spec k "nav") as [->|]; [|done]. injection Hk as <-.
  inversion Hw1 as [|fields k2 ks2 w2 u Hk2 _ Hw2]; subst.
  assert (ks2 = [] ∧ w2 = VStr s) as [-> ->].
  { simpl in Hk2.
    repeat (destruct (String.eqb k2 _);
            [injection Hk2 as <-; inversion Hw2; by subst|]).
    done. }
  exists k2. split; [done|]. simpl in Hk2.
  repeat (destruct (String.eqb k2 _);
          [injection Hk2 as <-; do 10 (try (by left); right)|]).
  done.
Qed.

(** A string that a key reaches through the entries of the tables is not
    the key: every such key has two segments, no text of the tables has. *)
Lemma own_walk_not_key (lang attr s : string) :
  own_walk translations (lang :: split_dot attr) (VStr s) → s ≠ attr.
Proof.
  intros Hw <-. unfold translations in Hw.
  inversion Hw as [|fields k ks w u Hk _ Hw1]; subst. simpl in Hk.
  repeat (destruct (String.eqb lang _);
    [injection Hk as <-; apply own_walk_nav_table in Hw1 as (k & Hsplit & Hin);
     rewrite !elem_of_cons, elem_of_nil in Hin;
     repeat (destruct Hin as [->|Hin]; [vm_compute in Hsplit; discriminate Hsplit|]);
     done|]).
  done.
Qed.

Section WriteFrameTheorem.
Context `{Host}.

(** C10, as the code has it: [translatePage] assigns a text only to an
    element that carries [data-translate] and whose walk ends on a string,
    and that string is what it assigns.  It has no fallback to the key: an
    element whose walk does not end on a string is assigned nothing, and
    the string that a key reaches through the entries of the tables is
    written and is not the key (it is a leaf of the table of the active
    locale when the page's built-ins add no member).  Every element still
    in the document keeps its record, and a node with no translated
    element above, at or below it is left as it was.  All of this holds
    whether the call returns or throws; it returns exactly when no key of
    the document makes a read throw. *)
Theorem translatePage_frame (st : state) :
  let lang := currentLang st in
  let st' := exec translatePage st in
  (result translatePage st = inr tt ↔ walks_return lang (document st)) ∧
  (∃ tr, trace st' = trace st ++ tr ∧ Forall (written (document st) lang) tr ∧
         ∀ p e cs s, elem_at p (document st) = Some (e, cs) →
                     translation_of lang e = None → TextContentSet p s ∉ tr) ∧
  (∀ e s, translation_of lang e = Some s →
     ∃ attr, data_translate e = Some attr ∧
             page_lookup translations lang attr = inr (VStr s)) ∧
  (∀ e attr s, data_translate e = Some attr →
     own_walk translations (lang :: split_dot attr) (VStr s) →
     translation_of lang e = Some s ∧ s ≠ attr) ∧
  ((∀ w k, inherited w k = inr VUndef) →
   ∀ e s, translation_of lang e = Some s →
     ∃ table, get_prop translations lang = inr table ∧ subvalue (VStr s) table) ∧
  (∀ q e', record_at q (document st') = Some e' → record_at q (document st) = Some e') ∧
  (∀ q n, node_at q (document st) = Some n →
     (∀ r e cs, elem_at r (document st) = Some (e, cs) → on_branch r q →
        translation_of lang e = None) →
     node_at q (document st') = Some n).
Proof.
  intros lang st'. destruct (translatePage_outcome st) as (tr & Hrun & Htr).
  assert (document st' = (translate_doc lang (document st)).2) as Hd
    by (unfold st', exec; by rewrite Hrun).
  assert (∀ e s, translation_of lang e = Some s →
            ∃ attr, data_translate e = Some attr ∧
                    page_lookup translations lang attr = inr (VStr s)) as Hwalk.
  { intros e s. unfold translation_of.
    destruct (data_translate e) as [attr|]; [|done].
    destruct (page_lookup translations lang attr) as [?|v] eqn:Hv; [done|].
    destruct v; try done. intros [= ->]. eauto. }
  split; [unfold result; rewrite Hrun; apply translate_doc_result|].
  split.
  { exists tr. split; [unfold st', exec; by rewrite Hrun|]. split; [done|].
    intros p e cs s Hat Hnone Hin. rewrite Forall_forall in Htr.
    destruct (Htr _ Hin) as (e' & cs' & Hat' & Hs).
    rewrite Hat in Hat'. injection Hat' as <- <-. unfold lang in Hnone. congruence. }
  split; [exact Hwalk|]. split; [|split; [|split]].
  - intros e attr s He Hw. split; [by eapply own_walk_translation_of|].
    by eapply own_walk_not_key.
  - intros Hbare e s Hs. destruct (Hwalk e s Hs) as (attr & _ & Hv).
    unfold page_lookup in Hv.
    destruct (get_prop translations lang) as [ex|table]; [done|].
    exists table. split; [done|]. by apply (page_walk_subvalue _ _ (split_dot attr)).
  - intros q e'. rewrite Hd. apply record_at_translate_doc.
  - intros q n Hn Hno. rewrite Hd.
    destruct (translate_doc_fold lang (document st)) as [ps ->].
    apply node_at_rewrite_steps_unchanged; [done|].
    intros r e cs Hat Hbr _. by eapply Hno.
Qed.

End WriteFrameTheorem.

Lemma translatePage_frame_witness :
  let st := State "he" ∅ false sample_page [] in
  result (@translatePage bare_host) st = inr tt ∧
  @translation_of bare_host "he" (Element "a" [] (Some "nav.profile") ∅ None) =
    Some "פרופיל" ∧
  "פרופיל" ≠ "nav.profile" ∧
  node_at [1; 1] (document (exec (@translatePage bare_host) st)) =
    Some (plain "p" [Text "Login"]).
Proof.
  intros st.
  destruct (@translatePage_frame bare_host st) as (Hres & _ & _ & Hown & _ & _ & Hsame).
  split; [apply Hres, bare_walks_return|].
  assert (own_walk translations ("he" :: split_dot "nav.profile") (VStr "פרופיל")) as Hw.
  { eapply own_below; [reflexivity..|]. eapply own_below; [reflexivity..|].
    eapply own_below; [reflexivity..|]. apply own_here. }
  destruct (Hown (Element "a" [] (Some "nav.profile") ∅ None) "nav.profile" "פרופיל"
              eq_refl Hw) as [Hs Hne].
  split; [exact Hs|]. split; [exact Hne|].
  apply Hsame; [reflexivity|].
  intros r e cs Hat [[k Hk]|[k Hk]].
  + destruct r as [|i [|j [|l r]]]; simpl in Hk; try discriminate Hk;
      simplify_eq; vm_compute in Hat; injection Hat as <- <-; reflexivity.
  + subst r. destruct k as [|[|i] [|j k]]; vm_compute in Hat; try discriminate Hat.
    injection Hat as <- <-. reflexivity.
Defined.

(** C10 fails as stated.  On the page below, for [he]: the walk of the
    block's key [nav] ends on a mapping, and the text of the block changes
    all the same, through the keyed label inside it; and the icon inside the
    keyed link, which has no [data-translate], is gone from the document. *)
Lemma translatePage_changes_unwritten :
  let d := document (exec (@translatePage bare_host) (State "he" ∅ false nested_page [])) in
  (∃ e cs, elem_at [1; 0] nested_page = Some (e, cs) ∧
           data_translate e = Some "nav" ∧
           @translation_of bare_host "he" e = None) ∧
  text_at [1; 0] nested_page = Some "Logout" ∧
  text_at [1; 0] d = Some "יציאה" ∧
  (∃ e cs, elem_at [1; 1; 0] nested_page = Some (e, cs) ∧ data_translate e = None) ∧
  elem_at [1; 1; 0] d = None.
Proof.
  intros d. split; [|split; [|split; [|split]]].
  - eexists _, _. split; [reflexivity|]. split; reflexivity.
  - reflexivity.
  - by vm_compute.
  - eexists _, _. split; reflexivity.
  - by vm_compute.
Qed.

(** ** At most one switcher *)

Lemma switcher_count_create (st : state) :
  (switcher_count (document st) ≤ 1 →
   switcher_count (document (exec createLanguageSwitcher st)) ≤ 1)%nat.
Proof.
  intros Hle. unfold switcher_count in *.
  destruct (switcher_of (document st)) as [p|] eqn:Hsw.
  - unfold exec. by rewrite createLanguageSwitcher_existing.
  - destruct (body_path (document st)) as [b|] eqn:Hb.
    + destruct (body_path_Some _ _ Hb) as (e & cs & Hat & _).
      unfold exec. rewrite (createLanguageSwitcher_new st b) by done. simpl.
      rewrite (select_appended _ _ b _ e cs); [|by apply switcher_of_None|done].
      by rewrite select_new_switcher.
    + unfold exec. by rewrite createLanguageSwitcher_no_body.
Qed.

Lemma applyLanguage_no_body (st : state) :
  body_path (document st) = None → applyLanguage st = (inl TypeError, st).
Proof.
  intros Hb. unfold applyLanguage. rewrite run_bind. simpl.
  destruct (_ || _); rewrite run_bind; unfold body; rewrite run_bind; simpl;
    by rewrite Hb.
Qed.

Lemma switcher_count_applyLanguage (st : state) :
  switcher_count (document (exec applyLanguage st)) = switcher_count (document st).
Proof.
  unfold switcher_count, exec. destruct (body_path (document st)) as [b|] eqn:Hb.
  - rewrite (applyLanguage_run st b Hb). simpl.
    unfold apply_doc. destruct (switcher_of (document st)).
    + rewrite !select_on_elem; [done|..].
      * intros e. by apply has_class_direct.
      * apply has_class_reposition.
    + rewrite select_on_elem; [done|]. intros e. by apply has_class_direct.
  - by rewrite applyLanguage_no_body.
Qed.

Section SwitcherInvariant.
Context `{Host}.

Lemma switcher_count_translatePage (st : state) :
  (switcher_count (document (exec translatePage st)) ≤ switcher_count (document st))%nat.
Proof.
  unfold switcher_count, exec.
  destruct (translatePage_outcome st) as (tr & -> & _). simpl.
  destruct (translate_doc_fold (currentLang st) (document st)) as [ps ->].
  apply select_rewrite_steps_length.
Qed.

Lemma switcher_count_init (st : state) :
  (switcher_count (document st) ≤ 1 → switcher_count (document (exec init st)) ≤ 1)%nat.
Proof.
  intros Hle. apply switcher_count_create in Hle.
  unfold init, exec in *. rewrite run_bind.
  destruct (createLanguageSwitcher st) as [[e|[]] st1]; simpl in *; [done|].
  rewrite run_bind.
  pose proof (switcher_count_applyLanguage st1) as Ha. unfold exec in Ha.
  destruct (applyLanguage st1) as [[e|[]] st2]; simpl in *; [lia|].
  pose proof (switcher_count_translatePage st2) as Ht. unfold exec in Ht. lia.
Qed.

Lemma switcher_count_changeLanguage (lang : string) (st : state) :
  (switcher_count (document (exec (changeLanguage lang) st)) ≤
   switcher_count (document st))%nat.
Proof.
  unfold exec. rewrite changeLanguage_run. cbv zeta.
  destruct (storage_full st); [done|].
  remember (emit (StorageSetItem "userLanguage" lang) _) as st1 eqn:Hst1.
  assert (document st = document st1) as -> by (by subst st1).
  clear Hst1.
  unfold rerender. rewrite run_bind. simpl.
  destruct (forEach_restyle_run lang (select (has_class "lang-btn") (document st1)) st1)
    as (tr & Hrun & _).
  rewrite run_bind, Hrun, run_bind.
  match goal with |- context [applyLanguage ?s] => set (st2 := s) end.
  assert (switcher_count (document st2) = switcher_count (document st1)) as <-.
  { unfold st2, switcher_count. simpl. rewrite select_restyle_steps; [done|].
    intros a e. by apply has_class_restyle. }
  clearbody st2.
  pose proof (switcher_count_applyLanguage st2) as Ha. unfold exec in Ha.
  destruct (applyLanguage st2) as [[e|[]] st3]; simpl in *; [lia|].
  rewrite run_bind.
  pose proof (switcher_count_translatePage st3) as Ht. unfold exec in Ht.
  destruct (translatePage st3) as [[e|[]] st4]; simpl in *; [lia|]. lia.
Qed.

(** C9: when a switcher is in the document, [createLanguageSwitcher]
    changes nothing.  When none is, it appends one to the body: the
    document then has exactly one switcher, with one control per supported
    locale, the control of the active locale marked and no other.  Calling
    it again changes nothing, and a document with at most one switcher
    keeps at most one, through [createLanguageSwitcher], [init] and
    [changeLanguage] alike. *)
Theorem createLanguageSwitcher_idempotent (st : state) :
  let st' := exec createLanguageSwitcher st in
  (is_Some (switcher_of (document st)) → createLanguageSwitcher st = (inr tt, st)) ∧
  (∀ b e cs, switcher_of (document st) = None → body_path (document st) = Some b →
     elem_at b (document st) = Some (e, cs) →
     result createLanguageSwitcher st = inr tt ∧
     select (has_class "language-switcher") (document st') = [b ++ [length cs]] ∧
     node_at (b ++ [length cs]) (document st') = Some (new_switcher (currentLang st)) ∧
     control_of <$> children_of (new_switcher (currentLang st)) =
       (λ l, (l.2, Some l.1, bool_decide (l.1 = currentLang st),
              bool_decide (l.1 = currentLang st))) <$> languages ∧
     languages.*1 = supported) ∧
  document (exec createLanguageSwitcher st') = document st' ∧
  (switcher_count (document st) ≤ 1 →
   switcher_count (document st') ≤ 1 ∧
   switcher_count (document (exec init st)) ≤ 1 ∧
   ∀ lang, switcher_count (document (exec (changeLanguage lang) st)) ≤ 1)%nat.
Proof.
  intros st'. split; [apply createLanguageSwitcher_existing|].
  assert (∀ b e cs, switcher_of (document st) = None → body_path (document st) = Some b →
            elem_at b (document st) = Some (e, cs) →
            select (has_class "language-switcher") (document st') = [b ++ [length cs]])
    as Hone.
  { intros b e cs Hsw Hb Hat. unfold st', exec.
    rewrite (createLanguageSwitcher_new st b) by done. simpl.
    rewrite (select_appended _ _ b _ e cs); [|by apply switcher_of_None|done].
    by rewrite select_new_switcher. }
  split; [|split].
  - intros b e cs Hsw Hb Hat. split; [|split; [|split; [|split; [|done]]]].
    + unfold result. by rewrite (createLanguageSwitcher_new st b).
    + by eapply Hone.
    + unfold st', exec. rewrite (createLanguageSwitcher_new st b) by done. simpl.
      by eapply node_at_appended.
    + apply new_switcher_controls.
  - destruct (switcher_of (document st)) as [p|] eqn:Hsw.
    + assert (st' = st) as ->.
      { unfold st', exec. by rewrite createLanguageSwitcher_existing. }
      unfold exec. by rewrite createLanguageSwitcher_existing.
    + destruct (body_path (document st)) as [b|] eqn:Hb.
      * destruct (body_path_Some _ _ Hb) as (e & cs & Hat & _).
        unfold exec at 1. rewrite createLanguageSwitcher_existing; [done|].
        unfold switcher_of. by rewrite (Hone b e cs).
      * assert (st' = st) as ->.
        { unfold st', exec. by rewrite createLanguageSwitcher_no_body. }
        unfold exec. by rewrite createLanguageSwitcher_no_body.
  - intros Hle. split; [by apply switcher_count_create|]. split.
    + by apply switcher_count_init.
    + intros lang. etrans; [apply switcher_count_changeLanguage|done].
Qed.

End SwitcherInvariant.

(** ** The search-and-replace fallback *)

Lemma assoc_cons {A : Type} (k k' : string) (v : A) (l : list (string * A)) :
  assoc k ((k', v) :: l) = if String.eqb k k' then Some v else assoc k l.
Proof. reflexivity. Qed.

Ltac assoc_cases :=
  repeat (rewrite assoc_cons;
          match goal with
          | |- context [String.eqb ?a ?b] => destruct (String.eqb_spec a b) as [->|_]
          end;
          [intros [= <-]|]);
  [..|by intros ?].

Lemma append_empty_r (s : string) : s +:+ "" = s.
Proof.
  induction s as [|c s IH]; [done|].
  change (String c (s +:+ "") = String c s). by rewrite IH.
Qed.

Lemma has_high_app (s1 s2 : string) :
  has_high (s1 +:+ s2) = has_high s1 || has_high s2.
Proof.
  induction s1 as [|c s1 IH]; [done|].
  change (high c || has_high (s1 +:+ s2) = high c || has_high s1 || has_high s2).
  by rewrite IH, orb_assoc.
Qed.

Lemma has_high_not_in (s : string) (ks : list string) :
  has_high s = true → Forall (λ k, has_high k = false) ks → s ∉ ks.
Proof.
  intros Hs Hks Hin. rewrite Forall_forall in Hks. apply Hks in Hin. congruence.
Qed.

Lemma textContent_text_children (e : element) (s : string) :
  textContent (Elem e (text_children s)) = s.
Proof.
  unfold text_children. destruct (String.eqb_spec s "") as [->|_]; [done|].
  simpl. apply append_empty_r.
Qed.

Lemma fallback_text_Some (english translated : string) (e : element) (cs : list node)
    (s : string) :
  fallback_text english translated e cs = Some s ↔
  textContent (Elem e cs) = english ∧ s = translated.
Proof.
  unfold fallback_text. destruct (String.eqb_spec (textContent (Elem e cs)) english).
  - split; [by intros [= <-]|by intros [_ ->]].
  - split; [done|by intros [? _]].
Qed.

Lemma fallback_text_None (english translated : string) (e : element) (cs : list node) :
  fallback_text english translated e cs = None ↔ textContent (Elem e cs) ≠ english.
Proof.
  unfold fallback_text. by destruct (String.eqb_spec (textContent (Elem e cs)) english).
Qed.

Section FallbackPass.
Variables english translated : string.
Hypothesis translated_high : has_high translated = true.

(** A pass changes the text of a node only by putting the translation
    somewhere inside it. *)
Lemma fallback_pass_text (n : node) :
  textContent (rewrite_tree (fallback_text english translated) n) = textContent n ∨
  has_high (textContent (rewrite_tree (fallback_text english translated) n)) = true.
Proof.
  induction n as [s|e cs IH] using node_ind'; [by left|].
  rewrite rewrite_tree_Elem.
  destruct (fallback_text english translated e cs) as [s|] eqn:Hft.
  - apply fallback_text_Some in Hft as [_ ->].
    right. by rewrite textContent_text_children.
  - rewrite !textContent_Elem. clear Hft.
    induction IH as [|c cs Hc _ IHcs]; [by left|].
    rewrite fmap_cons.
    change (textContent_list (?x :: ?l)) with (textContent x +:+ textContent_list l).
    destruct Hc as [Hc|Hc], IHcs as [Hcs|Hcs].
    + left. by rewrite Hc, Hcs.
    + right. by rewrite has_high_app, Hcs, orb_true_r.
    + right. by rewrite has_high_app, Hc.
    + right. by rewrite has_high_app, Hc.
Qed.

(** After the pass no element shows the English phrase, and the phrases
    that no element showed before are still shown by none. *)
Lemma fallback_pass_clean (ks : list string) (d : node) :
  has_high english = false →
  Forall (λ k, has_high k = false) ks →
  clean ks d → clean (english :: ks) (rewrite_tree (fallback_text english translated) d).
Proof.
  intros Heng Hks Hclean p e' cs' Hat.
  apply elem_at_rewrite_tree in Hat as (cs & Hat & Hr).
  assert (Forall (λ k, has_high k = false) (english :: ks)) as Hall by by constructor.
  destruct (fallback_pass_text (Elem e' cs)) as [Hsame|Hhigh].
  - rewrite Hr in Hsame. rewrite Hsame.
    apply not_elem_of_cons. split; [|by eapply Hclean].
    intros Heq. rewrite rewrite_tree_Elem in Hr.
    destruct (fallback_text english translated e' cs) as [s|] eqn:Hft.
    + apply fallback_text_Some in Hft as [_ ->]. injection Hr as <-.
      rewrite textContent_text_children in Hsame. congruence.
    + by apply fallback_text_None in Hft.
  - rewrite Hr in Hhigh. by apply has_high_not_in.
Qed.

End FallbackPass.

(** On a document in which no element shows the phrase, the pass for it
    changes nothing. *)
Lemma fallback_pass_clean_id (ks : list string) (d : node) (entry : string * string) :
  clean ks d → entry.1 ∈ ks → fallback_pass d entry = d.
Proof.
  intros Hclean Hin. apply rewrite_tree_unchanged. intros r e cs Hat.
  apply fallback_text_None. intros Heq. apply (Hclean r e cs Hat). by rewrite Heq.
Qed.

Lemma fallback_tree_clean_id (ks : list string) (table : list (string * string)) (d : node) :
  clean ks d → table.*1 ⊆ ks → fallback_tree table d = d.
Proof.
  intros Hclean. unfold fallback_tree.
  induction table as [|entry table IH]; [done|]. intros Hsub. simpl.
  rewrite (fallback_pass_clean_id ks) by (done || apply Hsub; left).
  apply IH. intros k Hk. apply Hsub. by right.
Qed.

Lemma fallback_tree_clean (table : list (string * string)) (ks : list string) (d : node) :
  well_keyed table →
  Forall (λ k, has_high k = false) ks →
  clean ks d → clean (reverse table.*1 ++ ks) (fallback_tree table d).
Proof.
  unfold fallback_tree. intros Htable. revert ks d.
  induction Htable as [|[k t] table [Hk Ht] _ IH]; intros ks d Hks Hclean; [done|].
  simpl. rewrite reverse_cons, <- app_assoc. simpl.
  apply IH; [by constructor|]. by apply fallback_pass_clean.
Qed.

(** *** The function on the page state *)

Lemma fallback_element_run (english translated : string) (p : path) (st : state) :
  ∃ tr, fallback_element english translated p st =
          (inr tt, State (currentLang st) (localStorage st) (storage_full st)
                     (rewrite_step (fallback_text english translated) (document st) p)
                     (trace st ++ tr)).
Proof.
  unfold fallback_element, rewrite_step, elem_at, fallback_text. rewrite run_bind. simpl.
  destruct (node_at p (document st)) as [[s|e cs]|] eqn:Hn;
    try (exists []; rewrite app_nil_r; by destruct st).
  destruct (String.eqb _ english); [|exists []; rewrite app_nil_r; by destruct st].
  exists [TextContentSet p translated].
  unfold textContent_set. rewrite mutate_run; [done|].
  unfold elem_at. rewrite Hn. eauto.
Qed.

Lemma forEach_fallback_run (english translated : string) (l : list path) (st : state) :
  ∃ tr, forEach l (fallback_element english translated) st =
          (inr tt, State (currentLang st) (localStorage st) (storage_full st)
                     (foldl (rewrite_step (fallback_text english translated)) (document st) l)
                     (trace st ++ tr)).
Proof.
  revert st. induction l as [|p l IH]; intros st; simpl.
  - exists []. rewrite app_nil_r. by destruct st.
  - destruct (fallback_element_run english translated p st) as (tr1 & Hrun1).
    rewrite run_bind, Hrun1.
    edestruct IH as (tr2 & Hrun2). rewrite Hrun2. simpl.
    exists (tr1 ++ tr2). by rewrite app_assoc.
Qed.

Lemma forEach_entries_run (table : list (string * string)) (st : state) :
  ∃ tr, forEach table (λ entry,
          elements ← querySelectorAll any_element;
          forEach elements (fallback_element entry.1 entry.2)) st =
          (inr tt, State (currentLang st) (localStorage st) (storage_full st)
                     (fallback_tree table (document st)) (trace st ++ tr)).
Proof.
  revert st. induction table as [|entry table IH]; intros st; simpl.
  - exists []. rewrite app_nil_r. by destruct st.
  - rewrite run_bind, run_bind. simpl.
    destruct (forEach_fallback_run entry.1 entry.2 (select any_element (document st)) st)
      as (tr1 & Hrun1).
    rewrite Hrun1, rewrite_steps_tree by done.
    edestruct IH as (tr2 & Hrun2). rewrite Hrun2. simpl.
    exists (tr1 ++ tr2). by rewrite app_assoc.
Qed.

(** The document the function leaves, by the table of the language. *)
Lemma fallback_doc_table (language : string) (d : node) :
  fallback_doc language d =
  match assoc language fallbackTranslations with
  | Some table => fallback_tree table d
  | None => d
  end.
Proof.
  unfold fallback_doc, applyFallbackTranslation, exec.
  destruct (assoc language fallbackTranslations) as [table|]; [|done].
  by destruct (forEach_entries_run table (State "en" ∅ false d [])) as (tr & ->).
Qed.

Lemma fallbackTranslations_well_keyed (language : string) (table : list (string * string)) :
  assoc language fallbackTranslations = Some table →
  well_keyed table ∧ table.*1 = (default [] (assoc "he" fallbackTranslations)).*1.
Proof.
  unfold fallbackTranslations at 1, well_keyed.
  assoc_cases; (split; [repeat constructor|reflexivity]).
Qed.

(** Once a language has been applied, no phrase of the tables is left in
    the document, and applying a language changes nothing any more. *)
Lemma fallback_second_is_void (l1 l2 : string) (tr1 tr2 : list (string * string)) (d : node) :
  assoc l1 fallbackTranslations = Some tr1 →
  assoc l2 fallbackTranslations = Some tr2 →
  fallback_doc l2 (fallback_doc l1 d) = fallback_doc l1 d.
Proof.
  intros H1 H2. rewrite (fallback_doc_table l2), (fallback_doc_table l1), H1, H2.
  destruct (fallbackTranslations_well_keyed _ _ H1) as [Hwk1 Hk1].
  destruct (fallbackTranslations_well_keyed _ _ H2) as [Hwk2 Hk2].
  apply (fallback_tree_clean_id (reverse tr1.*1 ++ [])).
  - apply fallback_tree_clean; [done|constructor|]. intros p e cs _ ?%elem_of_nil. done.
  - rewrite app_nil_r, Hk2, <- Hk1. intros k Hk. by apply elem_of_reverse.
Qed.

Lemma fallback_doc_idempotent (language : string) (d : node) :
  fallback_doc language (fallback_doc language d) = fallback_doc language d.
Proof.
  destruct (assoc language fallbackTranslations) as [table|] eqn:Htable.
  - by eapply fallback_second_is_void.
  - by rewrite !fallback_doc_table, Htable.
Qed.

(** C8 fails as stated: the fallback is idempotent.  For no language and
    no document does a second application of the same language change what
    the first left; so on the page whose heading is [Login]. *)
Lemma applyFallbackTranslation_is_idempotent :
  ¬ (∃ language d,
       fallback_doc language (fallback_doc language d) ≠ fallback_doc language d) ∧
  fallback_doc "he" (page_with "Login") ≠ page_with "Login" ∧
  fallback_doc "he" (fallback_doc "he" (page_with "Login")) =
    fallback_doc "he" (page_with "Login").
Proof.
  split; [|split; [|by vm_compute]].
  - intros (language & d & Hne). apply Hne, fallback_doc_idempotent.
  - intros Heq. apply (f_equal (text_at [1; 0])) in Heq. vm_compute in Heq.
    discriminate Heq.
Qed.

(** *** The first phrase that the document shows *)

Lemma has_high_textContent_list (cs : list node) (i : nat) (c : node) :
  cs !! i = Some c → has_high (textContent c) = true →
  has_high (textContent_list cs) = true.
Proof.
  revert i. induction cs as [|c0 cs IH]; intros [|i]; simpl; try done.
  - intros [= ->] Hc. by rewrite has_high_app, Hc.
  - intros Hi Hc. rewrite has_high_app, (IH i Hi Hc). apply orb_true_r.
Qed.

(** A text outside of ASCII inside a node shows in the text of the node. *)
Lemma has_high_node_at (q : path) (d n : node) :
  node_at q d = Some n → has_high (textContent n) = true →
  has_high (textContent d) = true.
Proof.
  revert d. induction q as [|i q IH]; intros d; simpl; [by intros [= ->]|].
  destruct d as [s|e cs]; [done|].
  destruct (cs !! i) as [c|] eqn:Hi; [|done]. intros Hn Hhigh.
  rewrite textContent_Elem. eapply has_high_textContent_list; [done|]. by eapply IH.
Qed.

Lemma rewrite_tree_text_children (nt : element → list node → option string) (s : string) :
  rewrite_tree nt <$> text_children s = text_children s.
Proof. unfold text_children. by destruct (String.eqb s ""). Qed.

(** An element that holds a translation is left alone by every pass. *)
Lemma fallback_pass_keeps (english translated t : string) (q : path) (d : node)
    (e : element) :
  has_high english = false → has_high t = true →
  node_at q d = Some (Elem e (text_children t)) →
  node_at q (rewrite_tree (fallback_text english translated) d) =
    Some (Elem e (text_children t)).
Proof.
  intros Heng Ht. revert d. induction q as [|i q IH]; intros d Hn.
  - simpl in Hn. injection Hn as ->. cbn [node_at]. f_equal.
    rewrite rewrite_tree_Elem.
    destruct (fallback_text english translated e (text_children t)) as [s|] eqn:Hft.
    + apply fallback_text_Some in Hft as [Htext _].
      rewrite textContent_text_children in Htext. congruence.
    + by rewrite rewrite_tree_text_children.
  - destruct d as [s|e0 cs]; [done|]. simpl in Hn.
    destruct (cs !! i) as [c|] eqn:Hi; [|done].
    rewrite rewrite_tree_Elem.
    destruct (fallback_text english translated e0 cs) as [s|] eqn:Hft.
    + apply fallback_text_Some in Hft as [Htext _].
      assert (has_high (textContent (Elem e0 cs)) = true) as Hhigh.
      { rewrite textContent_Elem. eapply has_high_textContent_list; [done|].
        eapply has_high_node_at; [done|]. by rewrite textContent_text_children. }
      congruence.
    + simpl. rewrite list_lookup_fmap, Hi. simpl. by apply IH.
Qed.

Lemma fallback_tree_keeps (table : list (string * string)) (t : string) (q : path)
    (d : node) (e : element) :
  well_keyed table → has_high t = true →
  node_at q d = Some (Elem e (text_children t)) →
  node_at q (fallback_tree table d) = Some (Elem e (text_children t)).
Proof.
  unfold fallback_tree. intros Htable Ht. revert d.
  induction Htable as [|[k tk] table [Hk _] _ IH]; intros d Hn; [done|].
  simpl. apply IH. by apply fallback_pass_keeps.
Qed.

(** The pass for a phrase that some element shows writes the translation
    into the topmost element that shows it on the way to that element:
    the same element whatever the translation is. *)
Lemma fallback_pass_writes (english : string) (p : path) (d : node) :
  text_at p d = Some english → is_Some (elem_at p d) →
  ∃ q e, text_at q d = Some english ∧
         ∀ translated,
           node_at q (rewrite_tree (fallback_text english translated) d) =
             Some (Elem e (text_children translated)).
Proof.
  revert d. induction p as [|i p IH]; intros d Htext [[e cs] Hat].
  - destruct d as [s|e0 cs0]; [done|]. exists [], e0. split; [done|].
    intros translated. cbn [node_at]. rewrite rewrite_tree_Elem.
    unfold fallback_text. unfold text_at in Htext. simpl in Htext.
    injection Htext as Htext. change (textContent (Elem e0 cs0) = english) in Htext.
    by rewrite Htext, String.eqb_refl.
  - destruct d as [s|e0 cs0]; [done|].
    destruct (String.eqb_spec (textContent (Elem e0 cs0)) english) as [Heq|Hne].
    + exists [], e0. split; [unfold text_at; simpl; by f_equal|].
      intros translated. cbn [node_at]. rewrite rewrite_tree_Elem.
      unfold fallback_text. by rewrite Heq, String.eqb_refl.
    + rewrite elem_at_cons in Hat. unfold text_at in Htext. simpl in Htext.
      destruct (cs0 !! i) as [c|] eqn:Hi; [|done].
      destruct (IH c Htext) as (q & e' & Hq & Hwrite); [by eauto|].
      exists (i :: q), e'. split; [unfold text_at in *; simpl; by rewrite Hi|].
      intros translated. rewrite rewrite_tree_Elem.
      assert (fallback_text english translated e0 cs0 = None) as ->
        by (by apply fallback_text_None).
      simpl. rewrite list_lookup_fmap, Hi. simpl. apply Hwrite.
Qed.

Lemma shows_text_at (ks : list string) (d : node) :
  shows ks d ↔ ∃ p k, k ∈ ks ∧ text_at p d = Some k ∧ is_Some (elem_at p d).
Proof.
  unfold shows, text_at, elem_at. split.
  - intros (p & e & cs & Hat & Hin).
    destruct (node_at p d) as [[s|e' cs']|] eqn:Hn; try done.
    injection Hat as -> ->. exists p, (textContent (Elem e cs)). rewrite Hn.
    split; [done|]. split; [done|]. by eexists.
  - intros (p & k & Hin & Htext & [[e cs] Hat]).
    destruct (node_at p d) as [[s|e' cs']|] eqn:Hn; try done.
    injection Hat as -> ->. injection Htext as <-.
    exists p, e, cs. rewrite Hn. split; [done|exact Hin].
Qed.

(** Whether some element shows the phrase can be decided. *)
Lemma shows_dec (k : string) (d : node) : shows [k] d ∨ clean [k] d.
Proof.
  destruct (decide (Exists (λ p, text_at p d = Some k) (select any_element d)))
    as [Hex|Hno].
  - left. apply shows_text_at. apply Exists_exists in Hex as (p & Hp & Htext).
    exists p, k. split; [by left|]. split; [done|].
    apply select_elem_at in Hp as (e & cs & Hat & _). rewrite Hat. eauto.
  - right. intros p e cs Hat Hin. apply list_elem_of_singleton in Hin.
    apply Hno, Exists_exists. exists p. split; [by eapply elem_at_select|].
    unfold text_at, elem_at in *. destruct (node_at p d) as [[s|e' cs']|]; try done.
    injection Hat as -> ->. simpl. by f_equal.
Qed.

(** Two tables with the same phrases, applied to a document that shows one
    of them: there is an element that ends up holding the translation of
    one and the same phrase, from the one table and from the other. *)
Lemma fallback_tree_first_shown (tb1 tb2 : list (string * string)) (d : node) :
  well_keyed tb1 → well_keyed tb2 → tb1.*1 = tb2.*1 →
  shows tb1.*1 d →
  ∃ q e j english t1 t2,
    tb1 !! j = Some (english, t1) ∧ tb2 !! j = Some (english, t2) ∧
    text_at q d = Some english ∧
    node_at q (fallback_tree tb1 d) = Some (Elem e (text_children t1)) ∧
    node_at q (fallback_tree tb2 d) = Some (Elem e (text_children t2)).
Proof.
  intros Hwk1. revert tb2.
  induction Hwk1 as [|[k t1] tb1 [Hk Ht1] Hwk1 IH]; intros tb2 Hwk2 Hkeys Hshows.
  { destruct Hshows as (p & e & cs & _ & Hin). by apply elem_of_nil in Hin. }
  destruct tb2 as [|[k' t2] tb2]; [done|]. simpl in Hkeys. injection Hkeys as <- Hkeys.
  apply Forall_cons_1 in Hwk2 as [[_ Ht2] Hwk2]. simpl in *.
  destruct (shows_dec k d) as [Hk_shown|Hk_clean].
  - apply shows_text_at in Hk_shown as (p & k0 & ->%list_elem_of_singleton & Htext & Hel).
    destruct (fallback_pass_writes k p d Htext Hel) as (q & e & Hq & Hwrite).
    exists q, e, 0, k, t1, t2. split; [done|]. split; [done|]. split; [done|].
    unfold fallback_tree. simpl. unfold fallback_pass at 2 4. simpl.
    split; apply fallback_tree_keeps; auto.
  - assert (∀ t, fallback_pass d (k, t) = d) as Hid.
    { intros t. apply (fallback_pass_clean_id [k]); [done|by left]. }
    destruct (IH tb2 Hwk2 Hkeys) as (q & e & j & english & u1 & u2 & H1 & H2 & Hq & Hn1 & Hn2).
    { destruct Hshows as (p & e & cs & Hat & Hin). exists p, e, cs. split; [done|].
      apply elem_of_cons in Hin as [Heq|Hin]; [|done].
      exfalso. apply (Hk_clean p e cs Hat). rewrite Heq. by left. }
    exists q, e, (S j), english, u1, u2. split; [done|]. split; [done|].
    split; [done|]. unfold fallback_tree in *. simpl. by rewrite !Hid.
Qed.

(** The languages translate no phrase alike. *)
Lemma fallbackTranslations_differ (l1 l2 : string) (tr1 tr2 : list (string * string)) :
  assoc l1 fallbackTranslations = Some tr1 →
  assoc l2 fallbackTranslations = Some tr2 →
  l1 ≠ l2 →
  Forall2 (λ x y, x.2 ≠ y.2) tr1 tr2.
Proof.
  intros H1 H2 Hne. unfold fallbackTranslations in H1, H2.
  revert H1. assoc_cases; revert H2; assoc_cases; try done;
    repeat (constructor; [discriminate|]); constructor.
Qed.

(** C8, as the code has it: the fallback is lossy and depends on the order
    of the languages.  Whatever the document, once a language has been
    applied, applying a second one changes nothing.  On a document that
    shows one of the English phrases, applying a first language changes
    the document, and the result is also what the first language gives on
    the result itself: the original cannot be told from it.  Applying a
    second language afterwards leaves the page in the first language, which
    is not the page the second language gives on the original: some element
    that showed a phrase holds its translation into the first language in
    the one and into the second language in the other. *)
Theorem applyFallbackTranslation_lossy (l1 l2 : string)
    (tr1 tr2 : list (string * string)) (d : node) :
  assoc l1 fallbackTranslations = Some tr1 →
  assoc l2 fallbackTranslations = Some tr2 →
  l1 ≠ l2 →
  shows tr1.*1 d →
  let d1 := fallback_doc l1 d in
  (∀ d', fallback_doc l2 (fallback_doc l1 d') = fallback_doc l1 d') ∧
  d1 ≠ d ∧
  fallback_doc l1 d1 = fallback_doc l1 d ∧
  (∃ q english t1 t2,
     (english, t1) ∈ tr1 ∧ (english, t2) ∈ tr2 ∧ t1 ≠ t2 ∧
     text_at q d = Some english ∧
     text_at q d1 = Some t1 ∧
     text_at q (fallback_doc l2 d1) = Some t1 ∧
     text_at q (fallback_doc l2 d) = Some t2) ∧
  fallback_doc l2 d1 ≠ fallback_doc l2 d.
Proof.
  intros H1 H2 Hne Hshows d1. subst d1.
  assert (∀ d', fallback_doc l2 (fallback_doc l1 d') = fallback_doc l1 d') as Hvoid
    by (intros d'; by eapply fallback_second_is_void).
  destruct (fallbackTranslations_well_keyed _ _ H1) as [Hwk1 Hk1].
  destruct (fallbackTranslations_well_keyed _ _ H2) as [Hwk2 Hk2].
  destruct (fallback_tree_first_shown tr1 tr2 d Hwk1 Hwk2) as
    (q & e & j & english & t1 & t2 & Hj1 & Hj2 & Hq & Hn1 & Hn2); [congruence|done|].
  assert (t1 ≠ t2) as Ht.
  { pose proof (fallbackTranslations_differ l1 l2 tr1 tr2 H1 H2 Hne) as Hdiff.
    exact (Forall2_lookup_lr _ _ _ _ _ _ Hdiff Hj1 Hj2). }
  assert (has_high english = false ∧ has_high t1 = true) as [Heng Ht1].
  { unfold well_keyed in Hwk1. rewrite Forall_lookup in Hwk1. apply (Hwk1 j _ Hj1). }
  assert (has_high t2 = true) as Ht2.
  { unfold well_keyed in Hwk2. rewrite Forall_lookup in Hwk2. apply (Hwk2 j _ Hj2). }
  assert (text_at q (fallback_doc l1 d) = Some t1) as Hd1.
  { unfold text_at. rewrite fallback_doc_table, H1, Hn1.
    exact (f_equal Some (textContent_text_children e t1)). }
  assert (text_at q (fallback_doc l2 d) = Some t2) as Hd2.
  { unfold text_at. rewrite fallback_doc_table, H2, Hn2.
    exact (f_equal Some (textContent_text_children e t2)). }
  split; [exact Hvoid|]. split; [|split; [|split]].
  - intros Heq. rewrite Heq in Hd1. rewrite Hq in Hd1. injection Hd1 as ->. congruence.
  - apply fallback_doc_idempotent.
  - exists q, english, t1, t2.
    split; [by eapply list_elem_of_lookup_2|]. split; [by eapply list_elem_of_lookup_2|].
    split; [done|]. split; [done|]. split; [done|]. split; [by rewrite Hvoid|done].
  - rewrite Hvoid. intros Heq. rewrite Heq in Hd1. congruence.
Qed.

Lemma applyFallbackTranslation_lossy_witness :
  shows ["Table for Two"; "Real Dates. Real People. Real Connections."; "Login"; "Sign Up";
         "Browse Tables"; "My Matches"; "Upcoming Dates"; "Restaurant"; "Date"; "Time"]
        (page_with "Login") ∧
  fallback_doc "he" (page_with "Login") ≠ page_with "Login" ∧
  fallback_doc "he" (fallback_doc "he" (page_with "Login")) =
    fallback_doc "he" (page_with "Login") ∧
  fallback_doc "ar" (fallback_doc "he" (page_with "Login")) ≠
    fallback_doc "ar" (page_with "Login") ∧
  text_at [1; 0] (fallback_doc "ar" (fallback_doc "he" (page_with "Login"))) =
    Some "התחברות" ∧
  text_at [1; 0] (fallback_doc "ar" (page_with "Login")) = Some "تسجيل الدخول".
Proof.
  assert (shows ["Table for Two"; "Real Dates. Real People. Real Connections."; "Login";
                 "Sign Up"; "Browse Tables"; "My Matches"; "Upcoming Dates"; "Restaurant";
                 "Date"; "Time"] (page_with "Login")) as Hshows.
  { exists [1; 0], (Element "h1" [] None ∅ None), [Text "Login"]. split; [reflexivity|].
    do 2 right. left. }
  destruct (applyFallbackTranslation_lossy "he" "ar" _ _ (page_with "Login")
              eq_refl eq_refl ltac:(discriminate) Hshows)
    as (_ & Hchanged & Hsame & _ & Hdiffer).
  split; [exact Hshows|]. split; [exact Hchanged|]. split; [exact Hsame|].
  split; [exact Hdiffer|]. split; reflexivity.
Defined.

(** ** The theorems at work on the sample page *)

Lemma applyLanguage_directionality_witness :
  let st := exec createLanguageSwitcher (sample_state "he" false) in
  body_path (document st) = Some [1] ∧
  switcher_of (document st) = Some [1; 2] ∧
  result applyLanguage st = inr tt ∧
  (∃ e, record_at [1] (document (exec applyLanguage st)) = Some e ∧
        ("rtl" ∈ classList e ↔ is_rtl "he" = true) ∧
        style e !! "direction" = Some "rtl") ∧
  (∃ e, record_at [1; 2] (document (exec applyLanguage st)) = Some e ∧
        style e !! "left" = Some "2rem" ∧ style e !! "right" = Some "auto") ∧
  document (exec applyLanguage (exec applyLanguage st)) =
    document (exec applyLanguage st).
Proof.
  intros st.
  assert (body_path (document st) = Some [1]) as Hb by (vm_compute; reflexivity).
  assert (switcher_of (document st) = Some [1; 2]) as Hs by (vm_compute; reflexivity).
  destruct (applyLanguage_directionality st [1] Hb)
    as (Hres & _ & _ & Hbody & Hsw & Hidem).
  destruct (Hsw [1; 2] Hs) as [_ Hpos].
  split; [exact Hb|]. split; [exact Hs|]. split; [exact Hres|].
  split; [exact Hbody|]. split; [exact Hpos|exact Hidem].
Defined.

Lemma changeLanguage_sequence_witness :
  let st := exec (@init bare_host) (sample_state "en" false) in
  let st' := exec (@changeLanguage bare_host "ru") st in
  storage_full st = false ∧
  body_path (document st) = Some [1] ∧
  result (@changeLanguage bare_host "ru") st = inr tt ∧
  currentLang st' = "ru" ∧
  localStorage st' !! "userLanguage" = Some "ru" ∧
  (∃ e, elem_at [1; 0; 0] (document st') = Some (e, [Text "Профиль"])) ∧
  last (trace st') = Some (DispatchEvent "languageChanged" [("language", "ru")]).
Proof.
  intros st st'.
  assert (storage_full st = false) as Hf by (vm_compute; reflexivity).
  assert (body_path (document st) = Some [1]) as Hb by (vm_compute; reflexivity).
  destruct (@changeLanguage_sequence bare_host "ru" st [1] Hf Hb)
    as (Hres & Hlang & Hstored & (t_btn & t_txt & Htrace & _) & _ & _ & _ & Hshown).
  destruct (Hshown (bare_walks_return _ _)) as (_ & _ & Hkey).
  pose proof (proj2 Hres (bare_walks_return _ _)) as Hok.
  split; [exact Hf|]. split; [exact Hb|]. split; [exact Hok|].
  split; [exact Hlang|]. split; [exact Hstored|]. split.
  - destruct (elem_at [1; 0; 0] (document st')) as [[e cs]|] eqn:Hat;
      [|vm_compute in Hat; discriminate Hat].
    exists e. f_equal. f_equal.
    assert (data_translate e = Some "nav.profile") as He.
    { pose proof Hat as Hat'. vm_compute in Hat'. by injection Hat' as <- _. }
    apply (Hkey [1; 0; 0] e cs "nav.profile" _ "Профиль" Hat He eq_refl).
    eapply ends_below; [reflexivity..|]. eapply ends_below; [reflexivity..|].
    apply ends_here.
  - unfold st'. rewrite Htrace, Hok, !app_assoc. apply last_snoc.
Defined.

(** C6 fails as stated, also when the storage takes the write.  On the
    page below the key of the link reads [caller] of the function
    [Object], which throws: the locale is set and stored and the body is
    laid out, the block is translated, and then the exception leaves
    [changeLanguage]: the paragraph, whose key has a Hebrew text, still
    shows the English one, and no event is dispatched. *)
Lemma changeLanguage_stops_at_throwing_key :
  let st := State "en" ∅ false accessor_page [] in
  let st' := exec (@changeLanguage accessor_host "he") st in
  storage_full st = false ∧
  body_path (document st) = Some [1] ∧
  result (@changeLanguage accessor_host "he") st = inl TypeError ∧
  currentLang st' = "he" ∧
  localStorage st' !! "userLanguage" = Some "he" ∧
  (@translation_of accessor_host "he" <$> record_at [1; 1] (document st')) =
    Some (Some "פרופיל") ∧
  text_at [1; 1] (document st') = Some "Profile" ∧
  trace st' =
    [SetCurrentLang "he"; StorageSetItem "userLanguage" "he";
     ClassAdd [1] "rtl"; StyleSet [1] "direction" "rtl";
     TextContentSet [1; 0] "יציאה"].
Proof. by vm_compute. Qed.

Lemma createLanguageSwitcher_idempotent_witness :
  let st := sample_state "en" false in
  select (has_class "language-switcher")
    (document (exec createLanguageSwitcher st)) = [[1; 2]] ∧
  node_at [1; 2] (document (exec createLanguageSwitcher st)) =
    Some (new_switcher "en") ∧
  createLanguageSwitcher (exec createLanguageSwitcher st) =
    (inr tt, exec createLanguageSwitcher st) ∧
  (switcher_count (document (exec createLanguageSwitcher st)) ≤ 1)%nat ∧
  (switcher_count (document (exec (@changeLanguage bare_host "he") st)) ≤ 1)%nat.
Proof.
  intros st.
  destruct (@createLanguageSwitcher_idempotent bare_host st) as (_ & Hnew & _ & Hle).
  destruct (@createLanguageSwitcher_idempotent bare_host
              (exec createLanguageSwitcher st)) as (Hexists & _).
  destruct Hle as (Hle1 & _ & Hle2); [vm_compute; lia|].
  destruct (Hnew [1] (Element "body" [] None ∅ None)
              [plain "nav" [keyed "a" "nav.profile" [Text "Profile"];
                            keyed "a" "nav.logout" [Text "Logout"]];
               plain "p" [Text "Login"]])
    as (_ & Hsel & Hnode & _); [reflexivity..|].
  split; [exact Hsel|]. split; [exact Hnode|]. split; [|split].
  - apply Hexists. vm_compute. eauto.
  - exact Hle1.
  - apply Hle2.
Defined.

(** The scenarios of the specification, run on the sample page. *)

(** A fresh load without a stored preference: [en], left to right. *)
Example scenario_fresh_load :
  let st := exec (@init bare_host) (load ∅ false sample_page) in
  currentLang st = "en" ∧
  (style <$> record_at [1] (document st)) ≫= (.!! "direction") = Some "ltr" ∧
  control_of <$> children_of (default (Text "") (node_at [1; 2] (document st))) =
    [("EN", Some "en", true, true); ("HE", Some "he", false, false);
     ("AR", Some "ar", false, false); ("RU", Some "ru", false, false)].
Proof. by vm_compute. Qed.

(** The stored preference is [ar]: right to left, the [AR] control marked. *)
Example scenario_stored_ar :
  let st := exec (@init bare_host) (load {["userLanguage" := "ar"]} false sample_page) in
  currentLang st = "ar" ∧
  (style <$> record_at [1] (document st)) ≫= (.!! "direction") = Some "rtl" ∧
  (style <$> record_at [1; 2] (document st)) ≫= (.!! "left") = Some "2rem" ∧
  control_of <$> children_of (default (Text "") (node_at [1; 2] (document st))) =
    [("EN", Some "en", false, false); ("HE", Some "he", false, false);
     ("AR", Some "ar", true, true); ("RU", Some "ru", false, false)] ∧
  text_at [1; 0; 0] (document st) = Some "الملف الشخصي".
Proof. by vm_compute. Qed.

(** A click on [RU] while on [en]. *)
Example scenario_click_ru :
  let st0 := exec (@init bare_host) (load ∅ false sample_page) in
  let st := exec (@click bare_host [1; 2; 3]) st0 in
  currentLang st = "ru" ∧
  localStorage st !! "userLanguage" = Some "ru" ∧
  text_at [1; 0; 0] (document st) = Some "Профиль" ∧
  text_at [1; 0; 1] (document st) = Some "Выход" ∧
  control_of <$> children_of (default (Text "") (node_at [1; 2] (document st))) =
    [("EN", Some "en", false, false); ("HE", Some "he", false, false);
     ("AR", Some "ar", false, false); ("RU", Some "ru", true, true)] ∧
  last (trace st) = Some (DispatchEvent "languageChanged" [("language", "ru")]).
Proof. by vm_compute. Qed.

(** * More of the page code: properties *)

(** ** The hover handlers *)

Lemma set_style_twice (k v1 v2 : string) (e : element) :
  set_style k v2 (set_style k v1 e) = set_style k v2 e.
Proof. unfold set_style. simpl. by rewrite insert_insert_eq. Qed.

Lemma has_class_true (c : string) (e : element) : has_class c e = true ↔ c ∈ classList e.
Proof. unfold has_class. apply bool_decide_eq_true. Qed.

Lemma has_class_false (c : string) (e : element) : has_class c e = false ↔ c ∉ classList e.
Proof. unfold has_class. apply bool_decide_eq_false. Qed.

Lemma hover_active (p : path) (st : state) (e : element) (cs : list node) :
  elem_at p (document st) = Some (e, cs) → "active" ∈ classList e →
  onmouseover p st = (inr tt, st) ∧ onmouseout p st = (inr tt, st).
Proof.
  intros Hat Ha%has_class_true. unfold onmouseover, onmouseout.
  rewrite !run_bind. simpl. by rewrite Hat, Ha.
Qed.

Lemma style_set_run (p : path) (k v : string) (st : state) :
  is_Some (elem_at p (document st)) →
  style_set p k v st =
    (inr tt, emit (StyleSet p k v)
               (with_document (alter_at (on_elem (set_style k v)) p (document st)) st)).
Proof. intros Hat. unfold style_set. by rewrite mutate_run. Qed.

(** X1: the hover handlers never touch the control that is marked active.
    On any other control [onmouseover] sets the background to [#F8F9FA]
    and [onmouseout] sets it to [transparent]; for a control whose
    background was [transparent], as [createLanguageSwitcher] and
    [changeLanguage] leave every inactive control, entering and leaving
    gives back the document as it was. *)
Theorem hover_leaves_control (st : state) (p : path) (e : element) (cs : list node) :
  elem_at p (document st) = Some (e, cs) →
  ("active" ∈ classList e →
     onmouseover p st = (inr tt, st) ∧ onmouseout p st = (inr tt, st)) ∧
  ("active" ∉ classList e →
     onmouseover p st =
       (inr tt, emit (StyleSet p "background" "#F8F9FA")
                  (with_document
                     (alter_at (on_elem (set_style "background" "#F8F9FA")) p (document st))
                     st)) ∧
     result (onmouseover p;; onmouseout p) st = inr tt ∧
     document (exec (onmouseover p;; onmouseout p) st) =
       alter_at (on_elem (set_style "background" "transparent")) p (document st) ∧
     (style e !! "background" = Some "transparent" →
      document (exec (onmouseover p;; onmouseout p) st) = document st)).
Proof.
  intros Hat. split; [by apply (hover_active p st e cs)|].
  intros Ha%has_class_false.
  assert (onmouseover p st =
            (inr tt, emit (StyleSet p "background" "#F8F9FA")
               (with_document
                  (alter_at (on_elem (set_style "background" "#F8F9FA")) p (document st))
                  st))) as Hover.
  { unfold onmouseover. rewrite run_bind. simpl. rewrite Hat, Ha.
    apply style_set_run. rewrite Hat. eauto. }
  assert (record_at p (alter_at (on_elem (set_style "background" "#F8F9FA")) p (document st))
          = Some (set_style "background" "#F8F9FA" e)) as Hrec.
  { rewrite record_at_on_elem. destruct (decide (p = p)); [|done].
    unfold record_at. by rewrite Hat. }
  apply record_at_Some in Hrec as [cs' Hat'].
  assert ((onmouseover p;; onmouseout p) st =
            (inr tt,
             emit (StyleSet p "background" "transparent")
               (with_document
                  (alter_at (on_elem (set_style "background" "transparent")) p (document st))
                  (emit (StyleSet p "background" "#F8F9FA") st)))) as Hboth.
  { rewrite run_bind, Hover. unfold onmouseout. rewrite run_bind. simpl.
    rewrite Hat'.
    replace (has_class "active" (set_style "background" "#F8F9FA" e)) with false
      by (by rewrite has_class_set_style).
    rewrite style_set_run by (simpl; rewrite Hat'; eauto). simpl.
    rewrite on_elem_compose.
    rewrite (alter_at_ext _ (on_elem (set_style "background" "transparent"))); [done|].
    intros [s|e0 cs0]; [done|]. simpl. by rewrite set_style_twice. }
  split; [exact Hover|]. split; [|split].
  - unfold result. by rewrite Hboth.
  - unfold exec. by rewrite Hboth.
  - intros Hbg. unfold exec. rewrite Hboth. simpl.
    apply alter_at_on_elem_id. intros e0. unfold record_at. rewrite Hat.
    intros [= <-]. by apply set_style_id.
Qed.

Lemma hover_leaves_control_witness :
  let st := exec createLanguageSwitcher (sample_state "en" false) in
  elem_at [1; 2; 1] (document st) =
    Some (Element "button" ["lang-btn"] None (button_style false) (Some "he"), [Text "HE"]) ∧
  document (exec (onmouseover [1; 2; 1];; onmouseout [1; 2; 1]) st) = document st.
Proof.
  intros st.
  assert (elem_at [1; 2; 1] (document st) =
            Some (Element "button" ["lang-btn"] None (button_style false) (Some "he"),
                  [Text "HE"])) as Hat by reflexivity.
  split; [exact Hat|].
  destruct (hover_leaves_control st [1; 2; 1] _ _ Hat) as [_ Hin].
  destruct Hin as (_ & _ & _ & Hback).
  - simpl. intros Hin. apply list_elem_of_singleton in Hin. discriminate Hin.
  - apply Hback. reflexivity.
Defined.

(** ** The language across a reload *)

Section Reload.
Context `{Host}.

(** X2: what a reload of the page finds after [changeLanguage lang].
    When the storage took the write, the page comes up in [lang] again,
    [init] included, unless [lang] is the empty string, which comes up as
    [en].  When the storage refused the write, the running page is in
    [lang] but the reloaded page is in the language that was stored
    before. *)
Theorem language_survives_reload (lang : string) (st : state) (full : bool) (d : node) :
  let st' := exec (changeLanguage lang) st in
  (storage_full st = false → lang ≠ "" →
     currentLang (load (localStorage st') full d) = lang ∧
     currentLang (exec init (load (localStorage st') full d)) = lang) ∧
  (storage_full st = false → lang = "" →
     currentLang (load (localStorage st') full d) = "en") ∧
  (storage_full st = true →
     currentLang st' = lang ∧
     currentLang (load (localStorage st') full d) = initial_currentLang (localStorage st)).
Proof.
  intros st'. split; [|split].
  - intros Hfull Hlang.
    assert (currentLang (load (localStorage st') full d) = lang) as Hload.
    { unfold st'. rewrite changeLanguage_storage by done.
      unfold load, initial_currentLang. simpl. rewrite lookup_insert_eq.
      destruct (String.eqb_spec lang ""); done. }
    split; [exact Hload|].
    unfold exec. by rewrite (proj1 (dom_only_init _)).
  - intros Hfull ->. unfold st'. rewrite changeLanguage_storage by done.
    unfold load, initial_currentLang. simpl. by rewrite lookup_insert_eq.
  - intros Hfull. split; [apply changeLanguage_currentLang|].
    unfold st', exec. rewrite changeLanguage_run. simpl. by rewrite Hfull.
Qed.

End Reload.

Lemma language_survives_reload_witness :
  let st' := exec (@changeLanguage bare_host "he") (sample_state "en" false) in
  currentLang (load (localStorage st') false sample_page) = "he" ∧
  currentLang (exec (@init bare_host) (load (localStorage st') false sample_page)) = "he".
Proof.
  intros st'.
  destruct (@language_survives_reload bare_host "he" (sample_state "en" false)
              false sample_page) as (Hok & _ & _).
  apply Hok; [reflexivity|discriminate].
Defined.

(** ** Switching between locales *)

(** A loop that writes, for its second text, into every element the first
    loop wrote into: the first loop leaves nothing behind. *)
Lemma rewrite_tree_absorb (nt_a nt_b : element → list node → option string) (d : node) :
  (∀ e cs cs', nt_a e cs = nt_a e cs') →
  (∀ e cs, is_Some (nt_b e cs) → is_Some (nt_a e cs)) →
  rewrite_tree nt_a (rewrite_tree nt_b d) = rewrite_tree nt_a d.
Proof.
  intros Hindep Hcov. induction d as [s|e cs IH] using node_ind'; [done|].
  rewrite (rewrite_tree_Elem nt_b).
  destruct (nt_b e cs) as [sb|] eqn:Hb.
  - destruct (Hcov e cs) as [sa Ha]; [by rewrite Hb|].
    rewrite !rewrite_tree_Elem, (Hindep e _ cs), Ha. done.
  - rewrite !rewrite_tree_Elem, (Hindep e _ cs).
    destruct (nt_a e cs); [done|]. f_equal.
    rewrite <- list_fmap_compose. apply Forall_fmap_ext_1.
    eapply Forall_impl; [exact IH|]. by intros c Hc.
Qed.

Section Switching.
Context `{Host}.

Lemma translate_tree_absorb (a b : string) (d : node) :
  covers a b → translate_tree a (translate_tree b d) = translate_tree a d.
Proof. intros Hcov. apply rewrite_tree_absorb; [done|]. intros e _. apply Hcov. Qed.

(** X3: on a page none of whose keys makes a read throw, for [a] or for
    [b], translating for a locale [b] and then for a locale [a] that has a
    text for every key [b] has one for returns both times and leaves the
    document that translating for [a] at once leaves: nothing of [b] stays
    behind. *)
Theorem translatePage_switching_lossless (a b : string) (st : state) :
  covers a b →
  walks_return a (document st) →
  walks_return b (document st) →
  let st_b := exec translatePage (with_currentLang b st) in
  result translatePage (with_currentLang b st) = inr tt ∧
  result translatePage (with_currentLang a st_b) = inr tt ∧
  document (exec translatePage (with_currentLang a st_b)) =
  document (exec translatePage (with_currentLang a st)).
Proof.
  intros Hcov Ha Hb st_b.
  assert (document st_b = translate_tree b (document st)) as Hdb
    by (unfold st_b; by rewrite translatePage_document).
  assert (walks_return a (document st_b)) as Ha'
    by (rewrite Hdb; by apply walks_return_translate_tree).
  split; [|split].
  - unfold result. by destruct (translatePage_run (with_currentLang b st) Hb) as (tr & -> & _).
  - unfold result. by destruct (translatePage_run (with_currentLang a st_b) Ha') as (tr & -> & _).
  - rewrite !translatePage_document by done. simpl. rewrite Hdb.
    by apply translate_tree_absorb.
Qed.

(** *** [t] and [translatePage] on one key *)

Lemma walk_ends_node_truthy (v : value) (k : string) (ks : list string) (u : value) :
  walk_ends v (k :: ks) u → truthy v = true.
Proof. by inversion 1. Qed.

End Switching.

Lemma split_on_app (sep : ascii) (x rest : string) :
  split_on sep (x +:+ String sep rest) = split_on sep x ++ split_on sep rest.
Proof.
  induction x as [|c x IH].
  - change ("" +:+ String sep rest) with (String sep rest). simpl.
    by rewrite Ascii.eqb_refl.
  - change (String c x +:+ String sep rest) with (String c (x +:+ String sep rest)).
    simpl. rewrite IH. destruct (Ascii.eqb c sep); [done|].
    pose proof (split_on_nonempty sep x) as Hne.
    by destruct (split_on sep x).
Qed.

Section Agreement.
Context `{Host}.

(** X4: on a key that [t] resolves to a string, that is when every segment
    is found, [translatePage] writes the string [t] returns.  The two part
    on a key with a segment that is not found: [t] gives the key back,
    while [translatePage] skips the segment and goes on, so that a key made
    of an unknown first segment and a path to a string is written as that
    string.  ([table] is what reading the table of the locale gives.) *)
Theorem t_agrees_with_translatePage (lang s : string) (table : value) :
  get_prop translations lang = inr table →
  (∀ key e,
     data_translate e = Some key →
     walk_ends table (split_dot key) (VStr s) →
     t lang key = inr (VStr s) ∧ translation_of lang e = Some s) ∧
  (∀ x rest e w,
     data_translate e = Some (x +:+ "." +:+ rest) →
     split_dot x = [x] →
     get_prop table x = inr w → truthy w = false →
     walk_ends table (split_dot rest) (VStr s) →
     t lang (x +:+ "." +:+ rest) = inr (VStr (x +:+ "." +:+ rest)) ∧
     translation_of lang e = Some s).
Proof.
  intros Htable. split.
  - intros key e He Hw. split; [by eapply t_returns_end|].
    by eapply translation_of_walk_ends.
  - intros x rest e w He Hx Hread Hmiss Hw.
    assert (split_dot (x +:+ "." +:+ rest) = x :: split_dot rest) as Hsplit.
    { unfold split_dot in *.
      change (x +:+ "." +:+ rest) with (x +:+ String "." rest).
      by rewrite split_on_app, Hx. }
    assert (truthy table = true) as Hnode.
    { pose proof (split_on_nonempty "." rest) as Hne. unfold split_dot in Hw.
      destruct (split_on "." rest) as [|k ks]; [done|].
      by eapply walk_ends_node_truthy. }
    split.
    + rewrite t_unfold, Htable, Hsplit. cbn [t_walk].
      by rewrite Hnode, Hread, Hmiss.
    + rewrite (translation_of_keyed _ _ _ He). unfold page_lookup.
      rewrite Htable, Hsplit. cbn [page_walk]. rewrite Hnode, Hread, Hmiss.
      by rewrite (page_walk_ends _ _ _ Hw).
Qed.

End Agreement.

(** *** The four tables have the same keys *)

Lemma same_shape_truthy (u v : value) : same_shape u v → truthy u = true ∧ truthy v = true.
Proof.
  destruct 1 as [s1 s2 H1 H2|]; simpl; [|done].
  by destruct (String.eqb_spec s1 ""), (String.eqb_spec s2 "").
Qed.

Lemma assoc_same_shape (k : string) (fs1 fs2 : list (string * value)) :
  Forall2 (λ f1 f2, f1.1 = f2.1 ∧ same_shape f1.2 f2.2) fs1 fs2 →
  (assoc k fs1 = None ∧ assoc k fs2 = None) ∨
  (∃ x y, assoc k fs1 = Some x ∧ assoc k fs2 = Some y ∧ same_shape x y).
Proof.
  induction 1 as [|[k1 x] [k2 y] fs1 fs2 [Hk Hs] _ IH]; [by left|].
  simpl in *. subst k2. destruct (String.eqb k k1); [|done].
  right. by exists x, y.
Qed.

(** A walk through the entries of one table can be made through the
    entries of a table of the same shape. *)
Lemma own_walk_same_shape (u v x : value) (ks : list string) :
  own_walk u ks x → same_shape u v → ∃ y, own_walk v ks y ∧ same_shape x y.
Proof.
  intros Hw. revert v. induction Hw as [u|fs1 k ks w x Hk Hw _ IH]; intros v Hs.
  - exists v. split; [constructor|done].
  - inversion Hs as [|fs1' fs2 Hfs]; subst.
    destruct (assoc_same_shape k fs1 fs2 Hfs) as [[Hnone _]|(w1 & w2 & H1 & H2 & Hww)];
      [congruence|].
    assert (w1 = w) as -> by congruence.
    destruct (IH w2 Hww) as (y & Hy & Hxy). exists y. split; [|done].
    eapply own_below; [done| |done]. by destruct (same_shape_truthy _ _ Hww).
Qed.

Lemma nav_table_same_shape (a1 a2 a3 a4 a5 a6 a7 a8 a9 a10
                            b1 b2 b3 b4 b5 b6 b7 b8 b9 b10 : string) :
  Forall (λ s, s ≠ "") [a1; a2; a3; a4; a5; a6; a7; a8; a9; a10] →
  Forall (λ s, s ≠ "") [b1; b2; b3; b4; b5; b6; b7; b8; b9; b10] →
  same_shape (nav_table a1 a2 a3 a4 a5 a6 a7 a8 a9 a10)
             (nav_table b1 b2 b3 b4 b5 b6 b7 b8 b9 b10).
Proof.
  intros Ha Hb. repeat (apply Forall_cons_1 in Ha as [? Ha]).
  repeat (apply Forall_cons_1 in Hb as [? Hb]).
  unfold nav_table. constructor. constructor; [|constructor].
  split; [done|]. constructor.
  repeat (constructor; [split; [done|by constructor]|]). constructor.
Qed.

(** The table of a supported locale is an own entry of [translations]. *)
Lemma supported_table (a : string) :
  a ∈ supported →
  ∃ a1 a2 a3 a4 a5 a6 a7 a8 a9 a10,
    own_walk translations [a] (nav_table a1 a2 a3 a4 a5 a6 a7 a8 a9 a10) ∧
    Forall (λ s, s ≠ "") [a1; a2; a3; a4; a5; a6; a7; a8; a9; a10].
Proof.
  unfold supported. rewrite !elem_of_cons, elem_of_nil.
  intros [->|[->|[->|[->|[]]]]]; do 10 eexists;
    (split; [eapply own_below; [reflexivity..|apply own_here]|]);
    repeat (constructor; [discriminate|]); constructor.
Qed.

Lemma own_walk_cons_inv (fields : list (string * value)) (k : string)
    (ks : list string) (u : value) :
  own_walk (VObj fields) (k :: ks) u ↔
  ∃ w, assoc k fields = Some w ∧ truthy w = true ∧ own_walk w ks u.
Proof.
  split.
  - inversion 1; subst. eauto.
  - intros (w & Hk & Hw & Hrest). by eapply own_below.
Qed.

Lemma supported_same_shape (a b : string) :
  a ∈ supported → b ∈ supported →
  ∃ ta tb, own_walk translations [a] ta ∧ own_walk translations [b] tb ∧ same_shape ta tb.
Proof.
  intros (a1 & a2 & a3 & a4 & a5 & a6 & a7 & a8 & a9 & a10 & Hta & Ha)%supported_table.
  intros (b1 & b2 & b3 & b4 & b5 & b6 & b7 & b8 & b9 & b10 & Htb & Hb)%supported_table.
  eexists _, _. split; [exact Hta|]. split; [exact Htb|]. by apply nav_table_same_shape.
Qed.

Lemma supported_own_walk (a b key sb : string) :
  a ∈ supported → b ∈ supported →
  own_walk translations (b :: split_dot key) (VStr sb) →
  ∃ sa, own_walk translations (a :: split_dot key) (VStr sa).
Proof.
  intros Ha Hb Hw. destruct (supported_same_shape b a Hb Ha) as (tb & ta & Htb & Hta & Hs).
  unfold translations in *. apply own_walk_cons_inv in Hw as (w & Hk & Hw & Hrest).
  apply own_walk_cons_inv in Htb as (tb' & Hk' & _ & Hhere).
  inversion Hhere; subst. assert (w = tb) as -> by congruence.
  apply own_walk_cons_inv in Hta as (ta' & Hka & Hta & Hhere').
  inversion Hhere'; subst.
  destruct (own_walk_same_shape _ _ _ _ Hrest Hs) as (y & Hy & Hxy).
  inversion Hxy; subst. eexists. apply own_walk_cons_inv. eauto.
Qed.

(** X5: the four tables of i18n.js have the same keys.  They have the
    same shape, so a key that reaches a text through the entries of the
    table of one of [en], [he], [ar], [ru] reaches one through the table
    of each; for such a key, whatever the built-ins of the page, [t]
    returns a text and [translatePage] writes it, in every one of the
    four locales, and the text is not the key. *)
Theorem translations_same_keys (a b : string) :
  a ∈ supported → b ∈ supported →
  (∃ ta tb, own_walk translations [a] ta ∧ own_walk translations [b] tb ∧
            same_shape ta tb) ∧
  (∀ (H : Host) key sb e,
     data_translate e = Some key →
     own_walk translations (b :: split_dot key) (VStr sb) →
     ∃ sa, own_walk translations (a :: split_dot key) (VStr sa) ∧
           t a key = inr (VStr sa) ∧ translation_of a e = Some sa ∧ sa ≠ key).
Proof.
  intros Ha Hb. split; [by apply supported_same_shape|].
  intros H key sb e He Hw.
  destruct (supported_own_walk a b key sb Ha Hb Hw) as [sa Hsa].
  exists sa. split; [done|].
  pose proof (own_walk_ends _ _ _ Hsa) as Hends.
  inversion Hends as [|v k ks w u Hv Hk Htr Hrest]; subst.
  split; [by eapply t_returns_end|].
  split; [by eapply translation_of_walk_ends|by eapply own_walk_not_key].
Qed.

(** On a page without built-ins the four locales cover one another. *)
Lemma bare_page_walk_same_shape (u v : value) (ks : list string) :
  same_shape u v →
  ∃ u' v', @page_walk bare_host u ks = inr u' ∧ @page_walk bare_host v ks = inr v' ∧
           same_shape u' v'.
Proof.
  revert u v. induction ks as [|k ks IH]; intros u v Hs; [by exists u, v|].
  destruct (same_shape_truthy _ _ Hs) as [Hu Hv]. simpl. rewrite Hu, Hv.
  destruct Hs as [s1 s2 H1 H2|fs1 fs2 Hfs].
  - simpl. apply IH. by constructor.
  - simpl. destruct (assoc_same_shape k fs1 fs2 Hfs) as [[-> ->]|(x & y & -> & -> & Hxy)].
    + simpl. apply IH. by constructor.
    + destruct (same_shape_truthy _ _ Hxy) as [-> ->]. by apply IH.
Qed.

Lemma bare_supported_table (a : string) :
  a ∈ supported →
  ∃ a1 a2 a3 a4 a5 a6 a7 a8 a9 a10,
    @get_prop bare_host translations a = inr (nav_table a1 a2 a3 a4 a5 a6 a7 a8 a9 a10) ∧
    Forall (λ s, s ≠ "") [a1; a2; a3; a4; a5; a6; a7; a8; a9; a10].
Proof.
  unfold supported. rewrite !elem_of_cons, elem_of_nil.
  intros [->|[->|[->|[->|[]]]]]; do 10 eexists; (split; [reflexivity|]);
    repeat (constructor; [discriminate|]); constructor.
Qed.

Lemma bare_unsupported_table (b : string) :
  b ∉ supported → @get_prop bare_host translations b = inr VUndef.
Proof.
  unfold supported. rewrite !not_elem_of_cons. intros (H1 & H2 & H3 & H4 & _).
  unfold translations, get_prop, prop. simpl.
  repeat match goal with
  | |- context [String.eqb b ?c] => destruct (String.eqb_spec b c); [done|]
  end. done.
Qed.

Lemma bare_page_walk_undefined (ks : list string) :
  @page_walk bare_host VUndef ks = inr VUndef.
Proof. induction ks; simpl; done. Qed.

Lemma bare_supported_covers (a b : string) : a ∈ supported → @covers bare_host a b.
Proof.
  intros (a1 & a2 & a3 & a4 & a5 & a6 & a7 & a8 & a9 & a10 & Hta & Ha)%bare_supported_table.
  intros e. destruct (data_translate e) as [attr|] eqn:He;
    [|unfold translation_of; rewrite He; by intros [? ?]].
  rewrite !(@translation_of_keyed bare_host _ _ _ He). unfold page_lookup. rewrite Hta.
  destruct (decide (b ∈ supported)) as [Hb|Hb].
  - apply bare_supported_table in Hb
      as (b1 & b2 & b3 & b4 & b5 & b6 & b7 & b8 & b9 & b10 & Htb & Hb).
    rewrite Htb.
    destruct (bare_page_walk_same_shape _ _ (split_dot attr)
                (nav_table_same_shape _ _ _ _ _ _ _ _ _ _ _ _ _ _ _ _ _ _ _ _ Ha Hb))
      as (u & v & -> & -> & Huv).
    destruct Huv; simpl; [eauto|by intros [? ?]].
  - rewrite (bare_unsupported_table b Hb), bare_page_walk_undefined. by intros [? ?].
Qed.

Lemma translatePage_switching_lossless_witness :
  @covers bare_host "ru" "he" ∧
  document (exec (@translatePage bare_host)
              (with_currentLang "ru"
                 (exec (@translatePage bare_host) (with_currentLang "he" (sample_state "en" false))))) =
  document (exec (@translatePage bare_host) (with_currentLang "ru" (sample_state "en" false))) ∧
  text_at [1; 0; 1]
    (document (exec (@translatePage bare_host) (with_currentLang "ru" (sample_state "en" false)))) =
    Some "Выход".
Proof.
  assert (@covers bare_host "ru" "he") as Hcov.
  { apply bare_supported_covers. unfold supported. do 3 (apply elem_of_cons; right).
    apply elem_of_cons. by left. }
  split; [exact Hcov|].
  destruct (@translatePage_switching_lossless bare_host "ru" "he" (sample_state "en" false)
              Hcov (bare_walks_return _ _) (bare_walks_return _ _)) as (_ & _ & Hdoc).
  split; [exact Hdoc|reflexivity].
Defined.

Lemma t_agrees_with_translatePage_witness :
  @t bare_host "ru" "nav.logout" = inr (VStr "Выход") ∧
  @translation_of bare_host "ru" (Element "a" [] (Some "nav.logout") ∅ None) = Some "Выход" ∧
  @t bare_host "ru" "menu.nav.logout" = inr (VStr "menu.nav.logout") ∧
  @translation_of bare_host "ru" (Element "a" [] (Some "menu.nav.logout") ∅ None) =
    Some "Выход".
Proof.
  destruct (@t_agrees_with_translatePage bare_host "ru" "Выход" _ eq_refl) as [Hsame Hpart].
  match type of Hsame with ∀ key e, _ → walk_ends ?table _ _ → _ =>
    assert (@walk_ends bare_host table (split_dot "nav.logout") (VStr "Выход")) as Hw
  end.
  { eapply ends_below; [reflexivity..|]. eapply ends_below; [reflexivity..|]. apply ends_here. }
  destruct (Hsame "nav.logout" (Element "a" [] (Some "nav.logout") ∅ None) eq_refl Hw)
    as [H1 H2].
  destruct (Hpart "menu" "nav.logout" (Element "a" [] (Some "menu.nav.logout") ∅ None)
              VUndef eq_refl eq_refl eq_refl eq_refl Hw) as [H3 H4].
  repeat split; assumption.
Defined.

Lemma translations_same_keys_witness :
  "ar" ∈ supported ∧ "en" ∈ supported ∧
  @t accessor_host "ar" "nav.logout" = inr (VStr "تسجيل خروج") ∧
  @translation_of accessor_host "ar" (Element "a" [] (Some "nav.logout") ∅ None) =
    Some "تسجيل خروج".
Proof.
  assert ("ar" ∈ supported) as Ha.
  { unfold supported. apply elem_of_cons. right. apply elem_of_cons. right.
    apply elem_of_cons. by left. }
  assert ("en" ∈ supported) as He by (unfold supported; apply elem_of_cons; by left).
  split; [exact Ha|]. split; [exact He|].
  destruct (translations_same_keys "ar" "en" Ha He) as (_ & Hkeys).
  assert (own_walk translations ("en" :: split_dot "nav.logout") (VStr "Logout")) as Hen.
  { eapply own_below; [reflexivity..|]. eapply own_below; [reflexivity..|].
    eapply own_below; [reflexivity..|]. apply own_here. }
  destruct (Hkeys accessor_host "nav.logout" "Logout"
              (Element "a" [] (Some "nav.logout") ∅ None) eq_refl Hen)
    as (sa & Hsa & Ht & Htr & _).
  assert (sa = "تسجيل خروج") as ->.
  { vm_compute in Htr. by injection Htr as <-. }
  split; [exact Ht|exact Htr].
Defined.

(** ** [init] *)

Lemma alter_at_on_elem_Text (f : element → element) (p : path) (s : string) :
  alter_at (on_elem f) p (Text s) = Text s.
Proof. by destruct p. Qed.

(** A change of a record that the loop does not look at can be made before
    the loop or after it. *)
Lemma rewrite_tree_on_elem (nt : element → list node → option string)
    (f : element → element) (p : path) (d : node) :
  (∀ e cs cs', nt e cs = nt e cs') →
  (∀ e cs, nt (f e) cs = nt e cs) →
  rewrite_tree nt (alter_at (on_elem f) p d) = alter_at (on_elem f) p (rewrite_tree nt d).
Proof.
  intros Hind Hf. revert d. induction p as [|i p IH]; intros d.
  - destruct d as [s|e cs]; [done|]. simpl alter_at. simpl on_elem.
    rewrite !rewrite_tree_Elem, Hf. by destruct (nt e cs).
  - destruct d as [s|e cs]; [done|]. rewrite alter_at_cons, !rewrite_tree_Elem.
    rewrite (Hind e _ cs). destruct (nt e cs) as [s|].
    + rewrite alter_at_cons. f_equal. unfold text_children.
      destruct (String.eqb s ""); [by destruct i|]. destruct i as [|i]; [|done].
      change (alter ?g 0 [?x]) with [g x]. by rewrite alter_at_on_elem_Text.
    + rewrite alter_at_cons. f_equal. apply list_fmap_alter.
      apply Forall_true. intros c. apply IH.
Qed.

Lemma is_body_on_children (g : list node → list node) (n : node) :
  is_body (on_children g n) = is_body n.
Proof. by destruct n. Qed.

Lemma body_path_on_children (g : list node → list node) (b : path) (d : node) :
  body_path d = Some b → body_path (alter_at (on_children g) b d) = Some b.
Proof.
  destruct d as [s|e cs]; [done|]. simpl.
  destruct (find_index is_body cs) as [i|] eqn:Hi; [|done]. intros [= <-].
  rewrite alter_at_cons. simpl.
  rewrite (find_index_alter is_body), Hi; [done|].
  intros n. apply is_body_on_children.
Qed.

Lemma is_body_rewrite_tree (nt : element → list node → option string) (c : node) :
  is_body (rewrite_tree nt c) = is_body c.
Proof. destruct c as [s|e cs]; [done|]. rewrite rewrite_tree_Elem. by destruct (nt e cs). Qed.

Lemma find_index_fmap {A : Type} (t : A → bool) (f : A → A) (l : list A) :
  (∀ x, t (f x) = t x) → find_index t (f <$> l) = find_index t l.
Proof.
  intros Hf. induction l as [|x l IH]; [done|].
  rewrite fmap_cons. simpl. by rewrite Hf, IH.
Qed.

(** The body that is found after the loop was the body before it. *)
Lemma body_path_rewrite_tree (nt : element → list node → option string) (d : node) (b : path) :
  body_path (rewrite_tree nt d) = Some b → body_path d = Some b.
Proof.
  destruct d as [s|e cs]; [done|]. rewrite rewrite_tree_Elem.
  destruct (nt e cs) as [s|].
  - unfold text_children. by destruct (String.eqb s "").
  - simpl. by rewrite find_index_fmap by apply is_body_rewrite_tree.
Qed.

Lemma body_path_with_switcher (lang : string) (b : path) (d : node) :
  body_path d = Some b → body_path (with_switcher lang b d) = Some b.
Proof.
  intros Hb. unfold with_switcher. destruct (switcher_of d); [done|].
  by apply body_path_on_children.
Qed.

Lemma createLanguageSwitcher_run (st : state) (b : path) :
  body_path (document st) = Some b →
  createLanguageSwitcher st =
    (inr tt, State (currentLang st) (localStorage st) (storage_full st)
               (with_switcher (currentLang st) b (document st))
               (trace st ++ match switcher_of (document st) with
                            | Some _ => []
                            | None => [AppendChild b (new_switcher (currentLang st))]
                            end)).
Proof.
  intros Hb. unfold with_switcher.
  destruct (switcher_of (document st)) as [p|] eqn:Hsw.
  - rewrite createLanguageSwitcher_existing by (rewrite Hsw; eauto).
    rewrite app_nil_r. by destruct st.
  - by rewrite (createLanguageSwitcher_new st b).
Qed.

Lemma select_switcher_apply_doc (lang : string) (b : path) (d : node) :
  select (has_class "language-switcher") (apply_doc lang b d) =
  select (has_class "language-switcher") d.
Proof.
  unfold apply_doc. destruct (switcher_of d).
  - rewrite !select_on_elem; [done|..].
    + intros e. by apply has_class_direct.
    + apply has_class_reposition.
  - rewrite select_on_elem; [done|]. intros e. by apply has_class_direct.
Qed.

Section Init.
Context `{Host}.

Lemma translation_of_direct (lang l : string) (e : element) :
  translation_of l (direct lang e) = translation_of l e.
Proof. unfold translation_of, direct. by destruct (is_rtl lang). Qed.

Lemma translation_of_reposition (lang l : string) (e : element) :
  translation_of l (reposition lang e) = translation_of l e.
Proof. unfold translation_of, reposition. by destruct (is_rtl lang). Qed.

Lemma init_outcome_run (st : state) (b : path) :
  body_path (document st) = Some b →
  let out :=
    translate_doc (currentLang st)
      (apply_doc (currentLang st) b (with_switcher (currentLang st) b (document st))) in
  ∃ t_txt,
    init st =
      (out.1, State (currentLang st) (localStorage st) (storage_full st) out.2
                (trace st ++
                 match switcher_of (document st) with
                 | Some _ => []
                 | None => [AppendChild b (new_switcher (currentLang st))]
                 end ++
                 apply_trace (currentLang st) b
                   (switcher_of (with_switcher (currentLang st) b (document st))) ++
                 t_txt)) ∧
    Forall is_text_set t_txt.
Proof.
  intros Hb out. unfold init.
  rewrite run_bind, (createLanguageSwitcher_run st b Hb).
  rewrite run_bind, (applyLanguage_run _ b) by (by apply body_path_with_switcher).
  simpl.
  match goal with |- context [translatePage ?s] =>
    destruct (translatePage_outcome s) as (t_txt & Hrun & Htxt) end.
  exists t_txt. rewrite Hrun. simpl. rewrite <- !app_assoc.
  split; [done|]. by eapply Forall_impl; [|apply written_is_text_set].
Qed.

Lemma walks_return_init_doc (lang l : string) (b : path) (d : node) :
  walks_return lang (apply_doc l b (with_switcher l b d)) ↔ walks_return lang d.
Proof. by rewrite walks_return_apply_doc, walks_return_with_switcher. Qed.

Lemma init_run (st : state) (b : path) :
  body_path (document st) = Some b →
  walks_return (currentLang st) (document st) →
  ∃ t_txt,
    init st =
      (inr tt, State (currentLang st) (localStorage st) (storage_full st)
                 (translate_tree (currentLang st)
                    (apply_doc (currentLang st) b
                       (with_switcher (currentLang st) b (document st))))
                 (trace st ++
                  match switcher_of (document st) with
                  | Some _ => []
                  | None => [AppendChild b (new_switcher (currentLang st))]
                  end ++
                  apply_trace (currentLang st) b
                    (switcher_of (with_switcher (currentLang st) b (document st))) ++
                  t_txt)) ∧
    Forall is_text_set t_txt.
Proof.
  intros Hb Hret. destruct (init_outcome_run st b Hb) as (t_txt & Hrun & Htxt).
  rewrite translate_doc_returns in Hrun by (by apply walks_return_init_doc).
  eauto.
Qed.

Lemma init_no_body (st : state) :
  body_path (document st) = None → init st = (inl TypeError, st).
Proof.
  intros Hb. unfold init. rewrite run_bind.
  destruct (switcher_of (document st)) as [p|] eqn:Hsw.
  - rewrite createLanguageSwitcher_existing by (rewrite Hsw; eauto).
    by rewrite run_bind, applyLanguage_no_body.
  - by rewrite createLanguageSwitcher_no_body.
Qed.

(** X6: what [init] leaves.  On a document without a body it throws a
    [TypeError] and has changed nothing: no keyed element is translated.
    On a document with a body it appends a switcher to the body if there
    was none, lays the page out for the active locale and then
    translates, in this order.  It returns exactly when no key of the
    document makes a read throw, and the document is then the translated
    one, in which every element whose key resolves shows the text the key
    names; when a walk throws, the exception leaves [init] after the
    switcher was appended and the layout applied.  Either way every
    element of the final document has the record that appending and
    layout gave it. *)
Theorem init_outcome (st : state) :
  match body_path (document st) with
  | Some b =>
      let lang := currentLang st in
      let d1 := apply_doc lang b (with_switcher lang b (document st)) in
      (result init st = inr tt ↔ walks_return lang (document st)) ∧
      (walks_return lang (document st) →
       document (exec init st) = translate_tree lang d1 ∧
       ∀ q e' cs' key table s,
         elem_at q (document (exec init st)) = Some (e', cs') →
         data_translate e' = Some key →
         get_prop translations lang = inr table →
         walk_ends table (split_dot key) (VStr s) →
         cs' = text_children s) ∧
      (∀ q e', record_at q (document (exec init st)) = Some e' →
               record_at q d1 = Some e') ∧
      ∃ t_txt,
        trace (exec init st) =
          trace st ++
          match switcher_of (document st) with
          | Some _ => []
          | None => [AppendChild b (new_switcher lang)]
          end ++
          apply_trace lang b (switcher_of (with_switcher lang b (document st))) ++
          t_txt ∧
        Forall is_text_set t_txt
  | None => init st = (inl TypeError, st)
  end.
Proof.
  destruct (body_path (document st)) as [b|] eqn:Hb; [|by apply init_no_body].
  intros lang d1.
  destruct (init_outcome_run st b Hb) as (t_txt & Hrun & Htxt).
  unfold result, exec. rewrite Hrun. simpl. fold lang. fold d1.
  split; [|split; [|split]].
  - rewrite translate_doc_result. apply walks_return_init_doc.
  - intros Hret. rewrite translate_doc_returns by (by apply walks_return_init_doc).
    split; [done|]. intros q e' cs' key table s Hat Hkey Htable Hw. simpl in Hat.
    apply elem_at_translate_tree in Hat as [_ Hs]. apply Hs.
    by eapply translation_of_walk_ends.
  - intros q e'. apply record_at_translate_doc.
  - eauto.
Qed.

(** X7: [init] can be called again.  On a document with at most one
    switcher and no key that makes a read throw, if the first call leaves
    a body and a switcher in the document, a second call returns and
    leaves the document as the first one left it. *)
Theorem init_idempotent (st : state) :
  (switcher_count (document st) ≤ 1)%nat →
  walks_return (currentLang st) (document st) →
  is_Some (body_path (document (exec init st))) →
  is_Some (switcher_of (document (exec init st))) →
  result init st = inr tt ∧
  result init (exec init st) = inr tt ∧
  document (exec init (exec init st)) = document (exec init st).
Proof.
  intros Hcount Hret [b1 Hb1] [p1 Hp1].
  destruct (body_path (document st)) as [b|] eqn:Hb.
  2: { unfold exec in Hb1. rewrite init_no_body in Hb1 by done. simpl in Hb1. congruence. }
  destruct (init_run st b Hb Hret) as (t_txt & Hrun & _).
  unfold result, exec in *. rewrite Hrun in *. simpl in *.
  set (lang := currentLang st) in *.
  set (d' := apply_doc lang b (with_switcher lang b (document st))) in *.
  (* the body and the switcher of the translated document are those of [d'] *)
  assert (b1 = b) as ->.
  { apply body_path_rewrite_tree in Hb1. unfold d' in Hb1.
    rewrite body_path_apply_doc, (body_path_with_switcher lang b _ Hb) in Hb1. congruence. }
  assert (switcher_of d' = Some p1) as Hp'.
  { destruct (switcher_of_Some _ _ Hp1) as (e1 & cs1 & Hat1 & Hsel1).
    apply elem_at_translate_tree in Hat1 as [(cs & Hat') _].
    pose proof (elem_at_select _ _ _ _ _ Hat' Hsel1) as Hin.
    assert (length (select (has_class "language-switcher") d') ≤ 1)%nat as Hle.
    { unfold d'. rewrite select_switcher_apply_doc.
      pose proof (switcher_count_create st Hcount) as Hc.
      unfold exec, switcher_count in Hc.
      by rewrite (createLanguageSwitcher_run st b Hb) in Hc. }
    unfold switcher_of.
    destruct (select (has_class "language-switcher") d') as [|p0 [|p2 l]].
    - by apply elem_of_nil in Hin.
    - apply list_elem_of_singleton in Hin. by subst.
    - simpl in Hle. lia. }
  assert (apply_doc lang b (translate_tree lang d') = translate_tree lang d') as Hsame.
  { unfold apply_doc at 1. rewrite Hp1. unfold translate_tree.
    rewrite <- !rewrite_tree_on_elem;
      auto using translation_of_direct, translation_of_reposition.
    f_equal.
    transitivity (apply_doc lang b d'); [unfold apply_doc; by rewrite Hp'|].
    apply apply_doc_idempotent. }
  assert (walks_return lang (translate_tree lang d')) as Hret'.
  { apply walks_return_translate_tree. by apply walks_return_init_doc. }
  destruct (init_run (State lang (localStorage st) (storage_full st)
                        (translate_tree lang d')
                        (trace st ++
                         match switcher_of (document st) with
                         | Some _ => []
                         | None => [AppendChild b (new_switcher lang)]
                         end ++
                         apply_trace lang b (switcher_of (with_switcher lang b (document st))) ++
                         t_txt)) b Hb1 Hret') as (t2 & Hrun2 & _).
  rewrite Hrun2. simpl. split; [done|]. split; [done|].
  unfold with_switcher. rewrite Hp1, Hsame. apply translate_tree_idempotent.
Qed.

End Init.

Lemma init_outcome_witness :
  let st := load {["userLanguage" := "ar"]} false sample_page in
  result (@init bare_host) st = inr tt ∧
  document (exec (@init bare_host) st) =
    @translate_tree bare_host "ar"
      (apply_doc "ar" [1] (with_switcher "ar" [1] sample_page)) ∧
  (∃ e, elem_at [1; 0; 0] (document (exec (@init bare_host) st)) =
          Some (e, [Text "الملف الشخصي"])).
Proof.
  intros st. pose proof (@init_outcome bare_host st) as Hinit.
  change (body_path (document st)) with (Some [1]) in Hinit.
  destruct Hinit as (Hres & Hdoc & _).
  destruct (Hdoc (bare_walks_return _ _)) as [Hd Hkey].
  split; [apply Hres, bare_walks_return|]. split; [exact Hd|].
  destruct (elem_at [1; 0; 0] (document (exec (@init bare_host) st))) as [[e cs]|] eqn:Hat;
    [|vm_compute in Hat; discriminate Hat].
  exists e. f_equal. f_equal.
  assert (data_translate e = Some "nav.profile") as He.
  { pose proof Hat as Hat'. vm_compute in Hat'. by injection Hat' as <- _. }
  apply (Hkey [1; 0; 0] e cs "nav.profile" _ "الملف الشخصي" Hat He eq_refl).
  eapply ends_below; [reflexivity..|]. eapply ends_below; [reflexivity..|].
  apply ends_here.
Defined.

Lemma init_idempotent_witness :
  let st := load {["userLanguage" := "ar"]} false sample_page in
  (switcher_count (document st) ≤ 1)%nat ∧
  body_path (document (exec (@init bare_host) st)) = Some [1] ∧
  switcher_of (document (exec (@init bare_host) st)) = Some [1; 2] ∧
  result (@init bare_host) (exec (@init bare_host) st) = inr tt ∧
  document (exec (@init bare_host) (exec (@init bare_host) st)) =
    document (exec (@init bare_host) st).
Proof.
  intros st.
  assert (switcher_count (document st) ≤ 1)%nat as Hc by (vm_compute; lia).
  assert (body_path (document (exec (@init bare_host) st)) = Some [1]) as Hb
    by (vm_compute; reflexivity).
  assert (switcher_of (document (exec (@init bare_host) st)) = Some [1; 2]) as Hs
    by (vm_compute; reflexivity).
  destruct (@init_idempotent bare_host st Hc (bare_walks_return _ _)) as (_ & Hres & Hdoc).
  - rewrite Hb. eauto.
  - rewrite Hs. eauto.
  - repeat split; assumption.
Defined.

(** ** The two ways of marking the active control *)

Lemma node_at_app (p q : path) (d : node) :
  node_at (p ++ q) d = node_at p d ≫= node_at q.
Proof.
  revert d. induction p as [|i p IH]; intros d; [done|].
  destruct d as [s|e cs]; [done|]. simpl.
  destruct (cs !! i) as [c|]; [apply IH|done].
Qed.

Lemma restyle_id (a : bool) (e : element) : styled a e → restyle a e = e.
Proof.
  intros (Hc & Hb & Hk). unfold restyle. destruct a.
  - rewrite add_class_id by (by apply Hc).
    rewrite (set_style_id "background") by done. by apply set_style_id.
  - rewrite remove_class_id by (by intros ?%Hc).
    rewrite (set_style_id "background") by done. by apply set_style_id.
Qed.

(** [isActive] goes by the label of a control, [createLanguageSwitcher] by
    its code: on the four controls the two agree, whatever the language. *)
Lemma isActive_languages (lang : string) (l : string * string) :
  l ∈ languages → isActive lang l.2 = String.eqb l.1 lang.
Proof.
  intros Hl.
  destruct (isActive lang l.2) eqn:Ha, (String.eqb_spec l.1 lang) as [He|He]; try done.
  - apply isActive_spec in Ha. exfalso. apply He. clear He.
    unfold languages in *. rewrite !elem_of_cons, elem_of_nil in Ha, Hl.
    destruct l as [code label]. simpl in *.
    destruct Hl as [Hl|[Hl|[Hl|[Hl|[]]]]], Ha as [Ha|[Ha|[Ha|[Ha|[]]]]];
      congruence.
  - subst lang. rewrite <- Ha. apply isActive_spec. by destruct l.
Qed.

Lemma lang_button_restyle (lang : string) (l : string * string) (e : element)
    (cs : list node) :
  l ∈ languages → lang_button lang l = Elem e cs →
  restyle (isActive lang (textContent (Elem e cs))) e = e.
Proof.
  intros Hl. unfold lang_button. intros [= <- <-].
  rewrite textContent_text_children, (isActive_languages lang l Hl).
  apply restyle_id. unfold styled.
  destruct (String.eqb l.1 lang); simpl.
  - split; [|by vm_compute]. split; [done|]. intros _.
    apply elem_of_cons. right. by apply list_elem_of_singleton.
  - split; [|by vm_compute]. split; [|done].
    intros Hin%list_elem_of_singleton. discriminate Hin.
Qed.

Lemma select_buttons_new_switcher (lang : string) :
  select (has_class "lang-btn") (new_switcher lang) = [[0]; [1]; [2]; [3]].
Proof.
  unfold new_switcher, languages, lang_button. rewrite select_Elem.
  cbn -[String.eqb]. by repeat destruct (String.eqb _ lang).
Qed.

Lemma node_at_new_switcher (lang : string) (i : nat) :
  node_at [i] (new_switcher lang) = lang_button lang <$> languages !! i.
Proof.
  unfold new_switcher. cbn [node_at]. rewrite list_lookup_fmap.
  by destruct (languages !! i).
Qed.

Lemma foldl_fixed {A B : Type} (f : A → B → A) (x : A) (l : list B) :
  (∀ y, y ∈ l → f x y = x) → foldl f x l = x.
Proof.
  induction l as [|y l IH]; intros Hf; [done|]. simpl.
  rewrite (Hf y) by left. apply IH. intros z Hz. apply Hf. by right.
Qed.

(** X8: the marking that [createLanguageSwitcher] gives the controls is the
    one the loop of [changeLanguage] computes for the same language.  On
    each control [isActive], which goes by the label, holds exactly when
    the code of the control is the language; so on a page which had no
    control before, running the loop for the active locale right after the
    switcher was made changes nothing. *)
Theorem restyle_agrees_with_creation (st : state) (b : path) :
  body_path (document st) = Some b →
  switcher_of (document st) = None →
  select (has_class "lang-btn") (document st) = [] →
  (∀ lang l, l ∈ languages → isActive lang l.2 = String.eqb l.1 lang) ∧
  result (restyle_buttons (currentLang st)) (exec createLanguageSwitcher st) = inr tt ∧
  document (exec (restyle_buttons (currentLang st)) (exec createLanguageSwitcher st)) =
    document (exec createLanguageSwitcher st).
Proof.
  intros Hb Hsw Hnone. split; [apply isActive_languages|].
  destruct (body_path_Some _ _ Hb) as (eb & cs & Hat & _).
  set (lang := currentLang st).
  set (d1 := alter_at (on_children (λ cs, cs ++ [new_switcher lang])) b (document st)).
  assert (exec createLanguageSwitcher st =
            emit (AppendChild b (new_switcher lang)) (with_document d1 st)) as Hex.
  { unfold exec. by rewrite (createLanguageSwitcher_new st b Hsw Hb). }
  rewrite !Hex.
  remember (emit (AppendChild b (new_switcher lang)) (with_document d1 st)) as st1 eqn:Hst1.
  assert (document st1 = d1) as Hd1 by (by subst st1).
  destruct (forEach_restyle_run lang (select (has_class "lang-btn") (document st1)) st1)
    as (tr & Hrun & _).
  assert (restyle_buttons lang st1 =
            (inr tt, State (currentLang st1) (localStorage st1) (storage_full st1)
                       (document st1) (trace st1 ++ tr))) as Hall.
  { unfold restyle_buttons. rewrite run_bind. simpl. rewrite Hrun.
    rewrite foldl_fixed; [done|]. intros p Hp. rewrite Hd1 in Hp |- *. unfold d1 in Hp.
    rewrite (select_appended _ _ b _ eb cs Hnone Hat), select_buttons_new_switcher in Hp.
    assert (node_at (b ++ [length cs]) d1 = Some (new_switcher lang)) as Hnode
      by (by eapply node_at_appended).
    assert (∃ i l, p = (b ++ [length cs]) ++ [i] ∧ languages !! i = Some l)
      as (i & l & -> & Hl).
    { rewrite !fmap_cons, !elem_of_cons in Hp. simpl in Hp.
      destruct Hp as [->|[->|[->|[->|Hp]]]]; [| | | |by apply elem_of_nil in Hp].
      - exists 0, ("en", "EN"). by rewrite <- app_assoc.
      - exists 1, ("he", "HE"). by rewrite <- app_assoc.
      - exists 2, ("ar", "AR"). by rewrite <- app_assoc.
      - exists 3, ("ru", "RU"). by rewrite <- app_assoc. }
    assert (node_at ((b ++ [length cs]) ++ [i]) d1 = Some (lang_button lang l)) as Hbtn.
    { rewrite node_at_app, Hnode.
      change (node_at [i] (new_switcher lang) = Some (lang_button lang l)).
      by rewrite node_at_new_switcher, Hl. }
    unfold restyle_step. rewrite Hbtn.
    apply alter_at_on_elem_id. intros e. unfold record_at, elem_at. rewrite Hbtn.
    destruct (lang_button lang l) as [s|e' cs'] eqn:Hlb; [done|]. intros [= <-].
    eapply lang_button_restyle; [|exact Hlb]. by eapply list_elem_of_lookup_2. }
  unfold result, exec. by rewrite Hall.
Qed.

Lemma restyle_agrees_with_creation_witness :
  let st := sample_state "he" false in
  body_path (document st) = Some [1] ∧
  switcher_of (document st) = None ∧
  select (has_class "lang-btn") (document st) = [] ∧
  document (exec (restyle_buttons "he") (exec createLanguageSwitcher st)) =
    document (exec createLanguageSwitcher st).
Proof.
  intros st.
  assert (body_path (document st) = Some [1]) as Hb by reflexivity.
  assert (switcher_of (document st) = None) as Hs by reflexivity.
  assert (select (has_class "lang-btn") (document st) = []) as Hn by reflexivity.
  destruct (restyle_agrees_with_creation st [1] Hb Hs Hn) as (_ & _ & Hdoc).
  repeat split; assumption.
Defined.

(** ** What the fallback writes *)

Lemma text_kept_refl (d : node) : text_kept d d.
Proof. intros p e cs Hat. exists cs. auto. Qed.

Lemma textContent_list_alter (g : node → node) (i : nat) (cs : list node) :
  (∀ c, textContent (g c) = textContent c ∨ has_high (textContent (g c)) = true) →
  textContent_list (alter g i cs) = textContent_list cs ∨
  has_high (textContent_list (alter g i cs)) = true.
Proof.
  intros Hg. revert i. induction cs as [|c cs IH]; intros [|i]; try (by left).
  - change (alter g 0 (c :: cs)) with (g c :: cs).
    change (textContent_list (?x :: ?l)) with (textContent x +:+ textContent_list l).
    destruct (Hg c) as [->|Hh]; [by left|]. right. by rewrite has_high_app, Hh.
  - change (alter g (S i) (c :: cs)) with (c :: alter g i cs).
    change (textContent_list (?x :: ?l)) with (textContent x +:+ textContent_list l).
    destruct (IH i) as [->|Hh]; [by left|]. right.
    by rewrite has_high_app, Hh, orb_true_r.
Qed.

Section TextSet.
Variable s : string.
Hypothesis s_high : has_high s = true.

Lemma text_set_text (p : path) (n : node) :
  textContent (alter_at (on_children (λ _, text_children s)) p n) = textContent n ∨
  has_high (textContent (alter_at (on_children (λ _, text_children s)) p n)) = true.
Proof.
  revert n. induction p as [|i p IH]; intros n.
  - destruct n as [t|e cs]; [by left|]. right. simpl alter_at. simpl on_children.
    by rewrite textContent_text_children.
  - destruct n as [t|e cs]; [by left|]. rewrite alter_at_cons, !textContent_Elem.
    by apply textContent_list_alter.
Qed.

(** An element found after a text was set was there before, with the same
    record; its text is the old one, or holds the new text. *)
Lemma elem_at_text_set_text (p q : path) (d : node) (e' : element) (cs' : list node) :
  elem_at q (alter_at (on_children (λ _, text_children s)) p d) = Some (e', cs') →
  ∃ cs, elem_at q d = Some (e', cs) ∧
        (textContent_list cs' = textContent_list cs ∨
         has_high (textContent_list cs') = true).
Proof.
  revert q d. induction p as [|j p IH]; intros q d.
  - destruct d as [t|e cs]; simpl; [by rewrite elem_at_Text|].
    destruct q as [|i q]; [|by rewrite elem_at_text_children].
    rewrite !elem_at_nil. intros [= <- <-]. exists cs. split; [done|]. right.
    rewrite <- (textContent_Elem e). by rewrite textContent_text_children.
  - destruct d as [t|e cs]; [simpl; by rewrite elem_at_Text|].
    rewrite alter_at_cons. destruct q as [|i q].
    + rewrite !elem_at_nil. intros [= <- <-]. exists cs. split; [done|].
      apply textContent_list_alter. intros c. apply text_set_text.
    + rewrite !elem_at_cons, list_lookup_alter.
      case_decide as Hij; [|by eauto]. subst i.
      destruct (cs !! j) as [c|]; simpl; [apply IH|done].
Qed.

Lemma text_set_kept (d0 d : node) (p : path) :
  text_kept d0 d → text_kept d0 (alter_at (on_children (λ _, text_children s)) p d).
Proof.
  intros Hk q e cs' Hat.
  apply elem_at_text_set_text in Hat as (cs & Hat & Htext).
  destruct (Hk q e cs Hat) as (cs0 & Hat0 & Htext0). exists cs0. split; [done|].
  destruct Htext as [Heq|Hh]; [|by right]. rewrite Heq. exact Htext0.
Qed.

End TextSet.

Section FallbackRun.
Variable d0 : node.
Variable table : list (string * string).
Hypothesis table_keyed : well_keyed table.

Lemma fallback_element_written (english translated : string) (p : path) (st : state) :
  (english, translated) ∈ table →
  text_kept d0 (document st) →
  ∃ tr, fallback_element english translated p st =
          (inr tt, State (currentLang st) (localStorage st) (storage_full st)
                     (rewrite_step (fallback_text english translated) (document st) p)
                     (trace st ++ tr)) ∧
        Forall (fallback_written d0 table) tr ∧
        text_kept d0 (rewrite_step (fallback_text english translated) (document st) p).
Proof.
  intros Hin Hk.
  assert (has_high english = false ∧ has_high translated = true) as [Hen Htr].
  { unfold well_keyed in table_keyed. rewrite Forall_forall in table_keyed.
    apply (table_keyed _ Hin). }
  unfold fallback_element, rewrite_step, elem_at, fallback_text. rewrite run_bind. simpl.
  destruct (node_at p (document st)) as [[t|e cs]|] eqn:Hn;
    try (exists []; rewrite app_nil_r; split; [by destruct st|split; [constructor|done]]).
  match goal with |- context [String.eqb ?a english] =>
    destruct (String.eqb_spec a english) as [Heq|Hne] end;
    [|exists []; rewrite app_nil_r; split; [by destruct st|split; [constructor|done]]].
  change (textContent_list cs = english) in Heq.
  assert (elem_at p (document st) = Some (e, cs)) as Hat by (unfold elem_at; by rewrite Hn).
  exists [TextContentSet p translated]. split; [|split].
  - unfold textContent_set. rewrite mutate_run; [done|]. rewrite Hat. eauto.
  - apply Forall_singleton. exists english. split; [done|].
    destruct (Hk p e cs Hat) as (cs0 & Hat0 & Htext).
    destruct Htext as [Hsame|Hh]; [|congruence].
    split; [|rewrite Hat0; eauto].
    unfold text_at. unfold elem_at in Hat0.
    destruct (node_at p d0) as [[?|e0 cs0']|]; try done.
    injection Hat0 as -> ->.
    change (Some (textContent_list cs0) = Some english). congruence.
  - by apply text_set_kept.
Qed.

Lemma forEach_fallback_written (english translated : string) (l : list path) (st : state) :
  (english, translated) ∈ table →
  text_kept d0 (document st) →
  ∃ tr, forEach l (fallback_element english translated) st =
          (inr tt, State (currentLang st) (localStorage st) (storage_full st)
                     (foldl (rewrite_step (fallback_text english translated)) (document st) l)
                     (trace st ++ tr)) ∧
        Forall (fallback_written d0 table) tr ∧
        text_kept d0 (foldl (rewrite_step (fallback_text english translated)) (document st) l).
Proof.
  intros Hin. revert st. induction l as [|p l IH]; intros st Hk; simpl.
  - exists []. rewrite app_nil_r. split; [by destruct st|split; [constructor|done]].
  - destruct (fallback_element_written english translated p st Hin Hk)
      as (tr1 & Hrun1 & Htr1 & Hk1).
    rewrite run_bind, Hrun1.
    destruct (IH (State (currentLang st) (localStorage st) (storage_full st)
                    (rewrite_step (fallback_text english translated) (document st) p)
                    (trace st ++ tr1)) Hk1) as (tr2 & Hrun2 & Htr2 & Hk2).
    rewrite Hrun2. simpl.
    exists (tr1 ++ tr2). rewrite app_assoc.
    split; [done|split; [by apply Forall_app|done]].
Qed.

Lemma forEach_entries_written (entries : list (string * string)) (st : state) :
  entries ⊆ table →
  text_kept d0 (document st) →
  ∃ tr, forEach entries (λ entry,
          elements ← querySelectorAll any_element;
          forEach elements (fallback_element entry.1 entry.2)) st =
          (inr tt, State (currentLang st) (localStorage st) (storage_full st)
                     (fallback_tree entries (document st)) (trace st ++ tr)) ∧
        Forall (fallback_written d0 table) tr ∧
        text_kept d0 (fallback_tree entries (document st)).
Proof.
  revert st. induction entries as [|entry entries IH]; intros st Hsub Hk; simpl.
  - exists []. rewrite app_nil_r. split; [by destruct st|split; [constructor|done]].
  - rewrite run_bind, run_bind. simpl.
    destruct (forEach_fallback_written entry.1 entry.2
                (select any_element (document st)) st) as (tr1 & Hrun1 & Htr1 & Hk1).
    { destruct entry. apply Hsub. left. }
    { done. }
    rewrite Hrun1. rewrite rewrite_steps_tree in Hk1 |- * by done.
    destruct (IH (State (currentLang st) (localStorage st) (storage_full st)
                    (rewrite_tree (fallback_text entry.1 entry.2) (document st))
                    (trace st ++ tr1))) as (tr2 & Hrun2 & Htr2 & Hk2); [|exact Hk1|].
    { intros x Hx. apply Hsub. by right. }
    rewrite Hrun2. simpl. exists (tr1 ++ tr2). rewrite app_assoc.
    split; [done|split; [by apply Forall_app|done]].
Qed.

End FallbackRun.

(** X9: what [applyFallbackTranslation] does and does not do.  It returns
    for every language and every document, and leaves the locale and the
    storage alone.  For a language without a table, [en] among them, it
    does nothing at all: the fallback cannot bring a page back to
    English.  For [he], [ar] and [ru] every write replaces the content of
    an element whose text in the document it started from was exactly one
    of the English phrases by the translation of that phrase.  It makes
    no element and changes no record, and an element it leaves with a text
    in ASCII has the text it had. *)
Theorem applyFallbackTranslation_frame (language : string) (st : state) :
  ∃ tr,
    applyFallbackTranslation language st =
      (inr tt, State (currentLang st) (localStorage st) (storage_full st)
                 (fallback_doc language (document st)) (trace st ++ tr)) ∧
    match assoc language fallbackTranslations with
    | Some table => Forall (fallback_written (document st) table) tr
    | None => tr = [] ∧ fallback_doc language (document st) = document st
    end ∧
    text_kept (document st) (fallback_doc language (document st)).
Proof.
  rewrite fallback_doc_table. unfold applyFallbackTranslation.
  destruct (assoc language fallbackTranslations) as [table|] eqn:Htable.
  - destruct (fallbackTranslations_well_keyed _ _ Htable) as [Hwk _].
    destruct (forEach_entries_written (document st) table Hwk table st)
      as (tr & Hrun & Htr & Hk); [done|apply text_kept_refl|].
    exists tr. by rewrite Hrun.
  - exists []. rewrite app_nil_r. split; [by destruct st|].
    split; [done|apply text_kept_refl].
Qed.

(** ** Restaurant content marked for the translation service *)

Lemma has_class_set_data_translate (c v : string) (e : element) :
  has_class c (set_data_translate v e) = has_class c e.
Proof. reflexivity. Qed.

Lemma record_at_altered_paths (f : element → element) (l : list path) (q : path) (d : node) :
  (∀ e, f (f e) = f e) →
  record_at q (foldl (λ d p, alter_at (on_elem f) p d) d l) =
  if decide (q ∈ l) then f <$> record_at q d else record_at q d.
Proof.
  intros Hf. revert d. induction l as [|p l IH]; intros d; simpl.
  - reflexivity.
  - rewrite IH, record_at_on_elem.
    destruct (decide (q = p)) as [->|Hqp].
    + rewrite (decide_True (P := p ∈ p :: l)) by left.
      case_decide; [|done]. destruct (record_at p d); simpl; [by rewrite Hf|done].
    + destruct (decide (q ∈ l)) as [Hl|Hl].
      * by rewrite (decide_True (P := q ∈ p :: l)) by (by right).
      * rewrite (decide_False (P := q ∈ p :: l)); [done|].
        by intros [?|?]%elem_of_cons.
Qed.

Lemma text_at_altered_paths (f : element → element) (l : list path) (q : path) (d : node) :
  text_at q (foldl (λ d p, alter_at (on_elem f) p d) d l) = text_at q d.
Proof.
  revert d. induction l as [|p l IH]; intros d; simpl; [done|].
  rewrite IH. apply node_text_on_elem.
Qed.

Lemma record_at_mark_all (sel : element → bool) (q : path) (d : node) :
  record_at q (mark_all sel d) =
  (λ e, if sel e then set_data_translate "yes" e else e) <$> record_at q d.
Proof.
  unfold mark_all. rewrite record_at_altered_paths by done.
  case_decide as Hin.
  - apply select_elem_at in Hin as (e & cs & Hat & He).
    unfold record_at. rewrite Hat. simpl. by rewrite He.
  - destruct (record_at q d) as [e|] eqn:Hr; [|done]. simpl.
    destruct (sel e) eqn:He; [|done]. exfalso. apply Hin.
    apply record_at_Some in Hr as [cs Hat]. by eapply elem_at_select.
Qed.

Lemma record_at_handleRestaurantTranslation (q : path) (d : node) :
  record_at q (handleRestaurantTranslation d) = mark <$> record_at q d.
Proof.
  unfold handleRestaurantTranslation. rewrite !record_at_mark_all.
  destruct (record_at q d) as [e|]; [|done]. simpl. f_equal.
  unfold mark, is_restaurant_content.
  destruct (has_class "restaurant-card" e) eqn:H1;
    rewrite ?has_class_set_data_translate;
    destruct (has_class "restaurant-name" e) eqn:H2;
    rewrite ?has_class_set_data_translate;
    destruct (has_class "restaurant-details" e) eqn:H3; done.
Qed.

Lemma text_at_handleRestaurantTranslation (q : path) (d : node) :
  text_at q (handleRestaurantTranslation d) = text_at q d.
Proof.
  unfold handleRestaurantTranslation, mark_all. by rewrite !text_at_altered_paths.
Qed.

Lemma supported_nav_table `{Host} (a : string) :
  a ∈ supported →
  ∃ a1 a2 a3 a4 a5 a6 a7 a8 a9 a10,
    get_prop translations a = inr (nav_table a1 a2 a3 a4 a5 a6 a7 a8 a9 a10).
Proof.
  unfold supported. rewrite !elem_of_cons, elem_of_nil.
  intros [->|[->|[->|[->|[]]]]]; do 10 eexists; reflexivity.
Qed.

Section Marking.
Context `{Host}.
Hypothesis no_yes : ∀ v, inherited v "yes" = inr VUndef.

Lemma translation_of_yes (lang : string) (e : element) :
  lang ∈ supported → translation_of lang (set_data_translate "yes" e) = None.
Proof.
  intros (a1 & a2 & a3 & a4 & a5 & a6 & a7 & a8 & a9 & a10 & Ht)%supported_nav_table.
  rewrite (translation_of_keyed lang "yes") by done. unfold page_lookup. rewrite Ht.
  change (split_dot "yes") with ["yes"]. unfold nav_table. cbn [page_walk truthy].
  rewrite get_prop_truthy by done. unfold prop. cbn [assoc String.eqb]. simpl.
  by rewrite no_yes.
Qed.

(** X10: [handleRestaurantTranslation] sets [data-translate] to [yes] on
    every element of class [restaurant-card], [restaurant-name] or
    [restaurant-details] and changes nothing else.  No table of i18n.js
    has a key [yes], so for each of the four locales [translatePage] then
    visits these elements and writes to none of them, including those
    that carried a key of the tables before they were marked; what it
    writes to the other elements is what it wrote before. *)
Theorem marked_content_is_not_translated (lang : string) (d : node) :
  lang ∈ supported →
  (∀ q, record_at q (handleRestaurantTranslation d) = mark <$> record_at q d) ∧
  (∀ q, text_at q (handleRestaurantTranslation d) = text_at q d) ∧
  (∀ e, is_restaurant_content e = true →
        data_translate (mark e) = Some "yes" ∧ translation_of lang (mark e) = None) ∧
  (∀ st, document st = handleRestaurantTranslation d → currentLang st = lang →
     ∃ tr, trace (exec translatePage st) = trace st ++ tr ∧
           ∀ q s, TextContentSet q s ∈ tr →
                  ∃ e, record_at q d = Some e ∧ is_restaurant_content e = false ∧
                       translation_of lang e = Some s).
Proof.
  intros Hlang.
  assert (∀ e, is_restaurant_content e = true →
               data_translate (mark e) = Some "yes" ∧ translation_of lang (mark e) = None)
    as Hmarked.
  { intros e He. unfold mark. rewrite He. split; [done|]. by apply translation_of_yes. }
  split; [intros q; apply record_at_handleRestaurantTranslation|].
  split; [intros q; apply text_at_handleRestaurantTranslation|].
  split; [exact Hmarked|].
  intros st Hd <-. destruct (translatePage_outcome st) as (tr & Hrun & Htr).
  exists tr. split; [unfold exec; by rewrite Hrun|].
  intros q s Hin. rewrite Forall_forall in Htr. specialize (Htr _ Hin).
  destruct Htr as (e' & cs & Hat & Hs). rewrite Hd in Hat.
  assert (record_at q (handleRestaurantTranslation d) = Some e') as Hr
    by (unfold record_at; by rewrite Hat).
  rewrite record_at_handleRestaurantTranslation in Hr.
  destruct (record_at q d) as [e|]; [|done]. injection Hr as <-.
  exists e. split; [done|].
  destruct (is_restaurant_content e) eqn:He.
  - destruct (Hmarked e He) as [_ Hnone]. congruence.
  - split; [done|]. unfold mark in Hs. by rewrite He in Hs.
Qed.

End Marking.

Lemma marked_content_is_not_translated_witness :
  "en" ∈ supported ∧
  (@translation_of bare_host "ru" <$> record_at [1; 0] restaurant_page) =
    Some (Some "Рестораны") ∧
  (@translation_of bare_host "ru" <$>
     record_at [1; 0] (handleRestaurantTranslation restaurant_page)) = Some None ∧
  text_at [1; 0] (handleRestaurantTranslation restaurant_page) = Some "Restaurants".
Proof.
  assert ("ru" ∈ supported) as Hru.
  { unfold supported. do 3 (apply elem_of_cons; right). apply elem_of_cons. by left. }
  destruct (@marked_content_is_not_translated bare_host (λ _, eq_refl) "ru" restaurant_page Hru)
    as (Hrec & Htext & Hmarked & _).
  split; [unfold supported; apply elem_of_cons; by left|].
  split; [reflexivity|]. split.
  - rewrite Hrec.
    change (record_at [1; 0] restaurant_page)
      with (Some (Element "div" ["restaurant-card"] (Some "nav.restaurants") ∅ None)).
    change (Some (@translation_of bare_host "ru"
                    (mark (Element "div" ["restaurant-card"] (Some "nav.restaurants") ∅ None)))
            = Some None).
    exact (f_equal Some
             (proj2 (Hmarked (Element "div" ["restaurant-card"] (Some "nav.restaurants") ∅ None)
                       eq_refl))).
  - by rewrite Htext.
Defined.

(** * api-service.js: properties *)

Lemma arun_bind {A B : Type} (m : Async A) (f : A → Async B) (s : service) :
  (m ≫= f) s =
  match m s with
  | (inl e, s') => (inl e, s')
  | (inr x, s') => f x s'
  end.
Proof. reflexivity. Qed.

Ltac async_unfold :=
  cbv beta iota zeta delta
    [mbind Async_bind mret Async_ret get_service fetch response_json settled reject
     set_csrfToken].

Section APIFacts.
Context `{Browser}.

Lemma getCSRFToken_run (s : service) :
  getCSRFToken s =
  if to_boolean (csrfToken s) then (inr (csrfToken s), s)
  else
    let s1 := Service (baseURL s) (csrfToken s) (calls s ++ [token_call s]) in
    match server (calls s) (token_call s) with
    | None => (inl FetchRejected, s1)
    | Some r =>
        match json r with
        | None => (inl JsonRejected, s1)
        | Some data =>
            match member "csrf_token" data with
            | inl e => (inl e, s1)
            | inr token => (inr token, Service (baseURL s) token (calls s ++ [token_call s]))
            end
        end
    end.
Proof.
  unfold getCSRFToken, token_call. async_unfold.
  destruct (to_boolean (csrfToken s)) eqn:Ht; [done|].
  destruct (server _ _) as [r|]; [|done].
  destruct (json r) as [data|]; [|done].
  destruct (member "csrf_token" data) as [e|token]; done.
Qed.

Lemma request_run (endpoint : string) (options : object) (s : service) :
  request endpoint options s =
  if mutating options then
    match getCSRFToken s with
    | (inl e, s') => (inl e, s')
    | (inr token, s') => deliver (baseURL s +:+ endpoint) options (token_headers token) s'
    end
  else deliver (baseURL s +:+ endpoint) options json_headers s.
Proof.
  unfold request, mutating, deliver, respond, settle, final_options, token_headers,
    json_headers.
  async_unfold.
  destruct (to_boolean (js_get options "method") && negb (is_GET (js_get options "method"))).
  - destruct (getCSRFToken s) as [[e|token] s']; [done|].
    destruct (_ && _); [destruct (JSON_stringify _); [|done]|];
      (destruct (server _ _) as [r|]; [|done];
       destruct (ok r); [by destruct (json r)|by destruct (member _ _)]).
  - destruct (_ && _); [destruct (JSON_stringify _); [|done]|];
      (destruct (server _ _) as [r|]; [|done];
       destruct (ok r); [by destruct (json r)|by destruct (member _ _)]).
Qed.

Lemma final_options_lookup (options headers : object) (k : string) :
  final_options options headers !! k =
  match options !! k with
  | Some v => Some v
  | None =>
      ({[ "credentials" := JString "include"; "headers" := JObject headers ]} : object) !! k
  end.
Proof.
  unfold final_options. rewrite lookup_union.
  destruct (options !! k); [|by destruct (_ !! k)]. by destruct (_ !! k).
Qed.

Lemma final_options_headers (options headers : object) :
  final_options options headers !! "headers" =
  Some (default (JObject headers) (options !! "headers")).
Proof. rewrite final_options_lookup. by destruct (options !! "headers"). Qed.

Lemma final_options_credentials (options headers : object) :
  final_options options headers !! "credentials" =
  Some (default (JString "include") (options !! "credentials")).
Proof. rewrite final_options_lookup. by destruct (options !! "credentials"). Qed.

Lemma final_options_other (options headers : object) (k : string) :
  k ≠ "headers" → k ≠ "credentials" →
  final_options options headers !! k = options !! k.
Proof.
  intros Hh Hc. rewrite final_options_lookup. destruct (options !! k); [done|].
  rewrite lookup_insert_ne by done. by rewrite lookup_singleton_ne.
Qed.

(** What [request] does once it has its default headers. *)
Lemma deliver_call (s0 : service) (endpoint : string) (options headers : object)
    (s : service) :
  csrfToken (deliver (baseURL s0 +:+ endpoint) options headers s).2 = csrfToken s ∧
  baseURL (deliver (baseURL s0 +:+ endpoint) options headers s).2 = baseURL s ∧
  (((deliver (baseURL s0 +:+ endpoint) options headers s).1 = inl StringifyThrew ∧
    calls (deliver (baseURL s0 +:+ endpoint) options headers s).2 = calls s) ∨
   ∃ c, calls (deliver (baseURL s0 +:+ endpoint) options headers s).2 = calls s ++ [c] ∧
        endpoint_call s0 endpoint options headers c ∧
        (deliver (baseURL s0 +:+ endpoint) options headers s).1 =
          match server (calls s) c with
          | Some resp => settle resp
          | None => inl FetchRejected
          end).
Proof.
  unfold deliver.
  assert (js_get (final_options options headers) "body" = js_get options "body") as Hbody.
  { unfold js_get. by rewrite final_options_other. }
  rewrite Hbody.
  destruct (to_boolean (js_get options "body") && typeof_object (js_get options "body"))
    eqn:Hcond.
  - destruct (JSON_stringify (js_get options "body")) as [text|] eqn:Htext;
      [|split; [done|split; [done|by left]]].
    unfold respond. simpl.
    split; [by destruct (server _ _)|]. split; [by destruct (server _ _)|]. right.
    eexists. split; [by destruct (server _ _)|]. split; [|by destruct (server _ _)].
    unfold endpoint_call. simpl.
    split; [done|]. split; [by rewrite lookup_insert_ne, final_options_headers|].
    split; [by rewrite lookup_insert_ne, final_options_credentials|].
    split; [intros k ? ? ?; by rewrite lookup_insert_ne, final_options_other|].
    unfold js_get in Hcond, Htext. destruct (options !! "body") as [b|]; simpl in *; [|done].
    rewrite Hcond. exists text. split; [done|]. apply lookup_insert_eq.
  - unfold respond. simpl.
    split; [by destruct (server _ _)|]. split; [by destruct (server _ _)|]. right.
    eexists. split; [by destruct (server _ _)|]. split; [|by destruct (server _ _)].
    unfold endpoint_call. simpl.
    split; [done|]. split; [apply final_options_headers|].
    split; [apply final_options_credentials|].
    split; [intros k ? ? ?; by apply final_options_other|].
    rewrite final_options_other by done.
    unfold js_get in Hcond. destruct (options !! "body") as [b|]; simpl in *; [|done].
    by rewrite Hcond.
Qed.

(** X11: [getCSRFToken] fetches the token at most once while the service
    holds a truthy one: with a truthy token it returns it and calls
    nothing.  With a falsy one it makes exactly one call, to
    [/csrf-token], without looking at the status of the answer; the token
    it returns is the one the service holds afterwards, and when that is
    truthy the next call returns it again and calls nothing.  A
    token that is falsy (a missing [csrf_token] field is [undefined]) is
    fetched again by every call, and when the call fails the token is as
    before. *)
Theorem getCSRFToken_caches (s : service) :
  (to_boolean (csrfToken s) = true → getCSRFToken s = (inr (csrfToken s), s)) ∧
  (to_boolean (csrfToken s) = false →
     calls (after getCSRFToken s) = calls s ++ [token_call s]) ∧
  (∀ token, outcome getCSRFToken s = inr token →
     csrfToken (after getCSRFToken s) = token ∧
     (to_boolean token = true →
      getCSRFToken (after getCSRFToken s) = (inr token, after getCSRFToken s))) ∧
  (∀ e, outcome getCSRFToken s = inl e →
     csrfToken (after getCSRFToken s) = csrfToken s).
Proof.
  assert (∀ s', to_boolean (csrfToken s') = true → getCSRFToken s' = (inr (csrfToken s'), s'))
    as Hcached.
  { intros s' Ht. by rewrite getCSRFToken_run, Ht. }
  split; [apply Hcached|].
  unfold outcome, after. rewrite getCSRFToken_run.
  destruct (to_boolean (csrfToken s)) eqn:Ht.
  - split; [done|]. split; [|done]. simpl. intros token [= <-]. split; [done|].
    intros _. by apply Hcached.
  - cbv zeta. destruct (server _ _) as [r|]; [|by repeat split].
    destruct (json r) as [data|]; [|by repeat split].
    destruct (member "csrf_token" data) as [e|token']; [by repeat split|].
    simpl. split; [done|]. split; [|done]. intros token [= <-]. split; [done|].
    intros Htok. by apply Hcached.
Qed.

End APIFacts.

Ltac split_all := repeat split; try done; simpl; try lia; try by constructor.

Section Requests.
Context `{Browser}.

(** X12: a call of [request] whose [options.method] is missing, falsy or
    ['GET'] never touches the token: it neither reads nor fetches it.  It
    makes one call of [fetch], to the address of its endpoint, or none
    when [JSON.stringify] throws on the body.  The call carries the
    options given, a body that is an object as its JSON text,
    [credentials: 'include'] unless the options name their own, and as
    headers the headers of the options if they have any, else
    [Content-Type: application/json] alone. *)
Theorem request_read (endpoint : string) (options : object) (s : service) :
  mutating options = false →
  csrfToken (after (request endpoint options) s) = csrfToken s ∧
  ∃ sent,
    calls (after (request endpoint options) s) = calls s ++ sent ∧
    (length sent ≤ 1)%nat ∧
    (sent = [] → outcome (request endpoint options) s = inl StringifyThrew) ∧
    Forall (endpoint_call s endpoint options json_headers) sent.
Proof.
  intros Hmut. unfold outcome, after. rewrite request_run, Hmut.
  destruct (deliver_call s endpoint options json_headers s)
    as (Htok & _ & [[Hres Hcalls]|(c & Hcalls & Hc & Hres)]).
  - split; [done|]. exists []. rewrite app_nil_r. split_all.
  - split; [done|]. exists [c]. split_all.
Qed.


(** X13: a call of [request] with any other method first gets the token
    from [getCSRFToken], which fetches it when the service holds none.
    When that fails the error is the outcome and the endpoint is not
    called.  Otherwise at most one call goes to the endpoint, and its
    headers are the headers of the options if the options have any (the
    token and the content type that [request] prepared are then not
    sent), else [Content-Type: application/json] and [X-CSRF-Token] with
    the token that the service holds when the call has settled. *)
Theorem request_write (endpoint : string) (options : object) (s : service) :
  mutating options = true →
  ∃ sent,
    calls (after (request endpoint options) s) =
      calls s ++ (if to_boolean (csrfToken s) then [] else [token_call s]) ++ sent ∧
    (length sent ≤ 1)%nat ∧
    Forall (endpoint_call s endpoint options
              (token_headers (csrfToken (after (request endpoint options) s)))) sent ∧
    (to_boolean (csrfToken s) = true →
       csrfToken (after (request endpoint options) s) = csrfToken s) ∧
    (∀ e, outcome getCSRFToken s = inl e →
       outcome (request endpoint options) s = inl e ∧ sent = [] ∧
       csrfToken (after (request endpoint options) s) = csrfToken s).
Proof.
  intros Hmut. unfold outcome, after. rewrite request_run, Hmut, getCSRFToken_run.
  destruct (to_boolean (csrfToken s)) eqn:Ht.
  - destruct (deliver_call s endpoint options (token_headers (csrfToken s)) s)
      as (Htok & _ & [[Hres Hcalls]|(c & Hcalls & Hc & Hres)]).
    + exists []. rewrite Hcalls, Htok, !app_nil_r. split_all.
    + exists [c]. rewrite Hcalls, Htok. split_all.
  - cbv zeta. destruct (server _ _) as [r|].
    2: { exists []. simpl. split; [done|]. split; [lia|]. split; [done|].
         split; [done|]. intros e [= <-]. done. }
    destruct (json r) as [data|].
    2: { exists []. simpl. split; [done|]. split; [lia|]. split; [done|].
         split; [done|]. intros e [= <-]. done. }
    destruct (member "csrf_token" data) as [e0|token].
    { exists []. simpl. split; [done|]. split; [lia|]. split; [done|].
      split; [done|]. intros e [= <-]. done. }
    match goal with |- context [deliver _ _ _ ?s1] =>
      destruct (deliver_call s endpoint options (token_headers token) s1)
        as (Htok & _ & [[Hres Hcalls]|(c & Hcalls & Hc & Hres)]) end.
    + exists []. rewrite Hcalls, Htok. split_all.
    + exists [c]. rewrite Hcalls, Htok. simpl. rewrite <- app_assoc. split_all.
Qed.

Lemma settle_value (resp : response) (v : jsv) :
  settle resp = inr v → ok resp = true ∧ json resp = Some v.
Proof.
  unfold settle. destruct (ok resp).
  - destruct (json resp); [by intros [= ->]|done].
  - by destruct (member _ _).
Qed.

Lemma settle_error (resp : response) (m : jsv) :
  settle resp = inl (ErrorWith m) →
  ok resp = false ∧
  (json resp = None ∧ m = JString "Request failed" ∨
   ∃ error message,
     json resp = Some error ∧ member "message" error = inr message ∧
     m = if to_boolean message then message
         else JString ("HTTP " +:+ pretty.pretty (status resp))).
Proof.
  unfold settle. destruct (ok resp); [by destruct (json resp)|].
  intros Hs. split; [done|]. destruct (json resp) as [error|]; simpl in *.
  - right. destruct (member "message" error) as [e|message] eqn:Hm.
    + destruct error; simpl in Hm; try discriminate Hm; injection Hm as <-; discriminate Hs.
    + injection Hs as <-. by exists error, message.
  - left. split; [done|]. by injection Hs as <-.
Qed.

(** Where the outcome of [request] comes from: the answer to the call of
    its endpoint, or an error met before that call. *)
Lemma request_settles (endpoint : string) (options : object) (s : service) :
  (∃ before c,
     calls (after (request endpoint options) s) = before ++ [c] ∧
     url c = baseURL s +:+ endpoint ∧
     outcome (request endpoint options) s =
       match server before c with
       | Some resp => settle resp
       | None => inl FetchRejected
       end) ∨
  outcome (request endpoint options) s ∈
    [inl FetchRejected; inl JsonRejected; inl NullishRead; inl StringifyThrew].
Proof.
  unfold outcome, after. rewrite request_run.
  destruct (mutating options).
  - rewrite getCSRFToken_run. destruct (to_boolean (csrfToken s)).
    + destruct (deliver_call s endpoint options (token_headers (csrfToken s)) s)
        as (_ & _ & [[Hres Hcalls]|(c & Hcalls & Hc & Hres)]).
      * right. rewrite Hres. set_solver.
      * left. exists (calls s), c. split; [done|]. split; [apply Hc|done].
    + cbv zeta. destruct (server _ _) as [r|]; [|right; set_solver].
      destruct (json r) as [data|]; [|right; set_solver].
      destruct (member "csrf_token" data) as [e|token] eqn:Hm.
      { right. simpl. destruct data; simpl in Hm; try discriminate Hm;
          injection Hm as <-; set_solver. }
      match goal with |- context [deliver _ _ _ ?s1] =>
        destruct (deliver_call s endpoint options (token_headers token) s1)
          as (_ & _ & [[Hres Hcalls]|(c & Hcalls & Hc & Hres)]) end.
      * right. rewrite Hres. set_solver.
      * left. eexists _, c. split; [exact Hcalls|]. split; [apply Hc|done].
  - destruct (deliver_call s endpoint options json_headers s)
      as (_ & _ & [[Hres Hcalls]|(c & Hcalls & Hc & Hres)]).
    + right. rewrite Hres. set_solver.
    + left. exists (calls s), c. split; [done|]. split; [apply Hc|done].
Qed.

(** X14: the outcome of [request].  It returns a value only when the last
    call it made went to its endpoint and was answered [ok] with a body
    that is JSON, and the value is that body.  It throws an [Error] only
    when that call was answered not [ok]: with the message [Request
    failed] when the body is not JSON, else with the [message] of the body
    when that is truthy, else with [HTTP] and the status. *)
Theorem request_outcome (endpoint : string) (options : object) (s : service) :
  (∀ v, outcome (request endpoint options) s = inr v →
     ∃ before c resp,
       calls (after (request endpoint options) s) = before ++ [c] ∧
       url c = baseURL s +:+ endpoint ∧
       server before c = Some resp ∧ ok resp = true ∧ json resp = Some v) ∧
  (∀ m, outcome (request endpoint options) s = inl (ErrorWith m) →
     ∃ before c resp,
       calls (after (request endpoint options) s) = before ++ [c] ∧
       url c = baseURL s +:+ endpoint ∧
       server before c = Some resp ∧ ok resp = false ∧
       (json resp = None ∧ m = JString "Request failed" ∨
        ∃ error message,
          json resp = Some error ∧ member "message" error = inr message ∧
          m = if to_boolean message then message
              else JString ("HTTP " +:+ pretty.pretty (status resp)))).
Proof.
  destruct (request_settles endpoint options s)
    as [(before & c & Hcalls & Hurl & Hres)|Hearly].
  - split.
    + intros v Hv. rewrite Hv in Hres. exists before, c.
      destruct (server before c) as [resp|]; [|done].
      exists resp. symmetry in Hres. apply settle_value in Hres as [? ?]. done.
    + intros m Hm. rewrite Hm in Hres. exists before, c.
      destruct (server before c) as [resp|]; [|done].
      exists resp. symmetry in Hres. apply settle_error in Hres as [? ?]. done.
  - split.
    + intros v Hv. rewrite Hv, !elem_of_cons, elem_of_nil in Hearly.
      by destruct Hearly as [?|[?|[?|[?|[]]]]].
    + intros m Hm. rewrite Hm, !elem_of_cons, elem_of_nil in Hearly.
      by destruct Hearly as [?|[?|[?|[?|[]]]]].
Qed.

End Requests.

Section Endpoints.
Context `{Browser}.

Lemma respond_calls (u : string) (opts : object) (s : service) :
  calls (respond u opts s).2 = calls s ++ [FetchCall u opts] ∧
  csrfToken (respond u opts s).2 = csrfToken s.
Proof. unfold respond. by destruct (server _ _). Qed.


Lemma getCSRFToken_ok (s s1 : service) (token : jsv) :
  getCSRFToken s = (inr token, s1) → csrfToken s1 = token ∧ baseURL s1 = baseURL s.
Proof.
  rewrite getCSRFToken_run. destruct (to_boolean (csrfToken s)).
  - by intros [= <- <-].
  - cbv zeta. destruct (server _ _) as [r|]; [|done].
    destruct (json r) as [data|]; [|done].
    destruct (member "csrf_token" data); [done|]. by intros [= <- <-].
Qed.

(** X15: [uploadAvatar] does not send the form.  With a truthy token from
    [getCSRFToken], it makes one call to [/profile/avatar] whose body is
    the string that [JSON.stringify] makes of the [FormData] object (its
    entries are not enumerable properties: a browser gives ["{}"]), and
    whose only header is [X-CSRF-Token]: the options have headers of
    their own, so the content type that [request] prepared is dropped. *)
Theorem uploadAvatar_sends_text (file token : jsv) (text : string) (s : service) :
  outcome getCSRFToken s = inr token →
  to_boolean token = true →
  JSON_stringify (JFormData [("avatar", file)]) = Some text →
  calls (after (uploadAvatar file) s) =
    calls (after getCSRFToken s) ++
    [FetchCall (baseURL s +:+ "/profile/avatar")
       {[ "method" := JString "POST";
          "headers" := JObject {[ "X-CSRF-Token" := token ]};
          "body" := JString text;
          "credentials" := JString "include" ]}].
Proof.
  unfold outcome, after, uploadAvatar. intros Hg Htok Htext. rewrite arun_bind.
  destruct (getCSRFToken s) as [[e|token'] s1] eqn:Hrun; simpl in Hg; [done|].
  injection Hg as ->. destruct (getCSRFToken_ok _ _ _ Hrun) as [Htoken Hbase].
  cbv zeta. rewrite request_run.
  change (mutating _) with true. cbv iota.
  rewrite getCSRFToken_run, Htoken, Htok.
  unfold deliver.
  change (js_get (final_options _ _) "body") with (JFormData [("avatar", file)]).
  cbn [to_boolean typeof_object andb]. rewrite Htext.
  rewrite (proj1 (respond_calls _ _ _)), Hbase. reflexivity.
Qed.




End Endpoints.

(** ** The service at work *)

Lemma getCSRFToken_caches_witness :
  let s1 := after (@getCSRFToken sample_browser) new_service in
  to_boolean (csrfToken new_service) = false ∧
  calls s1 = [token_call new_service] ∧
  csrfToken s1 = JString "tok-1" ∧
  @getCSRFToken sample_browser s1 = (inr (JString "tok-1"), s1).
Proof.
  intros s1.
  destruct (@getCSRFToken_caches sample_browser new_service) as (_ & Hfetch & Hok & _).
  destruct (Hok (JString "tok-1")) as [Htok Hagain]; [reflexivity|].
  split; [reflexivity|]. split; [by apply Hfetch|]. split; [exact Htok|].
  apply Hagain. reflexivity.
Defined.

Lemma request_read_witness :
  mutating {[ "method" := JString "GET" ]} = false ∧
  csrfToken (after (@request sample_browser "/matches" {[ "method" := JString "GET" ]})
               new_service) = JNull ∧
  ∃ sent,
    calls (after (@request sample_browser "/matches" {[ "method" := JString "GET" ]})
             new_service) = [] ++ sent ∧
    (length sent ≤ 1)%nat.
Proof.
  assert (mutating {[ "method" := JString "GET" ]} = false) as Hmut by reflexivity.
  destruct (@request_read sample_browser "/matches" {[ "method" := JString "GET" ]}
              new_service Hmut) as (Htok & sent & Hcalls & Hlen & _).
  split; [exact Hmut|]. split; [exact Htok|]. exists sent. by split.
Defined.

Lemma request_write_witness :
  mutating {[ "method" := JString "POST" ]} = true ∧
  ∃ sent,
    calls (after (@request sample_browser "/auth/logout" {[ "method" := JString "POST" ]})
             new_service) = [] ++ [token_call new_service] ++ sent ∧
    Forall (@endpoint_call sample_browser new_service "/auth/logout"
              {[ "method" := JString "POST" ]}
              (token_headers
                 (csrfToken (after (@request sample_browser "/auth/logout"
                                      {[ "method" := JString "POST" ]}) new_service))))
      sent.
Proof.
  assert (mutating {[ "method" := JString "POST" ]} = true) as Hmut by reflexivity.
  destruct (@request_write sample_browser "/auth/logout" {[ "method" := JString "POST" ]}
              new_service Hmut) as (sent & Hcalls & _ & Hsent & _).
  split; [exact Hmut|]. exists sent. by split.
Defined.

Lemma request_outcome_witness :
  outcome (@request refusing_browser "/profile" ∅) new_service =
    inl (ErrorWith (JString "Request failed")) ∧
  ∃ before c resp,
    calls (after (@request refusing_browser "/profile" ∅) new_service) = before ++ [c] ∧
    @server refusing_browser before c = Some resp ∧ ok resp = false.
Proof.
  assert (outcome (@request refusing_browser "/profile" ∅) new_service =
            inl (ErrorWith (JString "Request failed"))) as Hout by reflexivity.
  destruct (@request_outcome refusing_browser "/profile" ∅ new_service) as [_ Herr].
  destruct (Herr _ Hout) as (before & c & resp & Hcalls & _ & Hserver & Hok & _).
  split; [exact Hout|]. exists before, c, resp. by repeat split.
Defined.

Lemma uploadAvatar_sends_text_witness :
  outcome (@getCSRFToken sample_browser) new_service = inr (JString "tok-1") ∧
  calls (after (@uploadAvatar sample_browser (JString "photo")) new_service) =
    [token_call new_service;
     FetchCall "/api/profile/avatar"
       {[ "method" := JString "POST";
          "headers" := JObject {[ "X-CSRF-Token" := JString "tok-1" ]};
          "body" := JString "{}";
          "credentials" := JString "include" ]}].
Proof.
  assert (outcome (@getCSRFToken sample_browser) new_service = inr (JString "tok-1")) as Hg
    by reflexivity.
  split; [exact Hg|].
  exact (@uploadAvatar_sends_text sample_browser (JString "photo") (JString "tok-1") "{}"
           new_service Hg eq_refl eq_refl).
Defined.


(** * utils.js: properties *)

(** ** [truncateText] *)

Lemma length_units_dots : length (units "...") = 3.
Proof. reflexivity. Qed.

(** X17: [truncateText] returns the text itself when it has at most
    [maxLength] code units.  A longer text is cut to its first
    [maxLength - 3] code units followed by three full stops, which makes
    exactly [maxLength] code units, when [maxLength] is at least [3]; for a
    smaller [maxLength] the result is the three full stops alone, longer
    than the limit.  Truncating the result again changes nothing. *)
Theorem truncateText_length (text : jsstring) (maxLength : option Z) :
  let m := default 100%Z maxLength in
  let r := truncateText text maxLength in
  ((Z.of_nat (length text) ≤ m)%Z → r = text) ∧
  ((m < Z.of_nat (length text))%Z → (3 ≤ m)%Z →
     r = take (Z.to_nat (m - 3)) text ++ units "..." ∧ Z.of_nat (length r) = m) ∧
  ((m < Z.of_nat (length text))%Z → (m < 3)%Z →
     r = units "..." ∧ (m < Z.of_nat (length r))%Z) ∧
  truncateText r maxLength = r.
Proof.
  intros m r. unfold r, truncateText. fold m.
  destruct (Z.leb_spec (Z.of_nat (length text)) m) as [Hle|Hlt].
  - split; [done|]. split; [lia|]. split; [lia|].
    by rewrite (proj2 (Z.leb_le _ _)) by done.
  - split; [lia|].
    assert (length (take (Z.to_nat (m - 3)) text) = Z.to_nat (m - 3)) as Htake
      by (rewrite length_take; lia).
    split; [|split].
    + intros _ Hm. split; [done|]. rewrite length_app, Htake, length_units_dots. lia.
    + intros _ Hm. replace (Z.to_nat (m - 3)) with 0 by lia. split; [done|].
      simpl. lia.
    + destruct (Z.leb_spec
                  (Z.of_nat (length (take (Z.to_nat (m - 3)) text ++ units "..."))) m)
        as [_|Hlong]; [done|].
      rewrite length_app, Htake, length_units_dots in Hlong.
      assert (m < 3)%Z as Hm by lia.
      replace (Z.to_nat (m - 3)) with 0 by lia. done.
Qed.

Lemma truncateText_length_witness :
  (10 < Z.of_nat (length (units "Real Dates. Real People.")))%Z ∧ (3 ≤ 10)%Z ∧
  truncateText (units "Real Dates. Real People.") (Some 10%Z) = units "Real Da..." ∧
  truncateText (units "Real") (Some 2%Z) = units "...".
Proof.
  destruct (truncateText_length (units "Real Dates. Real People.") (Some 10%Z))
    as (_ & Hcut & _ & _).
  destruct (truncateText_length (units "Real") (Some 2%Z)) as (_ & _ & Hshort & _).
  assert (10 < Z.of_nat (length (units "Real Dates. Real People.")))%Z as Hlong
    by (vm_compute; reflexivity).
  split; [exact Hlong|]. split; [lia|]. split.
  - destruct Hcut as [-> _]; [exact Hlong|simpl; lia|reflexivity].
  - destruct Hshort as [-> _]; [vm_compute; reflexivity|simpl; lia|reflexivity].
Defined.

(** ** [getRelativeTime] *)

(** X18: what [getRelativeTime] says, by the distance to the date in
    milliseconds.  More than 30 seconds ago: [Past]; up to 30 seconds ago
    is still [In 0 minutes].  Below 59 min 30 s: the minutes, [0] to
    [59].  From there and below 23 h 29 min 30 s: the hours, [1] to [23].
    From there and below 35 h 29 min 30 s: [Tomorrow], whatever the day of
    the calendar.  From there and below 6 days 11 h 29 min 30 s: the days,
    [2] to [6].  Beyond: the date.  (The hours are rounded from the
    rounded minutes, the days from the rounded hours, which puts each
    bound half a minute before the half hour.) *)
Theorem getRelativeTime_thresholds (formatted : string) (diffMs : Z) :
  let mins := Math_round_quotient diffMs 60000 in
  let hours := Math_round_quotient mins 60 in
  let days := Math_round_quotient hours 24 in
  ((diffMs < -30000)%Z → getRelativeTime formatted diffMs = "Past") ∧
  ((-30000 ≤ diffMs < 3570000)%Z →
     getRelativeTime formatted diffMs = "In " +:+ pretty.pretty mins +:+ " minutes" ∧
     (0 ≤ mins ≤ 59)%Z) ∧
  ((3570000 ≤ diffMs < 84570000)%Z →
     getRelativeTime formatted diffMs = "In " +:+ pretty.pretty hours +:+ " hours" ∧
     (1 ≤ hours ≤ 23)%Z) ∧
  ((84570000 ≤ diffMs < 127770000)%Z → getRelativeTime formatted diffMs = "Tomorrow") ∧
  ((127770000 ≤ diffMs < 559770000)%Z →
     getRelativeTime formatted diffMs = "In " +:+ pretty.pretty days +:+ " days" ∧
     (2 ≤ days ≤ 6)%Z) ∧
  ((559770000 ≤ diffMs)%Z → getRelativeTime formatted diffMs = formatted).
Proof.
  intros mins hours days. unfold getRelativeTime. fold mins. fold hours. fold days.
  assert ((mins < 0 ↔ diffMs < -30000) ∧ (mins < 60 ↔ diffMs < 3570000) ∧
          (hours < 24 ↔ diffMs < 84570000) ∧ (hours < 36 ↔ diffMs < 127770000) ∧
          (hours < 156 ↔ diffMs < 559770000) ∧
          (0 ≤ hours ↔ 0 ≤ mins + 30) ∧ (1 ≤ hours ↔ 30 ≤ mins) ∧
          (days = 1 ↔ 12 ≤ hours < 36) ∧ (days < 7 ↔ hours < 156) ∧
          (2 ≤ days ↔ 36 ≤ hours))%Z as (H1 & H2 & H3 & H4 & H5 & H6 & H7 & H8 & H9 & H10).
  { unfold days, hours, mins, Math_round_quotient.
    repeat split; intros; Z.div_mod_to_equations; lia. }
  destruct (Z.ltb_spec mins 0), (Z.ltb_spec mins 60), (Z.ltb_spec hours 24),
    (Z.eqb_spec days 1), (Z.ltb_spec days 7);
    repeat split; intros; try reflexivity; try lia.
Qed.

Lemma getRelativeTime_thresholds_witness :
  getRelativeTime "Jan 5" (-20000) = "In 0 minutes" ∧
  getRelativeTime "Jan 5" 90000000 = "Tomorrow" ∧
  getRelativeTime "Jan 5" 3600000 = "In 1 hours".
Proof.
  destruct (getRelativeTime_thresholds "Jan 5" (-20000)) as (_ & Hmin & _).
  destruct (getRelativeTime_thresholds "Jan 5" 90000000) as (_ & _ & _ & Htom & _).
  destruct (getRelativeTime_thresholds "Jan 5" 3600000) as (_ & _ & Hhour & _).
  split; [|split].
  - destruct Hmin as [-> _]; [lia|reflexivity].
  - apply Htom. lia.
  - destruct Hhour as [-> _]; [lia|reflexivity].
Defined.

(** ** [generateAvatarColor] *)

Lemma ToInt32_small (z : Z) : (-2147483648 ≤ z < 2147483648)%Z → ToInt32 z = z.
Proof. intros Hz. unfold ToInt32. rewrite Z.mod_small by lia. lia. Qed.

Lemma hash_step_small (h : Z) (c : N) :
  (0 ≤ h < 67108864)%Z → hash_step h c = (Z.of_N c + 31 * h)%Z.
Proof.
  intros Hh. unfold hash_step, shift_left_5.
  rewrite (ToInt32_small h) by lia. rewrite ToInt32_small by lia. lia.
Qed.

(** X19: the hue of [generateAvatarColor] is a whole number strictly
    between [-360] and [360], for every name.  For a name of at most four
    code units the shift never leaves 32 bits: the hash is the sum of the
    code units weighted by the powers of [31], and the hue is not
    negative.  For longer names it can be: the name [zzzzzz] gets the hue
    [-64]. *)
Theorem hue_range (name : jsstring) :
  (-360 < hue name < 360)%Z ∧
  (Forall (λ c, (c < 65536)%N) name → (length name ≤ 4)%nat →
     name_hash name = foldl (λ h c, (Z.of_N c + 31 * h)%Z) 0%Z name ∧ (0 ≤ hue name)%Z) ∧
  generateAvatarColor (units "zzzzzz") = "hsl(-64, 60%, 50%)".
Proof.
  split; [|split; [|by vm_compute]].
  - unfold hue. Z.quot_rem_to_equations. lia.
  - intros Hunits Hlen.
    assert (name_hash name = foldl (λ h c, (Z.of_N c + 31 * h)%Z) 0%Z name ∧
            (0 ≤ name_hash name)%Z) as [Hpoly Hpos].
    { unfold name_hash.
      destruct name as [|c1 [|c2 [|c3 [|c4 [|c5 name]]]]]; simpl in Hlen; try lia;
        repeat (apply Forall_cons_1 in Hunits as [? Hunits]); cbn [foldl];
        repeat match goal with
               | |- context [hash_step ?h ?c] => rewrite (hash_step_small h c) by lia
               end;
        split; (reflexivity || lia). }
    split; [exact Hpoly|]. unfold hue. apply Z.rem_nonneg; lia.
Qed.

Lemma hue_range_witness :
  Forall (λ c, (c < 65536)%N) (units "Anna") ∧ (length (units "Anna") ≤ 4)%nat ∧
  name_hash (units "Anna") = 2045632%Z ∧ (0 ≤ hue (units "Anna"))%Z.
Proof.
  assert (Forall (λ c, (c < 65536)%N) (units "Anna")) as Hu
    by (repeat constructor).
  assert (length (units "Anna") ≤ 4)%nat as Hl by (simpl; lia).
  destruct (hue_range (units "Anna")) as (_ & Hshort & _).
  destruct (Hshort Hu Hl) as [Hpoly Hpos].
  split; [exact Hu|]. split; [exact Hl|]. split; [|exact Hpos].
  rewrite Hpoly. reflexivity.
Defined.

(** ** The regular expressions of the validators *)

Lemma elem_of_rep (min : nat) (p : N → bool) (i : nat) (s : jsstring)
    (j : nat) (t : jsstring) :
  (j, t) ∈ rep min p i s ↔
  ∃ pre, s = pre ++ t ∧ Forall (λ c, p c = true) pre ∧
         (min ≤ length pre)%nat ∧ j = (i + length pre)%nat.
Proof.
  revert min i. induction s as [|c s IH]; intros min i.
  - cbn [rep app]. destruct min as [|min].
    + rewrite list_elem_of_singleton. split.
      * intros [= -> ->]. exists []. repeat split; [constructor|done|simpl; lia].
      * intros (pre & Hs & _ & _ & ->). symmetry in Hs.
        apply app_eq_nil in Hs as [-> ->]. simpl. f_equal. lia.
    + split; [by intros ?%elem_of_nil|].
      intros (pre & Hs & _ & Hmin & _). symmetry in Hs.
      apply app_eq_nil in Hs as [-> _]. simpl in Hmin. lia.
  - cbn [rep]. rewrite elem_of_app. split.
    + intros [Hin|Hin].
      * destruct (p c) eqn:Hc; [|by apply elem_of_nil in Hin].
        apply IH in Hin as (pre & -> & Hpre & Hmin & ->).
        exists (c :: pre). repeat split; [by constructor|simpl; lia|simpl; lia].
      * destruct min as [|min]; [|by apply elem_of_nil in Hin].
        apply list_elem_of_singleton in Hin as [= -> ->].
        exists []. repeat split; [constructor|done|simpl; lia].
    + intros (pre & Hs & Hpre & Hmin & ->). destruct pre as [|c' pre].
      * right. simpl in Hs, Hmin. subst t. destruct min as [|min]; [|lia].
        apply list_elem_of_singleton. f_equal. simpl. lia.
      * left. injection Hs as <- ->. apply Forall_cons_1 in Hpre as [-> Hpre].
        apply IH. exists pre. repeat split; [done|simpl in Hmin; lia|simpl; lia].
Qed.

Lemma elem_of_step_Cat (r1 r2 : regex) (i : nat) (s : jsstring) (j : nat) (t : jsstring) :
  (j, t) ∈ step (Cat r1 r2) i s ↔
  ∃ k u, (k, u) ∈ step r1 i s ∧ (j, t) ∈ step r2 k u.
Proof.
  cbn [step]. rewrite list_elem_of_bind. split.
  - intros ([k u] & Hin2 & Hin1). by exists k, u.
  - intros (k & u & Hin1 & Hin2). by exists (k, u).
Qed.

Lemma elem_of_step_Class (p : N → bool) (i : nat) (s : jsstring) (j : nat) (t : jsstring) :
  (j, t) ∈ step (Class p) i s ↔ ∃ c, s = c :: t ∧ p c = true ∧ j = S i.
Proof.
  cbn [step]. destruct s as [|c s].
  - split; [by intros ?%elem_of_nil|]. by intros (c & Hs & _).
  - destruct (p c) eqn:Hc.
    + rewrite list_elem_of_singleton. split.
      * intros [= -> ->]. by exists c.
      * by intros (c' & [= <- <-] & _ & ->).
    + split; [by intros ?%elem_of_nil|]. intros (c' & [= <- <-] & Hc' & _). congruence.
Qed.

Lemma elem_of_step_Eol (i : nat) (s : jsstring) (j : nat) (t : jsstring) :
  (j, t) ∈ step Eol i s ↔ s = [] ∧ t = [] ∧ j = i.
Proof.
  cbn [step]. destruct s as [|c s].
  - rewrite list_elem_of_singleton. split; [by intros [= -> ->]|by intros (_ & -> & ->)].
  - split; [by intros ?%elem_of_nil|]. by intros (? & _).
Qed.

Lemma elem_of_step_Eps (i : nat) (s : jsstring) (j : nat) (t : jsstring) :
  (j, t) ∈ step Eps i s ↔ t = s ∧ j = i.
Proof.
  cbn [step]. rewrite list_elem_of_singleton.
  split; [by intros [= -> ->]|by intros [-> ->]].
Qed.

Lemma elem_of_step_Opt (r : regex) (i : nat) (s : jsstring) (j : nat) (t : jsstring) :
  (j, t) ∈ step (Opt r) i s ↔ (j, t) ∈ step r i s ∨ (t = s ∧ j = i).
Proof.
  cbn [step]. rewrite elem_of_app, list_elem_of_singleton.
  split; (intros [Hin|Hin]; [by left|right]); [by injection Hin as -> ->|by destruct Hin as [-> ->]].
Qed.

Lemma elem_of_step_Ahead (r : regex) (i : nat) (s : jsstring) (j : nat) (t : jsstring) :
  (j, t) ∈ step (Ahead r) i s ↔ (∃ x, x ∈ step r i s) ∧ t = s ∧ j = i.
Proof.
  cbn [step]. destruct (step r i s) as [|x l].
  - split; [by intros ?%elem_of_nil|]. by intros [[x ?%elem_of_nil] _].
  - rewrite list_elem_of_singleton. split.
    + intros [= -> ->]. split; [|done]. exists x. by left.
    + by intros (_ & -> & ->).
Qed.

(** An expression that starts with [^] matches somewhere exactly when
    what follows the anchor matches at the start of the input. *)
Lemma test_anchored (r : regex) (s : jsstring) :
  test (Cat Bol r) s = true ↔ ∃ x, x ∈ step r 0 s.
Proof.
  unfold test. rewrite existsb_exists. split.
  - intros (i & _ & Hi). destruct i as [|i].
    + cbn [step] in Hi. rewrite bind_singleton in Hi. cbn [fst snd] in Hi. rewrite drop_0 in Hi.
      destruct (step r 0 s) as [|x l]; [done|]. exists x. by left.
    + cbn [step] in Hi. done.
  - intros (x & Hx). exists 0. split; [apply in_seq; lia|].
    cbn [step]. rewrite bind_singleton. cbn [fst snd]. rewrite drop_0.
    destruct (step r 0 s); [by apply elem_of_nil in Hx|done].
Qed.

(** [.*] followed by a class [q], tried at the start of [s]: a code unit
    of the class occurs, with no line terminator before it. *)
Lemma lookahead_spec (q : N → bool) (i : nat) (s : jsstring) :
  (∃ x, x ∈ step (Cat (Rep 0 any_char) (Class q)) i s) ↔
  ∃ pre c rest, s = pre ++ c :: rest ∧ Forall (λ c, any_char c = true) pre ∧ q c = true.
Proof.
  split.
  - intros ([j t] & Hx). apply elem_of_step_Cat in Hx as (k & u & Hrep & Hclass).
    apply elem_of_rep in Hrep as (pre & -> & Hpre & _).
    apply elem_of_step_Class in Hclass as (c & -> & Hc & _).
    by exists pre, c, t.
  - intros (pre & c & rest & -> & Hpre & Hc).
    exists (S (i + length pre), rest). apply elem_of_step_Cat.
    exists (i + length pre)%nat, (c :: rest). split.
    + apply elem_of_rep. exists pre. repeat split; [done|lia].
    + apply elem_of_step_Class. by exists c.
Qed.

Lemma password_char_any (c : N) : password_char c = true → any_char c = true.
Proof.
  unfold password_char, any_char, is_line_terminator, is_lower, is_upper, is_digit,
    between, chr.
  change (N_of_ascii "@") with 64%N. change (N_of_ascii "$") with 36%N.
  change (N_of_ascii "!") with 33%N. change (N_of_ascii "%") with 37%N.
  change (N_of_ascii "*") with 42%N. change (N_of_ascii "?") with 63%N.
  change (N_of_ascii "&") with 38%N.
  rewrite negb_true_iff, !orb_true_iff, !orb_false_iff, !andb_true_iff,
    !N.leb_le, !N.eqb_eq, !N.eqb_neq.
  lia.
Qed.

Lemma Exists_split (q : N → bool) (s : jsstring) :
  Exists (λ c, q c = true) s ↔ ∃ pre c rest, s = pre ++ c :: rest ∧ q c = true.
Proof.
  rewrite Exists_exists. split.
  - intros (c & (pre & rest & ->)%list_elem_of_split & Hc). by exists pre, c, rest.
  - intros (pre & c & rest & -> & Hc). exists c. split; [|done].
    apply elem_of_app. right. by left.
Qed.

(** X20: [validateEmail] accepts exactly the strings made of a local
    part, the sign [@], a domain, a full stop and an ending, where the
    three parts are not empty and hold neither white space nor the sign
    [@].  So an accepted address has exactly one [@] and no white space;
    nothing else is asked of it: the parts may hold any other character,
    further full stops included. *)
Theorem validateEmail_spec (email : jsstring) :
  (validateEmail email = true ↔
   ∃ loc domain ending,
     email = loc ++ units "@" ++ domain ++ units "." ++ ending ∧
     loc ≠ [] ∧ domain ≠ [] ∧ ending ≠ [] ∧
     Forall (λ c, email_char c = true) (loc ++ domain ++ ending)) ∧
  (validateEmail email = true →
   length (List.filter (chr "@") email) = 1 ∧ Forall (λ c, is_space c = false) email).
Proof.
  assert (validateEmail email = true ↔
   ∃ loc domain ending,
     email = loc ++ units "@" ++ domain ++ units "." ++ ending ∧
     loc ≠ [] ∧ domain ≠ [] ∧ ending ≠ [] ∧
     Forall (λ c, email_char c = true) (loc ++ domain ++ ending)) as Hspec.
  { unfold validateEmail, email_re, sequence. cbn [foldr]. rewrite test_anchored. split.
    - intros ([j t] & Hx).
      apply elem_of_step_Cat in Hx as (k1 & u1 & H1 & Hx).
      apply elem_of_step_Cat in Hx as (k2 & u2 & H2 & Hx).
      apply elem_of_step_Cat in Hx as (k3 & u3 & H3 & Hx).
      apply elem_of_step_Cat in Hx as (k4 & u4 & H4 & Hx).
      apply elem_of_step_Cat in Hx as (k5 & u5 & H5 & Hx).
      apply elem_of_step_Cat in Hx as (k6 & u6 & H6 & Hx).
      apply elem_of_rep in H1 as (loc & -> & Hloc & Hn1 & _).
      apply elem_of_step_Class in H2 as (c2 & -> & ->%N.eqb_eq & _).
      apply elem_of_rep in H3 as (domain & -> & Hdomain & Hn3 & _).
      apply elem_of_step_Class in H4 as (c4 & -> & ->%N.eqb_eq & _).
      apply elem_of_rep in H5 as (ending & -> & Hending & Hn5 & _).
      apply elem_of_step_Eol in H6 as (-> & _ & _).
      exists loc, domain, ending. rewrite app_nil_r.
      split; [done|]. rewrite !Forall_app.
      repeat split; try done; intros ->; simpl in *; lia.
    - intros (loc & domain & ending & -> & Hn1 & Hn3 & Hn5 & Hall).
      apply Forall_app in Hall as [Hloc Hall]. apply Forall_app in Hall as [Hdomain Hending].
      assert (∀ l : jsstring, l ≠ [] → (1 ≤ length l)%nat) as Hlen
        by (intros [|? ?] ?; [done|simpl; lia]).
      eexists (_, []).
      apply elem_of_step_Cat. eexists _, _. split.
      { apply elem_of_rep. exists loc. repeat split; [done|by apply Hlen]. }
      apply elem_of_step_Cat. eexists _, _. split.
      { apply elem_of_step_Class. eexists. repeat split. }
      apply elem_of_step_Cat. eexists _, _. split.
      { apply elem_of_rep. exists domain. repeat split; [done|by apply Hlen]. }
      apply elem_of_step_Cat. eexists _, _. split.
      { apply elem_of_step_Class. eexists. repeat split. }
      apply elem_of_step_Cat. eexists _, _. split.
      { apply elem_of_rep. exists ending. rewrite app_nil_r.
        repeat split; [done|by apply Hlen]. }
      apply elem_of_step_Cat. eexists _, _. split.
      { by apply elem_of_step_Eol. }
      by apply elem_of_step_Eps. }
  split; [exact Hspec|].
  intros (loc & domain & ending & -> & _ & _ & _ & Hall)%Hspec.
  apply Forall_app in Hall as [Hloc Hall]. apply Forall_app in Hall as [Hdomain Hending].
  assert (∀ l : jsstring, Forall (λ c, email_char c = true) l →
            List.filter (chr "@") l = [] ∧ Forall (λ c, is_space c = false) l) as Hpart.
  { intros l Hl. induction Hl as [|c l Hc _ [IH1 IH2]]; [by split|].
    unfold email_char in Hc. apply negb_true_iff, orb_false_iff in Hc as [Hs Hat].
    simpl. rewrite Hat. split; [done|by constructor]. }
  destruct (Hpart _ Hloc) as [F1 S1], (Hpart _ Hdomain) as [F2 S2],
    (Hpart _ Hending) as [F3 S3].
  split.
  - rewrite !List.filter_app, F1, F2, F3. reflexivity.
  - rewrite !Forall_app. repeat split; try done; by repeat constructor.
Qed.

Lemma validateEmail_spec_witness :
  validateEmail (units "dana@example.com") = true ∧
  length (List.filter (chr "@") (units "dana@example.com")) = 1.
Proof.
  assert (validateEmail (units "dana@example.com") = true) as Hok.
  { apply (proj1 (validateEmail_spec (units "dana@example.com"))).
    exists (units "dana"), (units "example"), (units "com").
    split; [reflexivity|]. split; [done|]. split; [done|]. split; [done|].
    repeat constructor. }
  split; [exact Hok|].
  exact (proj1 (proj2 (validateEmail_spec (units "dana@example.com")) Hok)).
Defined.

(** X21: [validatePassword] accepts exactly the strings of at least eight
    code units, each a letter of [a-z] or [A-Z], a digit or one of
    [@$!%*?&], among which a lower-case letter, an upper-case letter and a
    digit occur.  Any other character, a space or a letter outside of
    ASCII included, makes it refuse. *)
Theorem validatePassword_spec (password : jsstring) :
  validatePassword password = true ↔
  (8 ≤ length password)%nat ∧
  Forall (λ c, password_char c = true) password ∧
  Exists (λ c, is_lower c = true) password ∧
  Exists (λ c, is_upper c = true) password ∧
  Exists (λ c, is_digit c = true) password.
Proof.
  unfold validatePassword, password_re, sequence. cbn [foldr]. rewrite test_anchored.
  rewrite !Exists_split. split.
  - intros ([j t] & Hx).
    apply elem_of_step_Cat in Hx as (k1 & u1 & H1 & Hx).
    apply elem_of_step_Cat in Hx as (k2 & u2 & H2 & Hx).
    apply elem_of_step_Cat in Hx as (k3 & u3 & H3 & Hx).
    apply elem_of_step_Cat in Hx as (k4 & u4 & H4 & Hx).
    apply elem_of_step_Cat in Hx as (k5 & u5 & H5 & Hx).
    apply elem_of_step_Ahead in H1 as (Hlower & -> & ->).
    apply elem_of_step_Ahead in H2 as (Hupper & -> & ->).
    apply elem_of_step_Ahead in H3 as (Hdigit & -> & ->).
    apply elem_of_rep in H4 as (pre & Hs & Hpre & Hlen & _).
    apply elem_of_step_Eol in H5 as (-> & _ & _). rewrite app_nil_r in Hs. subst pre.
    apply lookahead_spec in Hlower as (p1 & c1 & r1 & E1 & _ & Hc1).
    apply lookahead_spec in Hupper as (p2 & c2 & r2 & E2 & _ & Hc2).
    apply lookahead_spec in Hdigit as (p3 & c3 & r3 & E3 & _ & Hc3).
    split; [done|]. split; [done|].
    split; [by exists p1, c1, r1|]. split; [by exists p2, c2, r2|by exists p3, c3, r3].
  - intros (Hlen & Hall & Hlower & Hupper & Hdigit).
    assert (∀ q : N → bool,
              (∃ pre c rest, password = pre ++ c :: rest ∧ q c = true) →
              ∃ x, x ∈ step (Cat (Rep 0 any_char) (Class q)) 0 password) as Hlook.
    { intros q (pre & c & rest & E & Hc). apply lookahead_spec.
      exists pre, c, rest. split; [done|]. split; [|done].
      rewrite E in Hall. apply Forall_app in Hall as [Hpre _].
      eapply Forall_impl; [exact Hpre|]. apply password_char_any. }
    eexists (_, []).
    apply elem_of_step_Cat. eexists _, _. split.
    { apply elem_of_step_Ahead. split; [by apply Hlook|done]. }
    apply elem_of_step_Cat. eexists _, _. split.
    { apply elem_of_step_Ahead. split; [by apply Hlook|done]. }
    apply elem_of_step_Cat. eexists _, _. split.
    { apply elem_of_step_Ahead. split; [by apply Hlook|done]. }
    apply elem_of_step_Cat. eexists _, _. split.
    { apply elem_of_rep. exists password. rewrite app_nil_r. repeat split; done. }
    apply elem_of_step_Cat. eexists _, _. split.
    { by apply elem_of_step_Eol. }
    by apply elem_of_step_Eps.
Qed.

Lemma validatePassword_spec_witness :
  validatePassword (units "Passw0rd") = true ∧
  validatePassword (units "Pass w0rd") = false.
Proof.
  split.
  - apply validatePassword_spec. split; [simpl; lia|]. split; [repeat constructor|].
    split; [|split].
    + apply Exists_cons_tl, Exists_cons_hd. reflexivity.
    + apply Exists_cons_hd. reflexivity.
    + do 5 apply Exists_cons_tl. apply Exists_cons_hd. reflexivity.
  - destruct (validatePassword (units "Pass w0rd")) eqn:Hv; [|reflexivity].
    apply validatePassword_spec in Hv as (_ & Hall & _).
    do 4 apply Forall_cons_1 in Hall as [_ Hall].
    apply Forall_cons_1 in Hall as [Hspace _]. discriminate Hspace.
Defined.

(** X22: [validatePhone] accepts exactly the strings that are, after an
    optional leading [+], made of digits, white space, hyphens and round
    brackets only, with at least ten digits among them.  It asks for no
    order among these characters and sets no upper bound on the digits. *)
Theorem validatePhone_spec (phone : jsstring) :
  validatePhone phone = true ↔
  ∃ body, (phone = body ∨ phone = units "+" ++ body) ∧
          Forall (λ c, phone_char c = true) body ∧
          (10 ≤ length (List.filter is_digit body))%nat.
Proof.
  unfold validatePhone, phone_re, sequence. cbn [foldr].
  rewrite andb_true_iff, test_anchored, Nat.leb_le. split.
  - intros [([j t] & Hx) Hdigits].
    apply elem_of_step_Cat in Hx as (k1 & u1 & H1 & Hx).
    apply elem_of_step_Cat in Hx as (k2 & u2 & H2 & Hx).
    apply elem_of_step_Cat in Hx as (k3 & u3 & H3 & Hx).
    apply elem_of_rep in H2 as (body & -> & Hbody & _ & _).
    apply elem_of_step_Eol in H3 as (-> & _ & _). rewrite app_nil_r in H1.
    exists body. apply elem_of_step_Opt in H1 as [H1|[-> _]].
    + apply elem_of_step_Class in H1 as (c & -> & ->%N.eqb_eq & _).
      split; [by right|]. split; [done|exact Hdigits].
    + split; [by left|]. split; [done|exact Hdigits].
  - intros (body & Hphone & Hbody & Hdigits).
    assert (body ≠ []) as Hne by (intros ->; simpl in Hdigits; lia).
    assert (1 ≤ length body)%nat as Hlen by (destruct body; [done|simpl; lia]).
    split.
    + eexists (_, []).
      apply elem_of_step_Cat. exists (length phone - length body)%nat, body. split.
      { apply elem_of_step_Opt. destruct Hphone as [->| ->].
        - right. split; [done|lia].
        - left. apply elem_of_step_Class. eexists.
          split; [reflexivity|]. split; [reflexivity|]. simpl. lia. }
      apply elem_of_step_Cat. eexists _, _. split.
      { apply elem_of_rep. exists body. rewrite app_nil_r. repeat split; done. }
      apply elem_of_step_Cat. eexists _, _. split.
      { by apply elem_of_step_Eol. }
      by apply elem_of_step_Eps.
    + by destruct Hphone as [->| ->].
Qed.

Lemma validatePhone_spec_witness :
  validatePhone (units "+1 (555) 123-4567") = true ∧
  validatePhone (units "555-1234") = false.
Proof.
  split.
  - apply validatePhone_spec. exists (units "1 (555) 123-4567").
    split; [by right|]. split; [repeat constructor|simpl; lia].
  - destruct (validatePhone (units "555-1234")) eqn:Hv; [|reflexivity].
    apply validatePhone_spec in Hv as (body & [<-|Hplus] & _ & Hdigits).
    + simpl in Hdigits. lia.
    + discriminate Hplus.
Defined.
